(** * MathPWA: the numeric expression and statistics engine

    A shallow embedding of [src/utils/math-engine.ts], [src/utils/graphing.ts]
    and [src/utils/statistics.ts], and of the state updates of
    [src/hooks/useCalculator.ts] and [src/hooks/useGraph.ts] that call them,
    with the properties of the specification and further properties of the
    code stated and proved over it.

    Numbers are embedded twice.  Most of the code is read over the real
    numbers with the infinities and NaN ([JsNumber]): what is proved there
    does not depend on how a result is rounded.  The combinatorial functions,
    whose results do, are read over IEEE 754 binary64 ([Binary64]). *)

From Stdlib Require Import Ascii String.
From Stdlib Require Import List NArith ZArith Bool Lia Wf_nat.
From Stdlib Require Import Reals Lra Psatz Sorted Permutation.
From Stdlib Require Import DecimalString DecimalN.
From Stdlib Require SpecFloat.
Import ListNotations.

(** ** JavaScript strings and the regular expressions of the normalizer *)

Module JsString.

(** A JavaScript string is a sequence of UTF-16 code units; [length],
    [includes], [substring] and the regular expressions without the [u] flag
    all work on code units. *)
Definition code_unit := N.
Definition jsstring := list code_unit.

(** An ASCII literal as a JavaScript string. *)
Definition js (s : string) : jsstring := map N_of_ascii (list_ascii_of_string s).
Arguments js _%_string.

Definition code_eqb (a b : code_unit) : bool := N.eqb a b.
Arguments code_eqb (a b)%_N : simpl never.

(** The glyphs the keypad produces. *)
Definition TIMES : code_unit := 215%N.      (* U+00D7 *)
Definition DIVIDE : code_unit := 247%N.     (* U+00F7 *)
Definition GREEK_PI : code_unit := 960%N.   (* U+03C0 *)
Definition RADICAL : code_unit := 8730%N.   (* U+221A *)
Definition LPAREN : code_unit := 40%N.
Definition RPAREN : code_unit := 41%N.
Definition STAR : code_unit := 42%N.
Definition DOT : code_unit := 46%N.
Definition PERCENT : code_unit := 37%N.

Definition in_range (lo hi c : N) : bool := (N.leb lo c) && (N.leb c hi).
Arguments in_range (lo hi c)%_N.

(** [\d] *)
Definition is_digit (c : code_unit) : bool := in_range 48 57 c.

(** [[a-zA-Z]] *)
Definition is_letter (c : code_unit) : bool := in_range 97 122 c || in_range 65 90 c.

(** [\w], the class behind [\b] *)
Definition is_word (c : code_unit) : bool := is_letter c || is_digit c || code_eqb c 95.

(** [\s], which is also what [String.prototype.trim] strips: WhiteSpace and
    LineTerminator of ECMA-262. *)
Definition is_space (c : code_unit) : bool :=
  in_range 9 13 c || code_eqb c 32 || code_eqb c 160 || code_eqb c 5760
  || in_range 8192 8202 c || code_eqb c 8232 || code_eqb c 8233
  || code_eqb c 8239 || code_eqb c 8287 || code_eqb c 12288 || code_eqb c 65279.

Fixpoint starts_with (pat s : jsstring) : bool :=
  match pat, s with
  | [], _ => true
  | _ :: _, [] => false
  | p :: pat', c :: s' => code_eqb p c && starts_with pat' s'
  end.

Definition ends_with (suffix s : jsstring) : bool := starts_with (rev suffix) (rev s).

(** [a === b] on strings. *)
Fixpoint jseqb (a b : jsstring) : bool :=
  match a, b with
  | [], [] => true
  | x :: a', y :: b' => code_eqb x y && jseqb a' b'
  | _, _ => false
  end.

(** [s.includes(pat)] *)
Fixpoint includes (s pat : jsstring) : bool :=
  starts_with pat s || match s with [] => false | _ :: s' => includes s' pat end.

(** Longest prefix of code units in a class, and what follows it: a greedy
    [c*] whose continuation cannot start with a [c]. *)
Fixpoint span (p : code_unit -> bool) (s : jsstring) : jsstring * jsstring :=
  match s with
  | c :: s' => if p c then let (a, b) := span p s' in (c :: a, b) else ([], s)
  | [] => ([], [])
  end.

(** [s.trim()] *)
Definition trim_start (s : jsstring) : jsstring := snd (span is_space s).
Definition trim (s : jsstring) : jsstring := rev (trim_start (rev (trim_start s))).

(** *** Global replacement

    A position in the subject string is a zipper: [before] holds the code
    units to the left of the position, nearest first, and [rest] those from
    the position on.  A matcher says whether the regular expression matches at
    a position and, when it does, how many code units the match consumes
    (at least one for every expression of this program) and what replaces
    them.  [replace_all] is [subject.replace(/re/g, replacement)]: matches are
    looked for from left to right, a match is replaced and the search resumes
    after it, and every test is made against the original subject. *)
Definition matcher := jsstring -> jsstring -> option (nat * jsstring).

Fixpoint replace_from (m : matcher) (before : jsstring) (skip : nat) (rest : jsstring)
  : jsstring :=
  match rest with
  | [] => []
  | c :: rest' =>
      match skip with
      | S k => replace_from m (c :: before) k rest'
      | O =>
          match m before rest with
          | Some (len, replacement) =>
              replacement ++ replace_from m (c :: before) (pred len) rest'
          | None => c :: replace_from m (c :: before) O rest'
          end
      end
  end.

Definition replace_all (m : matcher) (subject : jsstring) : jsstring :=
  replace_from m [] 0 subject.

(** [\b]: exactly one side of the position is a word character. *)
Definition word_at (s : jsstring) : bool :=
  match s with c :: _ => is_word c | [] => false end.

Definition boundary (before rest : jsstring) : bool :=
  xorb (word_at before) (word_at rest).

(** [/pat/g] for a literal [pat]. *)
Definition literal (pat replacement : jsstring) : matcher :=
  fun _ rest =>
    if starts_with pat rest then Some (length pat, replacement) else None.

(** [/\bpat/g] for a literal [pat]. *)
Definition word_literal (pat replacement : jsstring) : matcher :=
  fun before rest =>
    if starts_with pat rest && boundary before rest
    then Some (length pat, replacement) else None.

End JsString.

(** ** The expression normalizer ([preprocessExpression]) *)

Module Normalizer.
Import JsString.

(** [(?=\s*[a-zA-Z(])] *)
Definition followed_by_letter_or_paren (rest : jsstring) : bool :=
  match snd (span is_space rest) with
  | c :: _ => is_letter c || code_eqb c LPAREN
  | [] => false
  end.

(** [(?![0-9])] *)
Definition not_followed_by_digit (rest : jsstring) : bool :=
  match rest with c :: _ => negb (is_digit c) | [] => true end.

(** [processed.substring(Math.max(0, offset - 4), offset)] at the position
    [(before, _)], whose offset is [length before]. *)
Definition lookbehind_window (before : jsstring) : jsstring := rev (firstn 4 before).

(** [/log1?$/.test(before) || /log$/.test(before)] *)
Definition part_of_log_name (window : jsstring) : bool :=
  (ends_with (js "log") window || ends_with (js "log1") window)
  || ends_with (js "log") window.

(** [/(\d)(?=\s*[a-zA-Z(])(?![0-9])/g] with its replacement callback. *)
Definition implicit_multiplication : matcher :=
  fun before rest =>
    match rest with
    | digit :: after =>
        if is_digit digit && followed_by_letter_or_paren after
           && not_followed_by_digit after
        then
          if part_of_log_name (lookbehind_window before)
          then Some (1, [digit])
          else Some (1, [digit; STAR])
        else None
    | [] => None
    end.

(** The percent step: a number (one or more digits, an optional dot, any
    number of digits) directly followed by a percent sign becomes
    ['($1/100)'].  The digit runs are greedy and nothing the expression could
    give back makes a failed attempt succeed, so the match from a position is
    decided by the longest runs. *)
Definition percent : matcher :=
  fun _ rest =>
    let (whole, r1) := span is_digit rest in
    match whole, r1 with
    | [], _ => None
    | _ :: _, c1 :: r2 =>
        if code_eqb c1 PERCENT
        then Some (S (length whole), js "(" ++ whole ++ js "/100)")
        else if code_eqb c1 DOT
        then
          let (frac, r3) := span is_digit r2 in
          match r3 with
          | c3 :: _ =>
              if code_eqb c3 PERCENT
              then Some (length whole + 1 + length frac + 1,
                         js "(" ++ whole ++ [DOT] ++ frac ++ js "/100)")
              else None
          | [] => None
          end
        else None
    | _ :: _, [] => None
    end.

(** Glyph replacement: the first four [replace] calls. *)
Definition replace_glyphs (expression : jsstring) : jsstring :=
  let processed := expression in
  let processed := replace_all (literal [TIMES] (js "*")) processed in
  let processed := replace_all (literal [DIVIDE] (js "/")) processed in
  let processed := replace_all (literal [GREEK_PI] (js "pi")) processed in
  let processed := replace_all (literal [RADICAL; LPAREN] (js "sqrt(")) processed in
  processed.

(** The logarithm names: protect, rename, restore. *)
Definition rewrite_logarithms (processed : jsstring) : jsstring :=
  (* Step 1: protect ln, log10 and log2 *)
  let processed := replace_all (word_literal (js "ln(") (js "__NATLOG__(")) processed in
  let processed := replace_all (word_literal (js "log10(") (js "__LOG10__(")) processed in
  let processed := replace_all (word_literal (js "log2(") (js "__LOG2__(")) processed in
  (* Step 2: the remaining log( becomes log10( *)
  let processed := replace_all (word_literal (js "log(") (js "log10(")) processed in
  (* Step 3: restore *)
  let processed := replace_all (literal (js "__NATLOG__(") (js "log(")) processed in
  let processed := replace_all (literal (js "__LOG10__(") (js "log10(")) processed in
  let processed := replace_all (literal (js "__LOG2__(") (js "log2(")) processed in
  processed.

Definition insert_multiplication (processed : jsstring) : jsstring :=
  replace_all implicit_multiplication processed.

Definition rewrite_percent (processed : jsstring) : jsstring :=
  replace_all percent processed.

Definition preprocessExpression (expression : jsstring) : jsstring :=
  rewrite_percent (insert_multiplication (rewrite_logarithms (replace_glyphs expression))).

End Normalizer.

(** ** JavaScript numbers

    A number is a real number, plus or minus infinity, or NaN.  Finite
    arithmetic is exact: rounding to binary64, overflow and the sign of zero
    are not modelled.  The special values follow IEEE 754 as ECMA-262
    prescribes. *)

Module JsNumber.
Local Open Scope R_scope.

Inductive number : Type :=
| Fin (x : R)
| PosInfinity
| NegInfinity
| NaN.

Definition of_Z (z : Z) : number := Fin (IZR z).
Definition of_nat (n : nat) : number := Fin (INR n).

(** The decimal literal [m] times ten to the [e]. *)
Definition dec (m e : Z) : number := Fin (IZR m * powerRZ 10 e).

Definition zero : number := Fin 0.
Definition one : number := Fin 1.

Definition Rltb (x y : R) : bool := if Rlt_dec x y then true else false.
Definition Rleb (x y : R) : bool := if Rle_dec x y then true else false.
Definition Reqb (x y : R) : bool := if Req_dec_T x y then true else false.

(** [a < b], [a <= b], [a > b], [a >= b] *)
Definition ltb (a b : number) : bool :=
  match a, b with
  | Fin x, Fin y => Rltb x y
  | NegInfinity, Fin _ | NegInfinity, PosInfinity | Fin _, PosInfinity => true
  | _, _ => false
  end.

Definition leb (a b : number) : bool :=
  match a, b with
  | NaN, _ | _, NaN => false
  | Fin x, Fin y => Rleb x y
  | NegInfinity, _ | _, PosInfinity => true
  | _, _ => false
  end.

Definition gtb (a b : number) : bool := ltb b a.
Definition geb (a b : number) : bool := leb b a.

(** [a === b] *)
Definition strict_eqb (a b : number) : bool :=
  match a, b with
  | Fin x, Fin y => Reqb x y
  | PosInfinity, PosInfinity | NegInfinity, NegInfinity => true
  | _, _ => false
  end.

(** SameValueZero, the equality of [Map] keys. *)
Definition same_value_zero (a b : number) : bool :=
  match a, b with
  | NaN, NaN => true
  | _, _ => strict_eqb a b
  end.

Definition isFinite (a : number) : bool :=
  match a with Fin _ => true | _ => false end.

Definition isNaN (a : number) : bool :=
  match a with NaN => true | _ => false end.

(** [Number.isInteger] *)
Definition isInteger (a : number) : bool :=
  match a with Fin x => Reqb x (IZR (Zfloor x)) | _ => false end.

(** The integer a number stands for; used after [Number.isInteger]. *)
Definition to_Z (a : number) : Z :=
  match a with Fin x => Zfloor x | _ => 0%Z end.

(** [Some true] for a positive number, [Some false] for a negative one. *)
Definition sign (a : number) : option bool :=
  match a with
  | Fin x => if Rltb 0 x then Some true else if Rltb x 0 then Some false else None
  | PosInfinity => Some true
  | NegInfinity => Some false
  | NaN => None
  end.

Definition signed_infinity (positive : bool) : number :=
  if positive then PosInfinity else NegInfinity.

Definition neg (a : number) : number :=
  match a with
  | Fin x => Fin (- x)
  | PosInfinity => NegInfinity
  | NegInfinity => PosInfinity
  | NaN => NaN
  end.

Definition add (a b : number) : number :=
  match a, b with
  | NaN, _ | _, NaN => NaN
  | Fin x, Fin y => Fin (x + y)
  | PosInfinity, NegInfinity | NegInfinity, PosInfinity => NaN
  | PosInfinity, _ | _, PosInfinity => PosInfinity
  | NegInfinity, _ | _, NegInfinity => NegInfinity
  end.

Definition sub (a b : number) : number := add a (neg b).

Definition mul (a b : number) : number :=
  match a, b with
  | Fin x, Fin y => Fin (x * y)
  | _, _ =>
      match sign a, sign b with
      | Some s, Some t => signed_infinity (Bool.eqb s t)
      | _, _ => NaN
      end
  end.

Definition div (a b : number) : number :=
  match a, b with
  | NaN, _ | _, NaN => NaN
  | Fin x, Fin y =>
      if Reqb y 0
      then match sign a with Some s => signed_infinity s | None => NaN end
      else Fin (x / y)
  | Fin _, _ => Fin 0
  | _, Fin y =>
      match sign a with
      | Some s => signed_infinity (Bool.eqb s (negb (Rltb y 0)))
      | None => NaN
      end
  | _, _ => NaN
  end.

Definition Math_PI : number := Fin PI.

Definition Math_abs (a : number) : number :=
  match a with
  | Fin x => Fin (Rabs x)
  | PosInfinity | NegInfinity => PosInfinity
  | NaN => NaN
  end.

Definition Math_sqrt (a : number) : number :=
  match a with
  | Fin x => if Rltb x 0 then NaN else Fin (sqrt x)
  | PosInfinity => PosInfinity
  | _ => NaN
  end.


Definition Math_exp (a : number) : number :=
  match a with
  | Fin x => Fin (exp x)
  | PosInfinity => PosInfinity
  | NegInfinity => Fin 0
  | NaN => NaN
  end.

(** [Math.pow] at an exponent that is a natural-number literal. *)
Definition Math_pow (a : number) (n : nat) : number :=
  match n with
  | O => one
  | _ =>
      match a with
      | Fin x => Fin (x ^ n)
      | PosInfinity => PosInfinity
      | NegInfinity => if Nat.even n then PosInfinity else NegInfinity
      | NaN => NaN
      end
  end.

Definition Math_sin (a : number) : number :=
  match a with Fin x => Fin (sin x) | _ => NaN end.

Definition Math_cos (a : number) : number :=
  match a with Fin x => Fin (cos x) | _ => NaN end.

Definition Math_tan (a : number) : number :=
  match a with Fin x => Fin (tan x) | _ => NaN end.

Definition Math_asin (a : number) : number :=
  match a with
  | Fin x => if Rleb (-1) x && Rleb x 1 then Fin (asin x) else NaN
  | _ => NaN
  end.

Definition Math_acos (a : number) : number :=
  match a with
  | Fin x => if Rleb (-1) x && Rleb x 1 then Fin (acos x) else NaN
  | _ => NaN
  end.

Definition Math_atan (a : number) : number :=
  match a with
  | Fin x => Fin (atan x)
  | PosInfinity => Fin (PI / 2)
  | NegInfinity => Fin (- (PI / 2))
  | NaN => NaN
  end.

(** The order of the numbers other than NaN. *)
Definition number_le (a b : number) : Prop := leb a b = true.
Definition number_lt (a b : number) : Prop := ltb a b = true.

Definition number_eq_dec (a b : number) : {a = b} + {a <> b}.
Proof. decide equality. apply Req_dec_T. Defined.

End JsNumber.

(** ** JavaScript numbers, in binary64

    The numbers of IEEE 754 binary64 with their arithmetic, every result
    rounded to the nearest number and to the even one on a tie, as ECMA-262
    prescribes for [+], [-], [*] and [/]: the operations of
    [SpecFloat] at a precision of 53 bits and the largest exponent 1024. *)

Module Binary64.
Import SpecFloat.
Local Open Scope Z_scope.

Definition number : Type := spec_float.

Definition prec : Z := 53.
Definition emax : Z := 1024.

Definition PosInfinity : number := S754_infinity false.
Definition zero : number := S754_zero false.

(** The integer [z], rounded to the nearest number (to even on a tie). *)
Definition of_Z (z : Z) : number := binary_normalize prec emax z 0 false.

Definition one : number := of_Z 1.

Definition add : number -> number -> number := SFadd prec emax.
Definition sub : number -> number -> number := SFsub prec emax.
Definition mul : number -> number -> number := SFmul prec emax.
Definition div : number -> number -> number := SFdiv prec emax.

Definition ltb : number -> number -> bool := SFltb.
Definition leb : number -> number -> bool := SFleb.
Definition gtb (a b : number) : bool := SFltb b a.
Definition strict_eqb : number -> number -> bool := SFeqb.

(** [Number.isInteger]: the exponent is not negative, or the bits of the
    mantissa below the binary point are 0. *)
Definition isInteger (a : number) : bool :=
  match a with
  | S754_zero _ => true
  | S754_finite _ m e => (0 <=? e) || (Z.land (Zpos m) (Z.ones (- e)) =? 0)
  | _ => false
  end.

(** The integer a number is, if it is one. *)
Definition integer_value (a : number) : option Z :=
  match a with
  | S754_zero _ => Some 0
  | S754_finite s m e =>
      if isInteger a then Some (cond_Zopp s (Z.shiftl (Zpos m) e)) else None
  | _ => None
  end.

(** [Math.round]: the largest integer that is not above [a + 1/2]; a number
    from -0.5 to -0 gives -0. *)
Definition Math_round (a : number) : number :=
  match a with
  | S754_finite s m e =>
      if 0 <=? e then a
      else
        let q := Z.shiftr (2 * cond_Zopp s (Zpos m) + Z.shiftl 1 (- e)) (1 - e) in
        if q =? 0 then S754_zero s else of_Z q
  | _ => a
  end.

End Binary64.

(** ** Completions: a value, or a thrown [Error]

    Whatever is thrown is an [Error] object with a [message], as the cast
    [error as Error] in the [catch] clause of [evaluate] takes for granted. *)

Module Completion.
Import JsString.

Record Error := new_Error { message : jsstring }.

Inductive completion (A : Type) : Type :=
| Normal (a : A)
| Throw (e : Error).
Arguments Normal {A} a.
Arguments Throw {A} e.

Definition bind {A B : Type} (c : completion A) (k : A -> completion B) : completion B :=
  match c with
  | Normal a => k a
  | Throw e => Throw e
  end.

(** [try { body } catch (error) { handler }] *)
Definition try_catch {A : Type} (body : completion A) (handler : Error -> completion A)
  : completion A :=
  match body with
  | Normal a => Normal a
  | Throw e => handler e
  end.


End Completion.

Declare Scope completion_scope.
Delimit Scope completion_scope with completion.
Notation "x <- c ;; k" := (Completion.bind c (fun x => k))
  (at level 61, c at next level, right associativity) : completion_scope.

(** ** The evaluation adapter ([math-engine.ts]) and the function sampler
    ([graphing.ts]) *)

Module Engine.
Import JsString JsNumber Completion Normalizer.
Local Open Scope completion_scope.

Inductive AngleUnit := deg | rad.

(** [number | string] *)
Inductive value :=
| VNumber (n : number)
| VString (s : jsstring).

Inductive CalculationResult :=
| Success (value : value) (displayValue : jsstring)
| Failure (error : jsstring).

(** What [math.evaluate] can return, as far as [evaluate] tells values apart:
    [typeof result] is ['number'] or ['boolean'], the result is [null] or
    [undefined], or it is anything else (a matrix, a complex number, a unit,
    a string), named by a tag that the model does not inspect. *)
Inductive mathjs_value :=
| MNumber (n : number)
| MBoolean (b : bool)
| MNull
| MUndefined
| MOther (tag : N).

(** The scope object handed to [math.evaluate]: its properties in insertion
    order. *)
Definition scope := list (jsstring * (number -> number)).

Fixpoint lookup (sc : scope) (name : jsstring) : option (number -> number) :=
  match sc with
  | [] => None
  | (k, f) :: sc' => if jseqb k name then Some f else lookup sc' name
  end.

(** [scope[name] = f] *)
Fixpoint assign (sc : scope) (name : jsstring) (f : number -> number) : scope :=
  match sc with
  | [] => [(name, f)]
  | (k, g) :: sc' => if jseqb k name then (k, f) :: sc' else (k, g) :: assign sc' name f
  end.

(** The mathjs instance: an external library. *)
Record mathjs := {
  math_evaluate : jsstring -> scope -> completion mathjs_value;
  math_parse : jsstring -> completion unit;
  math_format : mathjs_value -> nat -> completion jsstring;
  math_factorial : number -> completion number;
  math_permutations : number -> number -> completion number;
  math_combinations : number -> number -> completion number
}.

(** The built-in conversions between numbers and strings. *)
Record builtins := {
  toExponential : number -> nat -> jsstring;
  toPrecision : number -> nat -> jsstring;
  Number_toString : number -> jsstring;
  Number_of_string : jsstring -> number
}.

Definition DISPLAY_PRECISION : nat := 12.

Definition ERROR_MESSAGES : list (jsstring * jsstring) :=
  [ (js "Undefined function", js "Unknown function");
    (js "Unexpected end of expression", js "Incomplete expression");
    (js "Value expected", js "Missing value");
    (js "Parenthesis ) expected", js "Missing )");
    (js "Cannot divide by zero", js "Divide by zero") ].

Definition degreesToRadians (degrees : number) : number :=
  mul degrees (div Math_PI (of_Z 180)).

Definition radiansToDegrees (radians : number) : number :=
  mul radians (div (of_Z 180) Math_PI).

Definition transformForAngleUnit (expression : jsstring) (angleUnit : AngleUnit) : jsstring :=
  match angleUnit with
  | rad => expression
  | deg => expression
  end.

(** The loop of [getUserFriendlyError] over [Object.entries(ERROR_MESSAGES)]. *)
Fixpoint first_known (entries : list (jsstring * jsstring)) (message : jsstring)
  : option jsstring :=
  match entries with
  | [] => None
  | (pattern, friendly) :: entries' =>
      if includes message pattern then Some friendly else first_known entries' message
  end.

Definition getUserFriendlyError (error : Error) : jsstring :=
  let message := message error in
  match first_known ERROR_MESSAGES message with
  | Some friendly => friendly
  | None =>
      if Nat.ltb 30 (length message) then js "Syntax Error" else message
  end.

(** The scope [evaluate] builds before it calls [math.evaluate]. *)
Definition trig_scope (angleUnit : AngleUnit) : scope :=
  let scope : scope := [] in
  match angleUnit with
  | deg =>
      let scope := assign scope (js "sin") (fun x => Math_sin (degreesToRadians x)) in
      let scope := assign scope (js "cos") (fun x => Math_cos (degreesToRadians x)) in
      let scope := assign scope (js "tan") (fun x => Math_tan (degreesToRadians x)) in
      let scope := assign scope (js "asin") (fun x => radiansToDegrees (Math_asin x)) in
      let scope := assign scope (js "acos") (fun x => radiansToDegrees (Math_acos x)) in
      let scope := assign scope (js "atan") (fun x => radiansToDegrees (Math_atan x)) in
      scope
  | rad => scope
  end.

Definition hasBalancedParentheses (expression : jsstring) : bool :=
  let step (state : option Z) (char : code_unit) : option Z :=
    match state with
    | None => None
    | Some count =>
        let count := if code_eqb char LPAREN then (count + 1)%Z else count in
        let count := if code_eqb char RPAREN then (count - 1)%Z else count in
        if (count <? 0)%Z then None else Some count
    end in
  match fold_left step expression (Some 0%Z) with
  | None => false
  | Some count => (count =? 0)%Z
  end.

Definition getUnclosedParentheses (expression : jsstring) : Z :=
  let step (count : Z) (char : code_unit) : Z :=
    let count := if code_eqb char LPAREN then (count + 1)%Z else count in
    if code_eqb char RPAREN then (count - 1)%Z else count in
  Z.max 0 (fold_left step expression 0%Z).

(** [/\bx\b/gi] *)
Definition variable_x (replacement : jsstring) : matcher :=
  fun before rest =>
    match rest with
    | c :: after =>
        if boundary before rest && (code_eqb c 120 || code_eqb c 88)
           && boundary (c :: before) after
        then Some (1%nat, replacement) else None
    | [] => None
    end.

Section WithLibraries.
Variable B : builtins.
Variable M : mathjs.

Definition formatNumber (value : number) : jsstring :=
  if negb (isFinite value) then
    if isNaN value then js "Error"
    else if gtb value zero then js "Infinity" else js "-Infinity"
  else if gtb (Math_abs value) (dec 1 12)
          || (ltb (Math_abs value) (dec 1 (-10)) && negb (strict_eqb value zero))
  then toExponential B value (DISPLAY_PRECISION - 4)
  else
    let rounded := Number_of_string B (toPrecision B value DISPLAY_PRECISION) in
    let str := Number_toString B rounded in
    if Nat.ltb (DISPLAY_PRECISION + 2) (length str)
    then toExponential B value (DISPLAY_PRECISION - 4)
    else str.

(** The [try] block of [evaluate]. *)
Definition evaluate_body (expression : jsstring) (angleUnit : AngleUnit)
  : completion CalculationResult :=
  let processed := preprocessExpression expression in
  let processed := transformForAngleUnit processed angleUnit in
  let scope := trig_scope angleUnit in
  result <- math_evaluate M processed scope ;;
  match result with
  | MNumber n => Normal (Success (VNumber n) (formatNumber n))
  | MBoolean b =>
      Normal (Success (VString (if b then js "true" else js "false"))
                      (if b then js "true" else js "false"))
  | MNull | MUndefined => Normal (Failure (js "No result"))
  | MOther _ =>
      str <- math_format M result DISPLAY_PRECISION ;;
      Normal (Success (VString str) str)
  end.

Definition evaluate (expression : jsstring) (angleUnit : AngleUnit)
  : completion CalculationResult :=
  match trim expression with
  | [] => Normal (Failure (js "Empty expression"))
  | _ :: _ =>
      try_catch (evaluate_body expression angleUnit)
                (fun error => Normal (Failure (getUserFriendlyError error)))
  end.

Definition isValidExpression (expression : jsstring) : completion bool :=
  match trim expression with
  | [] => Normal false
  | _ :: _ =>
      try_catch (_ <- math_parse M (preprocessExpression expression) ;; Normal true)
                (fun _ => Normal false)
  end.

Definition factorial (n : number) : completion number :=
  if ltb n zero || negb (isInteger n)
  then Throw (new_Error (js "Factorial requires a non-negative integer"))
  else if gtb n (of_Z 170) then Normal PosInfinity
  else math_factorial M n.

Definition permutations (n r : number) : completion number :=
  if ltb n zero || ltb r zero || negb (isInteger n) || negb (isInteger r)
  then Throw (new_Error (js "Permutations require non-negative integers"))
  else if gtb r n then Normal zero
  else math_permutations M n r.

Definition combinations (n r : number) : completion number :=
  if ltb n zero || ltb r zero || negb (isInteger n) || negb (isInteger r)
  then Throw (new_Error (js "Combinations require non-negative integers"))
  else if gtb r n then Normal zero
  else math_combinations M n r.

(** [graphing.ts]: the value of a function expression at [x], or [null]. *)
Definition evaluateFunction (expression : jsstring) (x : number)
  : completion (option number) :=
  let expr :=
    replace_all (variable_x (js "(" ++ Number_toString B x ++ js ")")) expression in
  result <- evaluate expr rad ;;
  match result with
  | Success (VNumber v) _ => if isFinite v then Normal (Some v) else Normal None
  | _ => Normal None
  end.

End WithLibraries.

End Engine.

(** ** Statistics and the normal distribution
    ([statistics.ts]) *)

Module Statistics.
Import JsString JsNumber Completion.

Record StatisticsData := {
  values : list number;
  mean : number;
  median : number;
  mode : list number;
  stdDev : number;
  variance : number;
  sum : number;
  count : number
}.

(** [array[i]]; out of range the array gives [undefined], which is NaN as
    soon as it meets arithmetic. *)
Definition item (array : list number) (i : nat) : number := nth i array NaN.

(** [array.sort(compare)]: ECMA-262 leaves the algorithm to the
    implementation but asks for a stable sort, so that for a consistent
    comparison the result is the one of any stable sort; this is insertion
    sort.  [x] goes behind [y] when [compare x y > 0]. *)
Fixpoint insert_by (compare : number -> number -> number) (x : number)
  (sorted : list number) : list number :=
  match sorted with
  | [] => [x]
  | y :: rest =>
      if gtb (compare x y) zero then y :: insert_by compare x rest else x :: sorted
  end.

Definition sort_by (compare : number -> number -> number) (array : list number)
  : list number :=
  fold_right (insert_by compare) [] array.

(** [Map<number, number>]: the entries in insertion order, keys compared by
    SameValueZero. *)
Definition Map := list (number * nat).

Fixpoint Map_get (m : Map) (key : number) : option nat :=
  match m with
  | [] => None
  | (k, v) :: m' => if same_value_zero k key then Some v else Map_get m' key
  end.

Fixpoint Map_set (m : Map) (key : number) (v : nat) : Map :=
  match m with
  | [] => [(key, v)]
  | (k, w) :: m' =>
      if same_value_zero k key then (k, v) :: m' else (k, w) :: Map_set m' key v
  end.

Definition calculateSum (values : list number) : number :=
  fold_left (fun sum val => add sum val) values zero.

Definition calculateMean (values : list number) : number :=
  if Nat.eqb (length values) 0 then zero
  else div (fold_left (fun sum val => add sum val) values zero) (of_nat (length values)).

Definition calculateMedian (values : list number) : number :=
  if Nat.eqb (length values) 0 then zero
  else
    let sorted := sort_by (fun a b => sub a b) values in
    let mid := Nat.div (length sorted) 2 in
    if Nat.eqb (Nat.modulo (length sorted) 2) 0
    then div (add (item sorted (mid - 1)) (item sorted mid)) (of_Z 2)
    else item sorted mid.

(** The body of the counting loop of [calculateMode]. *)
Definition count_value (state : Map * nat) (value : number) : Map * nat :=
  let (counts, maxCount) := state in
  let count := (match Map_get counts value with Some c => c | None => 0 end) + 1 in
  (Map_set counts value count, Nat.max maxCount count).

Definition calculateMode (values : list number) : list number :=
  if Nat.eqb (length values) 0 then []
  else
    let (counts, maxCount) := fold_left count_value values ([], 0) in
    if Nat.eqb maxCount 1 && Nat.ltb 1 (length values) then []
    else
      let modes :=
        map fst (filter (fun entry => Nat.eqb (snd entry) maxCount) counts) in
      sort_by (fun a b => sub a b) modes.

Definition calculateVariance (values : list number) : number :=
  if Nat.eqb (length values) 0 then zero
  else
    let mean := calculateMean values in
    let squaredDiffs := map (fun val => Math_pow (sub val mean) 2) values in
    div (fold_left (fun sum val => add sum val) squaredDiffs zero)
        (of_nat (length values)).

Definition calculateSampleVariance (values : list number) : number :=
  if Nat.leb (length values) 1 then zero
  else
    let mean := calculateMean values in
    let squaredDiffs := map (fun val => Math_pow (sub val mean) 2) values in
    div (fold_left (fun sum val => add sum val) squaredDiffs zero)
        (sub (of_nat (length values)) one).

Definition calculateStdDev (values : list number) : number :=
  Math_sqrt (calculateVariance values).

Definition calculateSampleStdDev (values : list number) : number :=
  Math_sqrt (calculateSampleVariance values).

Definition calculateStatistics (values : list number) : StatisticsData :=
  {| values := values;
     mean := calculateMean values;
     median := calculateMedian values;
     mode := calculateMode values;
     stdDev := calculateStdDev values;
     variance := calculateVariance values;
     sum := calculateSum values;
     count := of_nat (length values) |}.

(** The default arguments [mean = 0] and [stdDev = 1] are passed
    explicitly. *)
Definition normalPDF (x mean stdDev : number) : number :=
  let coefficient := div one (mul stdDev (Math_sqrt (mul (of_Z 2) Math_PI))) in
  let exponent :=
    div (neg (Math_pow (sub x mean) 2)) (mul (of_Z 2) (Math_pow stdDev 2)) in
  mul coefficient (Math_exp exponent).

Definition normalCDF (x mean stdDev : number) : number :=
  let z := div (sub x mean) stdDev in
  let a1 := dec 254829592 (-9) in
  let a2 := dec (-284496736) (-9) in
  let a3 := dec 1421413741 (-9) in
  let a4 := dec (-1453152027) (-9) in
  let a5 := dec 1061405429 (-9) in
  let p := dec 3275911 (-7) in
  let sign := if ltb z zero then of_Z (-1) else of_Z 1 in
  let absZ := Math_abs z in
  let t := div one (add one (mul p absZ)) in
  let y :=
    sub one
        (mul (mul (add (mul (add (mul (add (mul (add (mul a5 t) a4) t) a3) t) a2) t) a1) t)
             (Math_exp (div (mul (neg absZ) absZ) (of_Z 2)))) in
  mul (dec 5 (-1)) (add one (mul sign y)).












End Statistics.

(** ** The combinatorial functions of [statistics.ts], in binary64 *)

Module Combinatorics.
Import JsString Completion Binary64.

(** [for (let i = start; test(i); i = next(i)) acc = body(i, acc)]; [fuel]
    bounds the number of turns, and the result is [None] when the loop has
    not ended within it. *)
Fixpoint for_loop {A : Type} (fuel : nat) (test : number -> bool) (i : number)
  (next : number -> number) (body : number -> A -> A) (acc : A) : option A :=
  match fuel with
  | O => None
  | S fuel' =>
      if test i then for_loop fuel' test (next i) next body (body i acc)
      else Some acc
  end.

Definition factorial (fuel : nat) (n : number) : option (completion number) :=
  if ltb n zero || negb (isInteger n)
  then Some (Throw (new_Error (js "Factorial requires a non-negative integer")))
  else if strict_eqb n zero || strict_eqb n one then Some (Normal one)
  else if gtb n (of_Z 170) then Some (Normal PosInfinity)
  else
    option_map Normal
      (for_loop fuel (fun i => leb i n) (of_Z 2) (fun i => add i one)
         (fun i result => mul result i) one).

Definition permutations (fuel : nat) (n r : number) : option (completion number) :=
  if ltb n zero || ltb r zero || negb (isInteger n) || negb (isInteger r)
  then Some (Throw (new_Error (js "nPr requires non-negative integers")))
  else if gtb r n then Some (Normal zero)
  else if strict_eqb r zero then Some (Normal one)
  else
    option_map Normal
      (for_loop fuel (fun i => gtb i (sub n r)) n (fun i => sub i one)
         (fun i result => mul result i) one).

Definition combinations (fuel : nat) (n r : number) : option (completion number) :=
  if ltb n zero || ltb r zero || negb (isInteger n) || negb (isInteger r)
  then Some (Throw (new_Error (js "nCr requires non-negative integers")))
  else if gtb r n then Some (Normal zero)
  else if strict_eqb r zero || strict_eqb r n then Some (Normal one)
  else
    let k := if gtb r (sub n r) then sub n r else r in
    option_map (fun result => Normal (Math_round result))
      (for_loop fuel (fun i => ltb i k) zero (fun i => add i one)
         (fun i result => div (mul result (sub n i)) (add i one)) one).

End Combinatorics.

(** ** Notions used to state and prove the normalizer's properties *)

Module RewriteModel.
Import JsString Normalizer.

Definition paren_free (u : jsstring) : Prop := ~ In LPAREN u.

(** The seven expressions of the logarithm step all have the shape
    [body] then an opening parenthesis, with or without a leading [\b], and
    are replaced by [rbody] then an opening parenthesis. *)
Record rule := { at_boundary : bool; body : jsstring; rbody : jsstring }.

Definition guard (r : rule) (before : jsstring) : bool :=
  negb (at_boundary r) || negb (word_at before).

Definition rule_matcher (r : rule) : matcher :=
  fun before rest =>
    if starts_with (body r ++ [LPAREN]) rest && guard r before
    then Some (S (length (body r)), rbody r ++ [LPAREN]) else None.

Definition well_formed (r : rule) : Prop :=
  paren_free (body r) /\ paren_free (rbody r) /\ body r <> [].

(** What a rule does to a stretch of text without parentheses that is
    followed by an opening parenthesis. *)
Fixpoint segment (r : rule) (before u : jsstring) : jsstring :=
  match u with
  | [] => []
  | c :: u' =>
      if jseqb (body r) u && guard r before then rbody r
      else c :: segment r (c :: before) u'
  end.

(** Two reversed strings that differ before either ends: neither string is a
    suffix of the other. *)
Fixpoint clash (a b : jsstring) : bool :=
  match a, b with
  | x :: a', y :: b' => if code_eqb x y then clash a' b' else true
  | _, _ => false
  end.

Definition pipeline (rules : list rule) (ctx s : jsstring) : jsstring :=
  fold_left (fun acc r => replace_from (rule_matcher r) ctx 0 acc) rules s.

Definition segments (rules : list rule) (ctx u : jsstring) : jsstring :=
  fold_left (fun acc r => segment r ctx acc) rules u.

Definition r_ln := {| at_boundary := true; body := js "ln"; rbody := js "__NATLOG__" |}.
Definition r_log10 := {| at_boundary := true; body := js "log10"; rbody := js "__LOG10__" |}.
Definition r_log2 := {| at_boundary := true; body := js "log2"; rbody := js "__LOG2__" |}.
Definition r_log := {| at_boundary := true; body := js "log"; rbody := js "log10" |}.
Definition r_NATLOG := {| at_boundary := false; body := js "__NATLOG__"; rbody := js "log" |}.
Definition r_LOG10 := {| at_boundary := false; body := js "__LOG10__"; rbody := js "log10" |}.
Definition r_LOG2 := {| at_boundary := false; body := js "__LOG2__"; rbody := js "log2" |}.

Definition log_rules : list rule :=
  [r_ln; r_log10; r_log2; r_log; r_NATLOG; r_LOG10; r_LOG2].

(** The position after [pre] is one where [\b] holds in front of a name:
    [pre] is empty or ends in a code unit that is not a letter, a digit or an
    underscore. *)
Definition at_word_boundary (pre : jsstring) : Prop := word_at (rev pre) = false.

(** *** The multiplication step, position by position *)

(** A letter or an opening parenthesis follows, optionally through white
    space. *)
Definition followed_through_space (post : jsstring) : Prop :=
  exists ws c rest,
    post = ws ++ c :: rest
    /\ Forall (fun w => is_space w = true) ws
    /\ (is_letter c = true \/ c = LPAREN).

(** The (at most) four code units in front of offset [i]. *)
Definition window_before (s : jsstring) (i : nat) : jsstring :=
  skipn (i - 4) (firstn i s).

(** The window ends in [log] or in [log1]. *)
Definition ends_in_log_name (window : jsstring) : Prop :=
  exists a, window = a ++ js "log" \/ window = a ++ js "log1".

(** The positions after which the specification asks for a multiplication
    sign. *)
Definition star_after (s : jsstring) (i : nat) : Prop :=
  exists d,
    nth_error s i = Some d
    /\ is_digit d = true
    /\ followed_through_space (skipn (S i) s)
    /\ ~ ends_in_log_name (window_before s i).

Definition star_afterb (s : jsstring) (i : nat) : bool :=
  match skipn i s with
  | d :: post =>
      is_digit d && followed_by_letter_or_paren post
      && negb (ends_with (js "log") (window_before s i)
               || ends_with (js "log1") (window_before s i))
  | [] => false
  end.

(** The subject with a multiplication sign after each chosen position. *)
Definition with_stars (s : jsstring) (chosen : nat -> bool) : jsstring :=
  flat_map (fun i =>
              match nth_error s i with
              | Some c => c :: (if chosen i then [STAR] else [])
              | None => []
              end)
           (seq 0 (length s)).

End RewriteModel.

(** ** Notions used to state the properties of the statistics *)

Module StatisticsSpec.
Import JsNumber Statistics.

(** How often [v] occurs in [values]. *)
Definition occ (values : list number) (v : number) : nat :=
  count_occ number_eq_dec values v.

(** [v] is a value of the sequence that no value occurs more often than. *)
Definition most_frequent (values : list number) (v : number) : Prop :=
  In v values /\ forall w, occ values w <= occ values v.

(** The state of the counting loop after the values [seen]. *)
Definition counted (seen : list number) (state : Map * nat) : Prop :=
  let (counts, maxCount) := state in
  NoDup (map fst counts)
  /\ (forall k c, In (k, c) counts <-> In k seen /\ c = occ seen k)
  /\ (forall k, occ seen k <= maxCount)
  /\ (maxCount = 0 \/ exists k, occ seen k = maxCount).

End StatisticsSpec.

(** ** Notions used to state the properties of the evaluation adapter *)

Module EngineSpec.
Import JsString JsNumber Completion Normalizer Engine.

(** [pat] occurs in [s]. *)
Definition contains (s pat : jsstring) : Prop := exists pre post, s = pre ++ pat ++ post.

(** Empty or white space only. *)
Definition blank (s : jsstring) : Prop := Forall (fun c => is_space c = true) s.

(** No pattern of the table occurs in the message. *)
Definition unmatched (message : jsstring) : Prop :=
  forall entry, In entry ERROR_MESSAGES -> ~ contains message (fst entry).

(** How an expression evaluator resolves the function of a call: the scope
    first, its own function otherwise. *)
Definition resolve (sc : scope) (name : jsstring) (native : number -> number)
  : number -> number :=
  match lookup sc name with Some f => f | None => native end.

Definition is_word_opt (c : option code_unit) : bool :=
  match c with Some c => is_word c | None => false end.

(** Offset [i] holds the token [x]: the letter in either case, with no word
    character directly before or after it. *)
Definition token_x (s : jsstring) (i : nat) : Prop :=
  (nth_error s i = Some 120%N \/ nth_error s i = Some 88%N)
  /\ (i = 0 \/ is_word_opt (nth_error s (i - 1)) = false)
  /\ is_word_opt (nth_error s (S i)) = false.

Definition token_xb (s : jsstring) (i : nat) : bool :=
  match nth_error s i with
  | Some c =>
      (code_eqb c 120 || code_eqb c 88)
      && (Nat.eqb i 0 || negb (is_word_opt (nth_error s (i - 1))))
      && negb (is_word_opt (nth_error s (S i)))
  | None => false
  end.

(** The subject with [replacement] in place of each chosen position. *)
Definition with_replacements (s : jsstring) (chosen : nat -> bool) (replacement : jsstring)
  : jsstring :=
  flat_map (fun i =>
              match nth_error s i with
              | Some c => if chosen i then replacement else [c]
              | None => []
              end)
           (seq 0 (length s)).

(** The expression [evaluateFunction] hands to [evaluate]. *)
Definition substituted (B : builtins) (expression : jsstring) (x : number) : jsstring :=
  replace_all (variable_x (js "(" ++ Number_toString B x ++ js ")")) expression.

(** A stand-in for the external libraries that knows the expressions of the
    specification's examples and rejects everything else. *)
Definition example_mathjs : mathjs :=
  {| math_evaluate := fun expression sc =>
       if jseqb expression (js "sin(90)")
       then Normal (MNumber (resolve sc (js "sin") Math_sin (of_Z 90)))
       else if jseqb expression (js "sin(pi/2)")
       then Normal (MNumber (resolve sc (js "sin") Math_sin (div Math_PI (of_Z 2))))
       else if jseqb expression (js "asin(1)")
       then Normal (MNumber (resolve sc (js "asin") Math_asin (of_Z 1)))
       else if jseqb expression (js "1/(0)")
       then Normal (MNumber PosInfinity)
       else Throw (new_Error (js "Undefined function foo"));
     math_parse := fun _ => Normal tt;
     math_format := fun _ _ => Normal (js "[]");
     math_factorial := fun _ => Normal one;
     math_permutations := fun _ _ => Normal one;
     math_combinations := fun _ _ => Normal one |}.

Definition example_builtins : builtins :=
  {| toExponential := fun _ _ => js "0e+0";
     toPrecision := fun _ _ => js "0";
     Number_toString := fun _ => js "0";
     Number_of_string := fun _ => zero |}.

End EngineSpec.

(** ** More of [Math] *)

Module JsMath.
Import JsNumber.

Definition Math_max (a b : number) : number :=
  match a, b with
  | NaN, _ | _, NaN => NaN
  | _, _ => if ltb a b then b else a
  end.

End JsMath.

(** ** Graph coordinates and tables ([graphing.ts]) *)

Module Graphing.
Import JsString JsNumber JsMath Completion Engine.
Local Open Scope completion_scope.

Record GraphBounds := { xMin : number; xMax : number; yMin : number; yMax : number }.

(** [{ x, y }], with a number or with [number | null] for [y]. *)
Record point (A : Type) := { x : number; y : A }.
Arguments x {A} _.
Arguments y {A} _.

Definition DEFAULT_BOUNDS : GraphBounds :=
  {| xMin := of_Z (-10); xMax := of_Z 10; yMin := of_Z (-10); yMax := of_Z 10 |}.

Definition graphToCanvas (graphX graphY : number) (bounds : GraphBounds)
  (canvasWidth canvasHeight : number) : point number :=
  let xRange := sub (xMax bounds) (xMin bounds) in
  let yRange := sub (yMax bounds) (yMin bounds) in
  let x := mul (div (sub graphX (xMin bounds)) xRange) canvasWidth in
  let y := mul (div (sub (yMax bounds) graphY) yRange) canvasHeight in
  {| x := x; y := y |}.

Section WithLibraries.
Variable B : builtins.
Variable M : mathjs.

(** The loop of [generateTable]: [fuel] bounds the number of turns, and the
    result is [None] when the loop has not ended within it. *)
Fixpoint generateTable_loop (fuel : nat) (expression : jsstring) (x xEnd step : number)
  (table : list (point (option number)))
  : option (completion (list (point (option number)))) :=
  match fuel with
  | O => None
  | S fuel' =>
      if leb x xEnd then
        match evaluateFunction B M expression x with
        | Normal y =>
            generateTable_loop fuel' expression (add x step) xEnd step
              (table ++ [{| x := x; y := y |}])
        | Throw e => Some (Throw e)
        end
      else Some (Normal table)
  end.

Definition generateTable (fuel : nat) (expression : jsstring) (xStart xEnd step : number)
  : option (completion (list (point (option number)))) :=
  generateTable_loop fuel expression xStart xEnd step [].

End WithLibraries.

End Graphing.

(** ** Drawing a curve ([drawFunction] of [graphing.ts]) *)

Module Drawing.
Import JsString JsNumber JsMath Completion Engine Graphing.

(** What [drawFunction] does to the canvas context, call by call. *)
Inductive canvas_call :=
| set_strokeStyle (value : jsstring)
| set_lineWidth (value : number)
| set_lineCap (value : jsstring)
| set_lineJoin (value : jsstring)
| beginPath
| moveTo (x y : number)
| lineTo (x y : number)
| stroke.

(** The second loop: [points] are the samples left, [drawing] the flag. *)
Fixpoint draw_points (points : list (option (point number))) (drawing : bool)
  : list canvas_call :=
  match points with
  | [] => if drawing then [stroke] else []
  | None :: points' =>
      if drawing then stroke :: beginPath :: draw_points points' false
      else draw_points points' false
  | Some p :: points' =>
      if negb drawing then moveTo (x p) (y p) :: draw_points points' true
      else lineTo (x p) (y p) :: draw_points points' true
  end.

Section WithLibraries.
Variable B : builtins.
Variable M : mathjs.

(** The first loop, from [i] on; [None] when it has not ended within
    [fuel] turns. *)
Fixpoint sample_loop (fuel : nat) (expression : jsstring) (bounds : GraphBounds)
  (width height numPoints xStep : number) (i : number)
  (points : list (option (point number)))
  : option (completion (list (option (point number)))) :=
  match fuel with
  | O => None
  | S fuel' =>
      if leb i numPoints then
        let graphX := add (xMin bounds) (mul i xStep) in
        match evaluateFunction B M expression graphX with
        | Normal graphY =>
            let sample :=
              match graphY with
              | Some graphY =>
                  if geb graphY (sub (yMin bounds) (of_Z 100))
                     && leb graphY (add (yMax bounds) (of_Z 100))
                  then Some (graphToCanvas graphX graphY bounds width height)
                  else None
              | None => None
              end in
            sample_loop fuel' expression bounds width height numPoints xStep
              (add i one) (points ++ [sample])
        | Throw e => Some (Throw e)
        end
      else Some (Normal points)
  end.

Definition drawFunction (fuel : nat) (expression color : jsstring) (bounds : GraphBounds)
  (width height : number) : option (completion (list canvas_call)) :=
  match trim expression with
  | [] => Some (Normal [])
  | _ :: _ =>
      let styles :=
        [set_strokeStyle color; set_lineWidth (of_Z 2); set_lineCap (js "round");
         set_lineJoin (js "round")] in
      let numPoints := mul width (of_Z 2) in
      let xStep := div (sub (xMax bounds) (xMin bounds)) numPoints in
      match sample_loop fuel expression bounds width height numPoints xStep (of_Z 0) [] with
      | None => None
      | Some (Throw e) => Some (Throw e)
      | Some (Normal points) =>
          Some (Normal (styles ++ beginPath :: draw_points points false))
      end
  end.

End WithLibraries.

End Drawing.

(** ** Reading a data set ([parseDataInput] of [statistics.ts]) *)

Module DataInput.
Import JsString JsNumber.

(** [[,\s;]] *)
Definition is_delimiter (c : code_unit) : bool :=
  code_eqb c 44 || is_space c || code_eqb c 59.

(** [input.split(/[,\s;]+/)]: the pieces between the runs of delimiters, the
    empty pieces in front of a leading run and behind a trailing one
    included.  [piece] holds the current piece, last code unit first, and
    [in_run] tells whether the previous code unit was a delimiter. *)
Fixpoint split_run (piece : jsstring) (in_run : bool) (input : jsstring)
  : list jsstring :=
  match input with
  | [] => [rev piece]
  | c :: input' =>
      if is_delimiter c then
        if in_run then split_run [] true input'
        else rev piece :: split_run [] true input'
      else split_run (c :: piece) false input'
  end.

Definition split_delimiters (input : jsstring) : list jsstring :=
  split_run [] false input.

Section WithParseFloat.
(** The built-in [parseFloat]. *)
Variable parseFloat : jsstring -> number.

(** The body of the loop over the parts. *)
Definition push_number (values : list number) (part : jsstring) : list number :=
  let num := parseFloat (trim part) in
  if negb (isNaN num) && isFinite num then values ++ [num] else values.

Definition parseDataInput (input : jsstring) : list number :=
  let parts :=
    filter (fun s => Nat.ltb 0 (length (trim s))) (split_delimiters input) in
  fold_left push_number parts [].

End WithParseFloat.

End DataInput.

(** ** The calculator state ([useCalculator.ts]) *)

Module History.
Import JsString JsNumber.

Record HistoryEntry := {
  id : jsstring;
  expression : jsstring;
  result : jsstring;
  timestamp : number
}.

End History.

Module Calculator.
Import JsString JsNumber Completion Engine.
Local Open Scope completion_scope.

Inductive CalculatorMode := basic | scientific | statistics | graphing.

Record CalculatorState := {
  expression : jsstring;
  result : jsstring;
  previousResult : jsstring;
  angleUnit : AngleUnit;
  mode : CalculatorMode;
  isError : bool
}.

Definition INITIAL_STATE : CalculatorState :=
  {| expression := [];
     result := [];
     previousResult := js "0";
     angleUnit := rad;
     mode := scientific;
     isError := false |}.

Definition SPACE : code_unit := 32%N.

Definition SPACED_OPERATORS : list jsstring :=
  [js "+"; js "-"; [TIMES]; [DIVIDE]; js "*"; js "/"].

(** [array.includes(value)] for an array of strings; [value] may be
    [undefined]. *)
Definition Array_includes (array : list jsstring) (value : option jsstring) : bool :=
  match value with
  | Some v => existsb (fun item => jseqb item v) array
  | None => false
  end.

(** [s[s.length - 1]] *)
Definition last_char (s : jsstring) : option jsstring :=
  match rev s with
  | c :: _ => @Some jsstring [c]
  | [] => None
  end.

(** [s.trimEnd()] *)
Definition trimEnd (s : jsstring) : jsstring := rev (trim_start (rev s)).

(** [s.slice(0, -1)] *)
Definition drop_last (s : jsstring) : jsstring := removelast s.

(** [s.endsWith(' ')] *)
Definition endsWith_space (s : jsstring) : bool :=
  match rev s with
  | c :: _ => code_eqb c SPACE
  | [] => false
  end.

(** [/[\d.]/.test(char)] *)
Definition isDigitOrDecimal (char : jsstring) : bool :=
  existsb (fun c => is_digit c || code_eqb c DOT) char.

Definition endsWithOperator (expression : jsstring) : bool :=
  let trimmed := trim expression in
  let lastChar := last_char trimmed in
  Array_includes SPACED_OPERATORS lastChar.

(** [[+\-×÷*/()]] *)
Definition is_separator (c : code_unit) : bool :=
  code_eqb c 43 || code_eqb c 45 || code_eqb c TIMES || code_eqb c DIVIDE
  || code_eqb c 42 || code_eqb c 47 || code_eqb c LPAREN || code_eqb c RPAREN.

(** [s.split(/[+\-×÷*/()]/)]: the pieces between the separators, empty
    pieces included; [piece] is the current piece, last code unit first. *)
Fixpoint split_operands (piece : jsstring) (s : jsstring) : list jsstring :=
  match s with
  | [] => [rev piece]
  | c :: s' =>
      if is_separator c then rev piece :: split_operands [] s'
      else split_operands (c :: piece) s'
  end.

Definition lastNumberHasDecimal (expression : jsstring) : bool :=
  let parts := split_operands [] expression in
  let lastPart := last parts [] in
  includes lastPart (js ".").

Definition with_expression (prev : CalculatorState) (expression : jsstring)
  : CalculatorState :=
  {| expression := expression;
     result := [];
     previousResult := previousResult prev;
     angleUnit := angleUnit prev;
     mode := mode prev;
     isError := false |}.

(** The state update of [appendToExpression]. *)
Definition appendToExpression (value : jsstring) (prev : CalculatorState)
  : CalculatorState :=
  if isError prev
     && (isDigitOrDecimal value || jseqb value (js "(") || jseqb value [GREEK_PI]
         || jseqb value (js "e"))
  then with_expression prev value
  else if isError prev && Array_includes SPACED_OPERATORS (Some value)
  then with_expression prev (previousResult prev ++ js " " ++ value ++ js " ")
  else
    let newExpression := expression prev in
    if jseqb value (js ".") && lastNumberHasDecimal newExpression then prev
    else
      let newExpression :=
        if jseqb value (js ".")
           && (Nat.eqb (length newExpression) 0 || endsWithOperator newExpression)
        then newExpression ++ js "0" else newExpression in
      if Array_includes SPACED_OPERATORS (Some value) then
        if Nat.eqb (length (trim newExpression)) 0 && negb (jseqb value (js "-"))
        then prev
        else
          let newExpression :=
            if endsWithOperator newExpression then drop_last (trim newExpression)
            else newExpression in
          with_expression prev (trim newExpression ++ js " " ++ value ++ js " ")
      else with_expression prev (newExpression ++ value).

Definition clear (prev : CalculatorState) : CalculatorState := with_expression prev [].

Definition allClear (prev : CalculatorState) : CalculatorState := INITIAL_STATE.

Definition backspace (prev : CalculatorState) : CalculatorState :=
  if isError prev then with_expression prev []
  else
    let newExpression := expression prev in
    let newExpression :=
      if endsWith_space newExpression then
        let newExpression := trimEnd newExpression in
        if Array_includes SPACED_OPERATORS (last_char newExpression)
        then trimEnd (drop_last newExpression)
        else newExpression
      else drop_last newExpression in
    {| expression := newExpression;
       result := [];
       previousResult := previousResult prev;
       angleUnit := angleUnit prev;
       mode := mode prev;
       isError := isError prev |}.

Definition toggleAngleUnit (prev : CalculatorState) : CalculatorState :=
  {| expression := expression prev;
     result := result prev;
     previousResult := previousResult prev;
     angleUnit := match angleUnit prev with deg => rad | rad => deg end;
     mode := mode prev;
     isError := isError prev |}.

Definition setMode (mode' : CalculatorMode) (prev : CalculatorState) : CalculatorState :=
  {| expression := expression prev;
     result := result prev;
     previousResult := previousResult prev;
     angleUnit := angleUnit prev;
     mode := mode';
     isError := isError prev |}.

Definition setExpression (expression' : jsstring) (prev : CalculatorState)
  : CalculatorState :=
  with_expression prev expression'.

(** [state] is the state the callback was made for, [prev] the one the
    update is applied to. *)
Definition insertAns (state prev : CalculatorState) : CalculatorState :=
  appendToExpression (previousResult state) prev.

Definition insertFunction (funcName : jsstring) (prev : CalculatorState)
  : CalculatorState :=
  appendToExpression (funcName ++ js "(") prev.

Definition insertConstant (constant : jsstring) (prev : CalculatorState)
  : CalculatorState :=
  appendToExpression constant prev.

Section WithLibraries.
Variable B : builtins.
Variable M : mathjs.

(** The state update of [calculateResult] and the history entry it returns;
    [uuid] and [now] are what [crypto.randomUUID()] and [Date.now()] give. *)
Definition calculateResult (uuid : jsstring) (now : number) (prev : CalculatorState)
  : completion (CalculatorState * option History.HistoryEntry) :=
  match trim (expression prev) with
  | [] => Normal (prev, None)
  | _ :: _ =>
      let expression0 := expression prev in
      let unclosed := getUnclosedParentheses expression0 in
      let expression1 :=
        if (0 <? unclosed)%Z then expression0 ++ repeat RPAREN (Z.to_nat unclosed)
        else expression0 in
      calcResult <- evaluate B M expression1 (angleUnit prev) ;;
      match calcResult with
      | Success _ displayValue =>
          Normal ({| expression := expression1;
                     result := displayValue;
                     previousResult := displayValue;
                     angleUnit := angleUnit prev;
                     mode := mode prev;
                     isError := false |},
                  Some {| History.id := uuid;
                          History.expression := expression prev;
                          History.result := displayValue;
                          History.timestamp := now |})
      | Failure error =>
          Normal ({| expression := expression prev;
                     result := error;
                     previousResult := previousResult prev;
                     angleUnit := angleUnit prev;
                     mode := mode prev;
                     isError := true |},
                  None)
      end
  end.

End WithLibraries.

End Calculator.

(** ** The graph state ([useGraph.ts]) *)

Module GraphState.
Import JsString JsNumber JsMath Completion Engine Graphing.

Record GraphFunction := {
  id : jsstring;
  expression : jsstring;
  color : jsstring;
  visible : bool
}.

Definition GRAPH_COLORS : list jsstring := [js "#4a90d9"; js "#e53935"; js "#43a047"].

Definition MAX_FUNCTIONS : nat := 3.

Definition initial_functions : list GraphFunction :=
  [ {| id := js "1"; expression := []; color := nth 0 GRAPH_COLORS []; visible := true |} ].

Section WithLibraries.
Variable B : builtins.
(** [parseInt(s, 10)] *)
Variable parseInt : jsstring -> number.

(** The state update of [addFunction]; [Math.max(...ids, 0)] folds the
    binary maximum over the arguments. *)
Definition addFunction (expression' : jsstring) (prev : list GraphFunction)
  : list GraphFunction :=
  if Nat.leb MAX_FUNCTIONS (length prev) then prev
  else
    let newId :=
      Number_toString B
        (add (fold_right Math_max (of_Z 0) (map (fun f => parseInt (id f)) prev)) one) in
    let colorIndex := Nat.modulo (length prev) (length GRAPH_COLORS) in
    prev ++ [ {| id := newId;
                 expression := expression';
                 color := nth colorIndex GRAPH_COLORS [];
                 visible := true |} ].

End WithLibraries.

Definition updateFunction (id' expression' : jsstring) (prev : list GraphFunction)
  : list GraphFunction :=
  map (fun f =>
         if jseqb (id f) id'
         then {| id := id f; expression := expression'; color := color f;
                 visible := visible f |}
         else f) prev.

Definition removeFunction (id' : jsstring) (prev : list GraphFunction)
  : list GraphFunction :=
  if Nat.leb (length prev) 1 then
    map (fun f =>
           if jseqb (id f) id'
           then {| id := id f; expression := []; color := color f; visible := visible f |}
           else f) prev
  else filter (fun f => negb (jseqb (id f) id')) prev.

Definition toggleFunctionVisibility (id' : jsstring) (prev : list GraphFunction)
  : list GraphFunction :=
  map (fun f =>
         if jseqb (id f) id'
         then {| id := id f; expression := expression f; color := color f;
                 visible := negb (visible f) |}
         else f) prev.

End GraphState.

(** ** Notions used to state the properties of the parentheses checks *)

Module ParenthesesSpec.
Import JsString Engine.

(** Opening minus closing parentheses. *)
Fixpoint depth (s : jsstring) : Z :=
  match s with
  | [] => 0
  | c :: s' =>
      ((if code_eqb c LPAREN then 1 else 0) - (if code_eqb c RPAREN then 1 else 0)
       + depth s')%Z
  end.

(** No closing parenthesis comes before the opening one it closes. *)
Definition never_negative (s : jsstring) : Prop :=
  forall n, (0 <= depth (firstn n s))%Z.

(** The texts with well-nested parentheses. *)
Inductive balanced : jsstring -> Prop :=
| balanced_nil : balanced []
| balanced_char c s : c <> LPAREN -> c <> RPAREN -> balanced s -> balanced (c :: s)
| balanced_group s t : balanced s -> balanced t -> balanced (LPAREN :: s ++ RPAREN :: t).

(** [s] closes [k] parentheses that were opened before it, and is well
    nested otherwise. *)
Fixpoint closes (k : nat) (s : jsstring) : Prop :=
  match k with
  | O => balanced s
  | S k' => exists b t, s = b ++ RPAREN :: t /\ balanced b /\ closes k' t
  end.

(** One turn of the loop of [hasBalancedParentheses]; [None] once the
    function has returned [false]. *)
Definition balance_step (state : option Z) (char : code_unit) : option Z :=
  match state with
  | None => None
  | Some count =>
      let count := if code_eqb char LPAREN then (count + 1)%Z else count in
      let count := if code_eqb char RPAREN then (count - 1)%Z else count in
      if (count <? 0)%Z then None else Some count
  end.

(** [')'.repeat(n)] *)
Definition closing (n : Z) : jsstring := repeat RPAREN (Z.to_nat n).

End ParenthesesSpec.

(** ** Notions used to state the further properties of the normalizer *)

Module NormalizerSpec.
Import JsString Normalizer.

(** What the glyph step puts in place of the code unit [c] when [next]
    follows it. *)
Definition glyph (c : code_unit) (next : jsstring) : jsstring :=
  if code_eqb c TIMES then js "*"
  else if code_eqb c DIVIDE then js "/"
  else if code_eqb c GREEK_PI then js "pi"
  else if code_eqb c RADICAL && starts_with [LPAREN] next then js "sqrt"
  else [c].

Fixpoint expand_glyphs (s : jsstring) : jsstring :=
  match s with
  | [] => []
  | c :: next => glyph c next ++ expand_glyphs next
  end.

Definition is_glyph (c : code_unit) : bool :=
  code_eqb c TIMES || code_eqb c DIVIDE || code_eqb c GREEK_PI || code_eqb c RADICAL.

(** The text ends inside a number that a percent sign could still close: in
    a digit, or in a digit and a decimal point. *)
Definition open_number (pre : jsstring) : bool :=
  match rev pre with
  | c :: before =>
      is_digit c
      || (code_eqb c DOT && match before with d :: _ => is_digit d | [] => false end)
  | [] => false
  end.

(** A digit is followed, optionally through white space, by an opening
    parenthesis. *)
Definition digit_before_paren (s : jsstring) : Prop :=
  exists pre d ws post,
    s = pre ++ d :: ws ++ LPAREN :: post
    /\ is_digit d = true
    /\ Forall (fun w => is_space w = true) ws.

Fixpoint digit_before_parenb (s : jsstring) : bool :=
  match s with
  | [] => false
  | d :: rest =>
      (is_digit d && starts_with [LPAREN] (snd (span is_space rest)))
      || digit_before_parenb rest
  end.

(** Code units the normalizer has no rule for: no letter, none of the four
    glyphs, no percent sign. *)
Definition plain (c : code_unit) : bool :=
  negb (is_letter c || is_glyph c || code_eqb c PERCENT).

End NormalizerSpec.

(** ** A second stand-in for the library *)

Module AdapterSpec.
Import JsString JsNumber Completion Engine EngineSpec.

(** A second stand-in for the library: it answers as [example_mathjs] does,
    except that its combinatorial functions refuse arguments out of range. *)
Definition strict_mathjs : mathjs :=
  {| math_evaluate := math_evaluate example_mathjs;
     math_parse := math_parse example_mathjs;
     math_format := math_format example_mathjs;
     math_factorial := fun n =>
       if gtb n (of_Z 170) then Throw (new_Error (js "out of range")) else Normal one;
     math_permutations := fun n r =>
       if gtb r n then Throw (new_Error (js "out of range")) else Normal one;
     math_combinations := fun n r =>
       if gtb r n then Throw (new_Error (js "out of range")) else Normal one |}.

End AdapterSpec.

(** ** Notions used to state the properties of the graphs *)

Module GraphingSpec.
Import JsString JsNumber Completion Engine Graphing.

(** The value [evaluateFunction] gives at [x]. *)
Definition sampled (B : builtins) (M : mathjs) (expression : jsstring) (x : number)
  : option number :=
  match evaluateFunction B M expression x with
  | Normal y => y
  | Throw _ => None
  end.

End GraphingSpec.

Module DrawingSpec.
Import JsString JsNumber Completion Engine Graphing GraphingSpec Drawing.

Definition line_drawn : Type := point number * point number.

(** The straight lines between neighbouring samples that both exist. *)
Fixpoint joins (points : list (option (point number))) : list line_drawn :=
  match points with
  | Some p :: ((Some q :: _) as rest) => (p, q) :: joins rest
  | _ :: rest => joins rest
  | [] => []
  end.

(** The canvas, as far as lines go: the lines of the current path, the point
    the path has reached and the lines stroked so far. *)
Record canvas := {
  path : list line_drawn;
  reached : option (point number);
  inked : list line_drawn
}.

Definition blank_canvas : canvas := {| path := []; reached := None; inked := [] |}.

(** The effect of a call: [beginPath] empties the path, [moveTo] starts a
    subpath, [lineTo] adds the line from the point reached (and only moves
    there when no subpath was begun), [stroke] inks the lines of the path. *)
Definition call (c : canvas) (what : canvas_call) : canvas :=
  match what with
  | beginPath => {| path := []; reached := None; inked := inked c |}
  | moveTo x y =>
      {| path := path c; reached := Some {| Graphing.x := x; Graphing.y := y |};
         inked := inked c |}
  | lineTo x y =>
      let q := {| Graphing.x := x; Graphing.y := y |} in
      match reached c with
      | Some p => {| path := path c ++ [(p, q)]; reached := Some q; inked := inked c |}
      | None => {| path := path c; reached := Some q; inked := inked c |}
      end
  | stroke => {| path := path c; reached := reached c; inked := inked c ++ path c |}
  | _ => c
  end.

Definition stroked (calls : list canvas_call) : list line_drawn :=
  inked (fold_left call calls blank_canvas).

(** The sample at the [i]-th of [2 * width] steps through the viewport. *)
Definition sample_at (B : builtins) (M : mathjs) (expression : jsstring)
  (bounds : GraphBounds) (width height : number) (i : nat) : option (point number) :=
  let numPoints := mul width (of_Z 2) in
  let xStep := div (sub (xMax bounds) (xMin bounds)) numPoints in
  let graphX := add (xMin bounds) (mul (of_Z (Z.of_nat i)) xStep) in
  match sampled B M expression graphX with
  | Some graphY =>
      if geb graphY (sub (yMin bounds) (of_Z 100))
         && leb graphY (add (yMax bounds) (of_Z 100))
      then Some (graphToCanvas graphX graphY bounds width height)
      else None
  | None => None
  end.

End DrawingSpec.

Module GraphStateSpec.
Import JsString JsNumber Engine GraphState.

(** Decimal numerals of the natural numbers, written and read: a stand-in
    for [toString] and [parseInt] on identifiers. *)
Definition numeral (n : number) : jsstring :=
  js (NilEmpty.string_of_uint (N.to_uint (Z.to_N (to_Z n)))).

Definition read_numeral (s : jsstring) : number :=
  match NilEmpty.uint_of_string (string_of_list_ascii (map ascii_of_N s)) with
  | Some d => of_Z (Z.of_N (N.of_uint d))
  | None => NaN
  end.

Definition numeral_builtins : builtins :=
  {| toExponential := fun _ _ => js "0e+0";
     toPrecision := fun _ _ => js "0";
     Number_toString := numeral;
     Number_of_string := read_numeral |}.

End GraphStateSpec.

(** ** Notions used to state the further properties of the statistics *)

Module DescriptiveSpec.
Import JsNumber Statistics.
Local Open Scope R_scope.

(** The sum of a list of reals. *)
Definition total (xs : list R) : R := fold_right Rplus 0 xs.

(** The arithmetic mean of a non-empty list of reals. *)
Definition average (xs : list R) : R := total xs / INR (length xs).

End DescriptiveSpec.

Module InverseNormalSpec.
Import JsNumber.










End InverseNormalSpec.

Module DataInputSpec.
Import JsString JsNumber DataInput.

(** The maximal stretches of the input without a delimiter, from left to
    right; [piece] is the stretch being read, last code unit first. *)
Fixpoint tokens_from (piece : jsstring) (input : jsstring) : list jsstring :=
  match input with
  | [] => match piece with [] => [] | _ => [rev piece] end
  | c :: input' =>
      if is_delimiter c then
        match piece with
        | [] => tokens_from [] input'
        | _ => rev piece :: tokens_from [] input'
        end
      else tokens_from (c :: piece) input'
  end.

Definition tokens (input : jsstring) : list jsstring := tokens_from [] input.

End DataInputSpec.

(** ** Notions used to state the properties of the calculator state *)

Module CalculatorSpec.
Import JsString Calculator.

(** What an operator is appended to: the expression without surrounding
    white space and without the operator it ends in, if it ends in one. *)
Definition operand (expression : jsstring) : jsstring :=
  trim (if endsWithOperator expression then drop_last (trim expression) else expression).

(** The text does not start, respectively end, in white space. *)
Definition starts_solid (s : jsstring) : Prop :=
  match s with c :: _ => is_space c = false | [] => True end.

Definition ends_solid (s : jsstring) : Prop := starts_solid (rev s).

End CalculatorSpec.

(** ** Notions used to state the properties of the combinatorial functions *)

Module CombinatoricsSpec.
Import Binary64.
Local Open Scope Z_scope.

(** [n!] *)
Fixpoint factZ (n : nat) : Z :=
  match n with
  | O => 1
  | S m => Z.of_nat n * factZ m
  end.

(** [n (n - 1) ... (n - r + 1)] *)
Fixpoint fallingZ (n : Z) (r : nat) : Z :=
  match r with
  | O => 1
  | S j => fallingZ n j * (n - Z.of_nat j)
  end.


(** The product [1 * 2 * ... * k], every multiplication rounded. *)
Fixpoint rounded_product (k : nat) : number :=
  match k with
  | O => one
  | S j => mul (rounded_product j) (of_Z (Z.of_nat k))
  end.

(** The product [n * (n - 1) * ... * (n - j + 1)], every multiplication
    rounded. *)
Fixpoint rounded_falling (n : Z) (j : nat) : number :=
  match j with
  | O => one
  | S i => mul (rounded_falling n i) (of_Z (n - Z.of_nat i))
  end.


End CombinatoricsSpec.

(** Checks that are decided by computation. *)

Module CombinatoricsChecks.
Import Binary64 CombinatoricsSpec.
Local Open Scope Z_scope.

(** [v] is an integer [F] as close to [P] as stated:
    [|F - P| <= P / 2 ^ bits], and [F = P] where [P < bound]. *)
Definition close_to (bits bound : Z) (P : Z) (v : number) : bool :=
  match integer_value v with
  | Some F => (Z.abs (F - P) * 2 ^ bits <=? P) && ((bound <=? P) || (F =? P))
  | None => false
  end.

(** The same, or [v] is [Infinity] and [P] is [2 ^ 1023] or more. *)
Definition close_or_overflown (bits bound : Z) (P : Z) (v : number) : bool :=
  match v with
  | SpecFloat.S754_infinity false => 2 ^ 1023 <=? P
  | _ => close_to bits bound P v
  end.

(** [close_to 50 23! k! (rounded_product k)] for [k, ..., k + count - 1], given
    the product [acc] and the factorial [f] of [k]. *)
Fixpoint products_close (count k : nat) (acc : number) (f : Z) : bool :=
  match count with
  | O => true
  | S c =>
      close_to 50 (factZ 23) f acc
      && products_close c (S k) (mul acc (of_Z (Z.of_nat (S k)))) (Z.of_nat (S k) * f)
  end.

(** [close_or_overflown 49 (2 ^ 53)] of the falling products of [n], from the [j]-th
    on, given the product [acc] and its exact value [P]. *)
Fixpoint fallings_close (n : Z) (count j : nat) (acc : number) (P : Z) : bool :=
  match count with
  | O => true
  | S c =>
      close_or_overflown 49 (2 ^ 53) P acc
      && fallings_close n c (S j) (mul acc (of_Z (n - Z.of_nat j))) (P * (n - Z.of_nat j))
  end.



End CombinatoricsChecks.

(** * Properties *)

(** ** Strings *)

Module JsStringFacts.
Import JsString.

Lemma code_eqb_eq (a b : code_unit) : code_eqb a b = true <-> a = b.
Proof. apply N.eqb_eq. Qed.

Lemma code_eqb_refl (a : code_unit) : code_eqb a a = true.
Proof. apply N.eqb_refl. Qed.

Lemma code_eqb_neq (a b : code_unit) : code_eqb a b = false <-> a <> b.
Proof. apply N.eqb_neq. Qed.

Lemma jseqb_eq (a b : jsstring) : jseqb a b = true <-> a = b.
Proof.
  revert b; induction a as [|x a IH]; intros [|y b]; simpl; split;
    try congruence; try reflexivity.
  - intros H. apply andb_true_iff in H as [H1 H2].
    apply code_eqb_eq in H1. apply IH in H2. congruence.
  - intros H. injection H as -> ->. rewrite code_eqb_refl. now apply IH.
Qed.

Lemma jseqb_refl (a : jsstring) : jseqb a a = true.
Proof. now apply jseqb_eq. Qed.

Lemma starts_with_app (pat rest : jsstring) : starts_with pat (pat ++ rest) = true.
Proof. induction pat as [|p pat IH]; simpl; [reflexivity|]. now rewrite code_eqb_refl. Qed.

Lemma starts_with_prefix (pat s : jsstring) :
  starts_with pat s = true <-> exists rest, s = pat ++ rest.
Proof.
  revert s; induction pat as [|p pat IH]; intros s; simpl.
  - split; [intros _; now exists s | reflexivity].
  - destruct s as [|c s].
    + split; [discriminate | intros [r Hr]; discriminate].
    + split.
      * intros H. apply andb_true_iff in H as [H1 H2].
        apply code_eqb_eq in H1. apply IH in H2 as [r ->]. subst. now exists r.
      * intros [r Hr]. injection Hr as -> ->. rewrite code_eqb_refl. simpl.
        apply IH. now exists r.
Qed.

(** [includes] is the substring relation. *)
Lemma includes_spec (s pat : jsstring) :
  includes s pat = true <-> exists pre post, s = pre ++ pat ++ post.
Proof.
  induction s as [|c s IH]; simpl.
  - rewrite orb_false_r. rewrite starts_with_prefix. split.
    + intros [r Hr]. now exists [], r.
    + intros [pre [post H]]. destruct pre; [|discriminate]. now exists post.
  - rewrite orb_true_iff, IH, starts_with_prefix. split.
    + intros [[r Hr] | [pre [post H]]].
      * now exists [], r.
      * exists (c :: pre), post. simpl. now rewrite H.
    + intros [pre [post H]]. destruct pre as [|x pre].
      * left. now exists post.
      * right. injection H as -> ->. now exists pre, post.
Qed.

Lemma replace_from_skip (m : matcher) (x before rest : jsstring) :
  replace_from m before (length x) (x ++ rest) = replace_from m (rev x ++ before) 0 rest.
Proof.
  revert before; induction x as [|c x IH]; intros before; simpl; [reflexivity|].
  rewrite IH. now rewrite <- app_assoc.
Qed.

(** Two matchers that agree at every position replace alike. *)
Lemma replace_from_ext (m m' : matcher) :
  (forall before rest, m before rest = m' before rest) ->
  forall rest before skip, replace_from m before skip rest = replace_from m' before skip rest.
Proof.
  intros Hm rest; induction rest as [|c rest IH]; intros before skip; simpl; [reflexivity|].
  destruct skip; [|apply IH]. rewrite Hm.
  destruct (m' before (c :: rest)) as [[len r]|]; now rewrite IH.
Qed.

End JsStringFacts.

(** ** Numbers *)

Module JsNumberFacts.
Import JsNumber.
Local Open Scope R_scope.

Lemma Reqb_false (x y : R) : x <> y -> Reqb x y = false.
Proof. intros H. unfold Reqb. now destruct (Req_dec_T x y). Qed.

Lemma Reqb_true (x : R) : Reqb x x = true.
Proof. unfold Reqb. now destruct (Req_dec_T x x). Qed.

Lemma Rleb_true (x y : R) : x <= y -> Rleb x y = true.
Proof. intros H. unfold Rleb. now destruct (Rle_dec x y). Qed.

Lemma Rleb_false (x y : R) : y < x -> Rleb x y = false.
Proof. intros H. unfold Rleb. destruct (Rle_dec x y); [lra | reflexivity]. Qed.

Lemma Rltb_true (x y : R) : x < y -> Rltb x y = true.
Proof. intros H. unfold Rltb. now destruct (Rlt_dec x y). Qed.

Lemma Rltb_false (x y : R) : y <= x -> Rltb x y = false.
Proof. intros H. unfold Rltb. destruct (Rlt_dec x y); [lra | reflexivity]. Qed.

Lemma Reqb_eq (x y : R) : Reqb x y = true <-> x = y.
Proof. unfold Reqb. destruct (Req_dec_T x y); split; congruence. Qed.

Lemma Rltb_lt (x y : R) : Rltb x y = true <-> x < y.
Proof. unfold Rltb. destruct (Rlt_dec x y); split; intros; try discriminate; tauto. Qed.

Lemma Rleb_le (x y : R) : Rleb x y = true <-> x <= y.
Proof. unfold Rleb. destruct (Rle_dec x y); split; intros; try discriminate; tauto. Qed.

Lemma Rltb_of_Z (a b : Z) : Rltb (IZR a) (IZR b) = (a <? b)%Z.
Proof.
  destruct (Z.ltb_spec a b) as [H|H].
  - apply Rltb_lt. now apply IZR_lt.
  - destruct (Rltb (IZR a) (IZR b)) eqn:E; [|reflexivity].
    apply Rltb_lt, lt_IZR in E. lia.
Qed.

Lemma Reqb_of_Z (a b : Z) : Reqb (IZR a) (IZR b) = (a =? b)%Z.
Proof.
  destruct (Z.eqb_spec a b) as [->|H].
  - now apply Reqb_eq.
  - destruct (Reqb (IZR a) (IZR b)) eqn:E; [|reflexivity].
    apply Reqb_eq, eq_IZR in E. contradiction.
Qed.

Lemma ltb_of_Z (a b : Z) : ltb (of_Z a) (of_Z b) = (a <? b)%Z.
Proof. apply Rltb_of_Z. Qed.

Lemma gtb_of_Z (a b : Z) : gtb (of_Z a) (of_Z b) = (b <? a)%Z.
Proof. apply Rltb_of_Z. Qed.

Lemma strict_eqb_of_Z (a b : Z) : strict_eqb (of_Z a) (of_Z b) = (a =? b)%Z.
Proof. apply Reqb_of_Z. Qed.

Lemma isInteger_of_Z (a : Z) : isInteger (of_Z a) = true.
Proof. unfold isInteger, of_Z. rewrite ZfloorZ. now apply Reqb_eq. Qed.

Lemma to_Z_of_Z (a : Z) : to_Z (of_Z a) = a.
Proof. apply ZfloorZ. Qed.

Lemma sub_of_Z (a b : Z) : sub (of_Z a) (of_Z b) = of_Z (a - b).
Proof. unfold sub, add, neg, of_Z. now rewrite minus_IZR. Qed.

Lemma add_of_Z (a b : Z) : add (of_Z a) (of_Z b) = of_Z (a + b).
Proof. unfold add, of_Z. now rewrite plus_IZR. Qed.

Lemma mul_of_Z (a b : Z) : mul (of_Z a) (of_Z b) = of_Z (a * b).
Proof. unfold mul, of_Z. now rewrite mult_IZR. Qed.

(** A division that leaves no remainder. *)
Lemma div_of_Z (a b : Z) :
  b <> 0%Z -> (a mod b = 0)%Z -> div (of_Z a) (of_Z b) = of_Z (a / b).
Proof.
  intros Hb Hm. unfold div, of_Z.
  replace (Reqb (IZR b) 0) with false
    by (symmetry; change 0 with (IZR 0); rewrite Reqb_of_Z; now apply Z.eqb_neq).
  f_equal. rewrite (Z.div_mod a b Hb) at 1. rewrite Hm, Z.add_0_r, mult_IZR.
  field. now apply not_0_IZR.
Qed.

(** Any division by a non-zero integer. *)
Lemma div_of_Z_ratio (a b : Z) :
  b <> 0%Z -> div (of_Z a) (of_Z b) = Fin (IZR a / IZR b).
Proof.
  intros Hb. unfold div, of_Z.
  now replace (Reqb (IZR b) 0) with false
    by (symmetry; change 0 with (IZR 0); rewrite Reqb_of_Z; now apply Z.eqb_neq).
Qed.

Lemma of_nat_of_Z (n : nat) : of_nat n = of_Z (Z.of_nat n).
Proof. unfold of_nat, of_Z. now rewrite INR_IZR_INZ. Qed.

(** The comparison function of the sorts, at integers. *)
Lemma gtb_sub_of_Z (a b : Z) : gtb (sub (of_Z a) (of_Z b)) zero = (b <? a)%Z.
Proof.
  rewrite sub_of_Z. change zero with (of_Z 0). rewrite gtb_of_Z.
  destruct (Z.ltb_spec 0 (a - b)), (Z.ltb_spec b a); try reflexivity; lia.
Qed.

Lemma Math_sqrt_zero : Math_sqrt zero = zero.
Proof.
  unfold Math_sqrt, zero. unfold Rltb. destruct (Rlt_dec 0 0); [lra|].
  now rewrite sqrt_0.
Qed.

Lemma of_nat_zero (n : nat) : of_nat n = zero <-> n = 0%nat.
Proof.
  unfold of_nat, zero. split.
  - intros H. injection H as H. destruct n; [reflexivity|].
    exfalso. revert H. apply not_0_INR. discriminate.
  - now intros ->.
Qed.

End JsNumberFacts.

(** ** The logarithm step *)

Module LogarithmFacts.
Import JsString Normalizer RewriteModel JsStringFacts.

Lemma paren_free_cons c u : paren_free (c :: u) <-> c <> LPAREN /\ paren_free u.
Proof. unfold paren_free; simpl; intuition congruence. Qed.

Lemma paren_free_app u v : paren_free (u ++ v) <-> paren_free u /\ paren_free v.
Proof. unfold paren_free. rewrite in_app_iff. tauto. Qed.

Lemma paren_free_nil : paren_free [].
Proof. intros []. Qed.

(** Up to the first opening parenthesis a pattern that ends in its only
    parenthesis matches iff the text before the parenthesis is its body. *)
Lemma starts_with_paren (b u rest : jsstring) :
  paren_free b -> paren_free u ->
  starts_with (b ++ [LPAREN]) (u ++ LPAREN :: rest) = jseqb b u.
Proof.
  revert u; induction b as [|p b IH]; intros [|c u] Hb Hu; simpl.
  - reflexivity.
  - apply paren_free_cons in Hu as [Hc _].
    replace (code_eqb LPAREN c) with false; [reflexivity|].
    symmetry. apply code_eqb_neq. congruence.
  - apply paren_free_cons in Hb as [Hp _].
    replace (code_eqb p LPAREN) with false; [reflexivity|].
    symmetry. now apply code_eqb_neq.
  - apply paren_free_cons in Hb as [_ Hb]. apply paren_free_cons in Hu as [_ Hu].
    now rewrite IH.
Qed.

Lemma starts_with_needs_paren (b w : jsstring) :
  paren_free w -> starts_with (b ++ [LPAREN]) w = false.
Proof.
  intros Hw. destruct (starts_with (b ++ [LPAREN]) w) eqn:E; [|reflexivity].
  apply starts_with_prefix in E as [r ->]. exfalso. apply Hw.
  rewrite <- app_assoc. apply in_or_app. right. now left.
Qed.

Section OneRule.
Variable r : rule.
Hypothesis Hr : well_formed r.

Lemma matcher_word_at before before' rest :
  word_at before = word_at before' -> rule_matcher r before rest = rule_matcher r before' rest.
Proof. intros H. unfold rule_matcher, guard. now rewrite H. Qed.

(** A rule looks at the text before a position only through [\b]. *)
Lemma replace_from_word_at rest : forall before before' skip,
  word_at before = word_at before' ->
  replace_from (rule_matcher r) before skip rest = replace_from (rule_matcher r) before' skip rest.
Proof.
  induction rest as [|c rest IH]; intros before before' skip H; simpl; [reflexivity|].
  destruct skip; [|now apply IH].
  rewrite (matcher_word_at before before' _ H).
  destruct (rule_matcher r before' (c :: rest)) as [[len x]|]; f_equal; now apply IH.
Qed.

Lemma no_match_at_paren before rest : rule_matcher r before (LPAREN :: rest) = None.
Proof.
  destruct Hr as (Hb & _ & Hne). unfold rule_matcher.
  destruct (body r) as [|p b]; [congruence|]. simpl.
  apply paren_free_cons in Hb as [Hp _].
  replace (code_eqb p LPAREN) with false; [reflexivity|].
  symmetry. now apply code_eqb_neq.
Qed.

(** Matches never straddle an opening parenthesis: the text up to the first
    parenthesis is rewritten on its own and the scan starts afresh after it. *)
Lemma replace_segment (u : jsstring) : forall before rest,
  paren_free u ->
  replace_from (rule_matcher r) before 0 (u ++ LPAREN :: rest)
  = segment r before u ++ LPAREN :: replace_from (rule_matcher r) [LPAREN] 0 rest.
Proof.
  induction u as [|c u IH]; intros before rest Hu.
  - simpl. rewrite no_match_at_paren. f_equal. now apply replace_from_word_at.
  - change ((c :: u) ++ LPAREN :: rest) with (c :: (u ++ LPAREN :: rest)).
    cbn [replace_from segment].
    unfold rule_matcher at 1.
    change (c :: u ++ LPAREN :: rest) with ((c :: u) ++ LPAREN :: rest).
    rewrite (starts_with_paren (body r) (c :: u) rest (proj1 Hr) Hu).
    destruct (jseqb (body r) (c :: u) && guard r before) eqn:E.
    + apply andb_true_iff in E as [E _]. apply jseqb_eq in E.
      rewrite E. cbn [length pred].
      replace (u ++ LPAREN :: rest) with ((u ++ [LPAREN]) ++ rest)
        by (now rewrite <- app_assoc).
      replace (S (length u)) with (length (u ++ [LPAREN]))
        by (rewrite length_app; simpl; lia).
      rewrite replace_from_skip. rewrite <- app_assoc. simpl.
      do 2 f_equal. apply replace_from_word_at.
      rewrite rev_app_distr. reflexivity.
    + simpl. f_equal. apply IH. now apply paren_free_cons in Hu.
Qed.

Lemma replace_paren_free (w : jsstring) : forall before,
  paren_free w -> replace_from (rule_matcher r) before 0 w = w.
Proof.
  induction w as [|c w IH]; intros before Hw; [reflexivity|].
  cbn [replace_from]. unfold rule_matcher at 1.
  rewrite (starts_with_needs_paren _ _ Hw). simpl. f_equal.
  apply IH. now apply paren_free_cons in Hw.
Qed.

Lemma segment_paren_free (u : jsstring) : forall before,
  paren_free u -> paren_free (segment r before u).
Proof.
  induction u as [|c u IH]; intros before Hu; simpl; [exact paren_free_nil|].
  destruct (_ && _).
  - apply Hr.
  - apply paren_free_cons in Hu as [Hc Hu]. apply paren_free_cons. auto.
Qed.

(** The segment is left alone when none of its suffixes is a match. *)
Lemma segment_unchanged (w : jsstring) : forall before,
  (forall v, w = v ++ body r -> guard r (rev v ++ before) = false) ->
  segment r before w = w.
Proof.
  induction w as [|c w IH]; intros before H; [reflexivity|].
  cbn [segment].
  destruct (jseqb (body r) (c :: w)) eqn:E.
  - apply jseqb_eq in E. pose proof (H [] (eq_sym E)) as H0. simpl in H0.
    rewrite H0. simpl. f_equal.
    apply IH. intros v Hv. specialize (H (c :: v)). simpl in H.
    rewrite <- app_assoc in H. apply H. now rewrite Hv.
  - simpl. f_equal. apply IH. intros v Hv. specialize (H (c :: v)). simpl in H.
    rewrite <- app_assoc in H. apply H. now rewrite Hv.
Qed.

Lemma segment_match (v : jsstring) : forall before,
  guard r (rev v ++ before) = true ->
  segment r before (v ++ body r) = v ++ rbody r.
Proof.
  induction v as [|c v IH]; intros before H.
  - simpl in *. destruct Hr as (_ & _ & Hne).
    destruct (body r) as [|p b] eqn:Eb; [congruence|].
    cbn [segment]. rewrite <- Eb, jseqb_refl, H. reflexivity.
  - cbn [app segment].
    destruct (jseqb (body r) (c :: v ++ body r)) eqn:E.
    + apply jseqb_eq in E. apply (f_equal (@length _)) in E.
      simpl in E. rewrite length_app in E. lia.
    + simpl. f_equal. apply IH. simpl in H. now rewrite <- app_assoc in H.
Qed.

Lemma segment_guarded (v : jsstring) before :
  guard r (rev v ++ before) = false ->
  segment r before (v ++ body r) = v ++ body r.
Proof.
  intros H. apply segment_unchanged. intros v' Hv'.
  apply app_inv_tail in Hv'. now subst.
Qed.

End OneRule.

Lemma clash_app (a b p q : jsstring) : clash a b = true -> a ++ p = b ++ q -> False.
Proof.
  revert b; induction a as [|x a IH]; intros [|y b] Hc E; simpl in *; try discriminate.
  injection E as -> E. rewrite code_eqb_refl in Hc. eauto.
Qed.

Lemma segment_clash (r : rule) (v x before : jsstring) :
  clash (rev (body r)) (rev x) = true ->
  segment r before (v ++ x) = v ++ x.
Proof.
  intros Hc. apply segment_unchanged. intros v' E. exfalso.
  apply (f_equal (@rev _)) in E. rewrite !rev_app_distr in E.
  symmetry in E. exact (clash_app _ _ _ _ Hc E).
Qed.

(** The expressions of the source are rules. *)
Lemma word_literal_rule (p : code_unit) (b rb before rest : jsstring) :
  is_word p = true ->
  word_literal ((p :: b) ++ [LPAREN]) (rb ++ [LPAREN]) before rest
  = rule_matcher {| at_boundary := true; body := p :: b; rbody := rb |} before rest.
Proof.
  intros Hp. unfold word_literal, rule_matcher, guard. cbn [at_boundary body rbody negb orb].
  destruct (starts_with ((p :: b) ++ [LPAREN]) rest) eqn:E; [|reflexivity].
  destruct rest as [|c rest]; [discriminate|].
  cbn [app starts_with] in E. apply andb_true_iff in E as [E _].
  apply code_eqb_eq in E. subst c.
  unfold boundary. cbn [word_at]. rewrite Hp, xorb_true_r. cbn [andb].
  rewrite length_app. cbn [length]. now rewrite Nat.add_1_r.
Qed.

Lemma literal_rule (b rb before rest : jsstring) :
  literal (b ++ [LPAREN]) (rb ++ [LPAREN]) before rest
  = rule_matcher {| at_boundary := false; body := b; rbody := rb |} before rest.
Proof.
  unfold literal, rule_matcher, guard. cbn [at_boundary body rbody negb orb].
  rewrite andb_true_r, length_app. cbn [length]. now rewrite Nat.add_1_r.
Qed.

Lemma rewrite_logarithms_pipeline (s : jsstring) :
  rewrite_logarithms s = pipeline log_rules [] s.
Proof.
  unfold rewrite_logarithms, pipeline, log_rules, replace_all. cbn [fold_left].
  rewrite (replace_from_ext _ (rule_matcher r_ln)
             (fun b r => word_literal_rule 108%N (js "n") (js "__NATLOG__") b r eq_refl)).
  rewrite (replace_from_ext _ (rule_matcher r_log10)
             (fun b r => word_literal_rule 108%N (js "og10") (js "__LOG10__") b r eq_refl)).
  rewrite (replace_from_ext _ (rule_matcher r_log2)
             (fun b r => word_literal_rule 108%N (js "og2") (js "__LOG2__") b r eq_refl)).
  rewrite (replace_from_ext _ (rule_matcher r_log)
             (fun b r => word_literal_rule 108%N (js "og") (js "log10") b r eq_refl)).
  rewrite (replace_from_ext _ (rule_matcher r_NATLOG)
             (literal_rule (js "__NATLOG__") (js "log"))).
  rewrite (replace_from_ext _ (rule_matcher r_LOG10)
             (literal_rule (js "__LOG10__") (js "log10"))).
  rewrite (replace_from_ext _ (rule_matcher r_LOG2)
             (literal_rule (js "__LOG2__") (js "log2"))).
  reflexivity.
Qed.

Lemma paren_free_js_check (u : jsstring) :
  forallb (fun c => negb (code_eqb c LPAREN)) u = true -> paren_free u.
Proof.
  intros H Hin. rewrite forallb_forall in H. specialize (H _ Hin).
  now rewrite code_eqb_refl in H.
Qed.

Ltac wf_rule :=
  split; [|split]; try (apply paren_free_js_check; reflexivity); discriminate.

Lemma log_rules_well_formed : Forall well_formed log_rules.
Proof. unfold log_rules. repeat (apply Forall_cons; [wf_rule|]). apply Forall_nil. Qed.

Lemma segments_paren_free (rules : list rule) :
  Forall well_formed rules ->
  forall ctx u, paren_free u -> paren_free (segments rules ctx u).
Proof.
  unfold segments. induction 1 as [|r rs Hr _ IH]; intros ctx u Hu; [exact Hu|].
  cbn [fold_left]. apply IH. now apply segment_paren_free.
Qed.

Lemma pipeline_segment (rules : list rule) :
  Forall well_formed rules ->
  forall ctx u rest,
    paren_free u ->
    pipeline rules ctx (u ++ LPAREN :: rest)
    = segments rules ctx u ++ LPAREN :: pipeline rules [LPAREN] rest.
Proof.
  unfold pipeline, segments.
  induction 1 as [|r rs Hr _ IH]; intros ctx u rest Hu; [reflexivity|].
  cbn [fold_left]. rewrite (replace_segment r Hr u ctx rest Hu).
  apply IH. now apply segment_paren_free.
Qed.

Lemma pipeline_word_at (rules : list rule) :
  forall ctx ctx' s,
    word_at ctx = word_at ctx' -> pipeline rules ctx s = pipeline rules ctx' s.
Proof.
  unfold pipeline.
  induction rules as [|r rs IH]; intros ctx ctx' s H; [reflexivity|].
  cbn [fold_left]. rewrite (replace_from_word_at r s ctx ctx' 0 H).
  now apply IH.
Qed.

Lemma pipeline_paren_free (rules : list rule) :
  Forall well_formed rules ->
  forall ctx w, paren_free w -> pipeline rules ctx w = w.
Proof.
  unfold pipeline.
  induction 1 as [|r rs Hr _ IH]; intros ctx w Hw; [reflexivity|].
  cbn [fold_left]. rewrite (replace_paren_free r w ctx Hw). now apply IH.
Qed.

Lemma split_first_paren (s : jsstring) :
  paren_free s \/ exists u rest, s = u ++ LPAREN :: rest /\ paren_free u.
Proof.
  induction s as [|c s IH].
  - left. exact paren_free_nil.
  - destruct (N.eq_dec c LPAREN) as [->|Hc].
    + right. exists [], s. split; [reflexivity | exact paren_free_nil].
    + destruct IH as [Hs | (u & rest & -> & Hu)].
      * left. now apply paren_free_cons.
      * right. exists (c :: u), rest. split; [reflexivity|]. now apply paren_free_cons.
Qed.

Lemma word_at_after_paren (a z z' : jsstring) :
  word_at (a ++ LPAREN :: z) = word_at (a ++ LPAREN :: z').
Proof. now destruct a. Qed.

(** An occurrence of a name, rewritten as its segment prescribes, splits the
    rewriting of the whole text into that of the text before it and that of
    the text after it.  [P] is the condition on the position: whether it is a
    word boundary. *)
Lemma pipeline_occurrence (P : bool -> Prop) (x y : jsstring) :
  paren_free x ->
  (forall v ctx, paren_free v -> P (word_at (rev v ++ ctx)) ->
     segments log_rules ctx (v ++ x) = v ++ y) ->
  forall pre ctx post,
    P (word_at (rev pre ++ ctx)) ->
    pipeline log_rules ctx (pre ++ x ++ LPAREN :: post)
    = pipeline log_rules ctx pre ++ y ++ LPAREN :: pipeline log_rules [] post.
Proof.
  intros Hx Hseg pre.
  induction pre as [pre IH] using (induction_ltof1 _ (@length code_unit)).
  unfold ltof in IH.
  intros ctx post HP.
  destruct (split_first_paren pre) as [Hpre | (u & rest & -> & Hu)].
  - rewrite app_assoc.
    rewrite (pipeline_segment _ log_rules_well_formed ctx (pre ++ x) post)
      by (apply paren_free_app; auto).
    rewrite (Hseg pre ctx Hpre HP).
    rewrite (pipeline_paren_free _ log_rules_well_formed ctx pre Hpre).
    rewrite <- app_assoc. do 3 f_equal.
    now apply pipeline_word_at.
  - rewrite <- app_assoc. cbn [app].
    rewrite !(pipeline_segment _ log_rules_well_formed ctx u _ Hu).
    rewrite <- app_assoc. cbn [app]. do 2 f_equal.
    apply IH.
    + rewrite length_app. simpl. lia.
    + rewrite rev_app_distr in HP. cbn [rev] in HP. rewrite <- !app_assoc in HP.
      cbn [app] in HP.
      now rewrite (word_at_after_paren (rev rest) _ []) in HP.
Qed.

Lemma segment_rewrites (r : rule) (v x y before : jsstring) :
  well_formed r -> x = body r -> y = rbody r ->
  guard r (rev v ++ before) = true ->
  segment r before (v ++ x) = v ++ y.
Proof. intros Hr -> ->. now apply segment_match. Qed.

Lemma segment_not_at_boundary (r : rule) (v x before : jsstring) :
  x = body r -> guard r (rev v ++ before) = false ->
  segment r before (v ++ x) = v ++ x.
Proof. intros ->. now apply segment_guarded. Qed.

Ltac keep_segment r x := rewrite (segment_clash r _ x) by reflexivity.
Ltac rewrite_segment r x y :=
  rewrite (segment_rewrites r _ x y _ ltac:(wf_rule) eq_refl eq_refl).
Ltac guarded_segment r x :=
  rewrite (segment_not_at_boundary r _ x _ eq_refl).

Lemma segments_ln (v ctx : jsstring) :
  word_at (rev v ++ ctx) = false ->
  segments log_rules ctx (v ++ js "ln") = v ++ js "log".
Proof.
  intros H. unfold segments, log_rules. cbn [fold_left].
  rewrite_segment r_ln (js "ln") (js "__NATLOG__"); [|unfold guard; now rewrite H].
  keep_segment r_log10 (js "__NATLOG__"). keep_segment r_log2 (js "__NATLOG__").
  keep_segment r_log (js "__NATLOG__").
  rewrite_segment r_NATLOG (js "__NATLOG__") (js "log"); [|reflexivity].
  keep_segment r_LOG10 (js "log"). keep_segment r_LOG2 (js "log").
  reflexivity.
Qed.

Lemma segments_log (v ctx : jsstring) :
  word_at (rev v ++ ctx) = false ->
  segments log_rules ctx (v ++ js "log") = v ++ js "log10".
Proof.
  intros H. unfold segments, log_rules. cbn [fold_left].
  keep_segment r_ln (js "log"). keep_segment r_log10 (js "log").
  keep_segment r_log2 (js "log").
  rewrite_segment r_log (js "log") (js "log10"); [|unfold guard; now rewrite H].
  keep_segment r_NATLOG (js "log10"). keep_segment r_LOG10 (js "log10").
  keep_segment r_LOG2 (js "log10").
  reflexivity.
Qed.

Lemma segments_log10 (v ctx : jsstring) :
  segments log_rules ctx (v ++ js "log10") = v ++ js "log10".
Proof.
  unfold segments, log_rules. cbn [fold_left].
  keep_segment r_ln (js "log10").
  destruct (word_at (rev v ++ ctx)) eqn:H.
  - guarded_segment r_log10 (js "log10"); [|unfold guard; now rewrite H].
    keep_segment r_log2 (js "log10"). keep_segment r_log (js "log10").
    keep_segment r_NATLOG (js "log10"). keep_segment r_LOG10 (js "log10").
    keep_segment r_LOG2 (js "log10").
    reflexivity.
  - rewrite_segment r_log10 (js "log10") (js "__LOG10__"); [|unfold guard; now rewrite H].
    keep_segment r_log2 (js "__LOG10__"). keep_segment r_log (js "__LOG10__").
    keep_segment r_NATLOG (js "__LOG10__").
    rewrite_segment r_LOG10 (js "__LOG10__") (js "log10"); [|reflexivity].
    keep_segment r_LOG2 (js "log10").
    reflexivity.
Qed.

Lemma segments_log2 (v ctx : jsstring) :
  segments log_rules ctx (v ++ js "log2") = v ++ js "log2".
Proof.
  unfold segments, log_rules. cbn [fold_left].
  keep_segment r_ln (js "log2"). keep_segment r_log10 (js "log2").
  destruct (word_at (rev v ++ ctx)) eqn:H.
  - guarded_segment r_log2 (js "log2"); [|unfold guard; now rewrite H].
    keep_segment r_log (js "log2").
    keep_segment r_NATLOG (js "log2"). keep_segment r_LOG10 (js "log2").
    keep_segment r_LOG2 (js "log2").
    reflexivity.
  - rewrite_segment r_log2 (js "log2") (js "__LOG2__"); [|unfold guard; now rewrite H].
    keep_segment r_log (js "__LOG2__").
    keep_segment r_NATLOG (js "__LOG2__"). keep_segment r_LOG10 (js "__LOG2__").
    rewrite_segment r_LOG2 (js "__LOG2__") (js "log2"); [|reflexivity].
    reflexivity.
Qed.

Lemma rewrite_logarithms_occurrence (P : bool -> Prop) (x y : jsstring) :
  paren_free x ->
  (forall v ctx, paren_free v -> P (word_at (rev v ++ ctx)) ->
     segments log_rules ctx (v ++ x) = v ++ y) ->
  forall pre post,
    P (word_at (rev pre)) ->
    rewrite_logarithms (pre ++ x ++ LPAREN :: post)
    = rewrite_logarithms pre ++ y ++ LPAREN :: rewrite_logarithms post.
Proof.
  intros Hx Hseg pre post HP. rewrite !rewrite_logarithms_pipeline.
  apply (pipeline_occurrence P x y Hx Hseg). now rewrite app_nil_r.
Qed.

Example rewrite_logarithms_tests :
  rewrite_logarithms (js "log(1000)") = js "log10(1000)"
  /\ rewrite_logarithms (js "log10(100)") = js "log10(100)"
  /\ rewrite_logarithms (js "ln(e)") = js "log(e)"
  /\ rewrite_logarithms (js "log2(8)") = js "log2(8)"
  /\ rewrite_logarithms (js "ln(log(log2(x)))+log10(ln(2))")
     = js "log(log10(log2(x)))+log10(log(2))".
Proof. repeat split; reflexivity. Qed.

(** C3, as the specification states it, fails: the patterns of the source
    start with [\b], so a name glued to a preceding letter, digit or
    underscore is not at a word boundary and is left alone.  After a letter
    the text is another identifier; after a digit the normalizer goes on to
    insert a multiplication sign and hands the evaluator the natural
    logarithm. *)
Lemma log_after_word_character_keeps_its_name :
  rewrite_logarithms (js "a" ++ js "log(" ++ js "2)")
  <> rewrite_logarithms (js "a") ++ js "log10(" ++ rewrite_logarithms (js "2)")
  /\ rewrite_logarithms (js "2" ++ js "log(" ++ js "100)")
     <> rewrite_logarithms (js "2") ++ js "log10(" ++ rewrite_logarithms (js "100)")
  /\ rewrite_logarithms (js "2" ++ js "ln(" ++ js "3)")
     <> rewrite_logarithms (js "2") ++ js "log(" ++ rewrite_logarithms (js "3)")
  /\ rewrite_logarithms (js "alog(2)") = js "alog(2)"
  /\ rewrite_logarithms (js "2log(100)") = js "2log(100)"
  /\ preprocessExpression (js "2log(100)") = js "2*log(100)"
  /\ preprocessExpression (js "2ln(3)") = js "2*ln(3)".
Proof.
  repeat split; try reflexivity; intros H; vm_compute in H; discriminate H.
Qed.

(** C3 (amended): wherever [ln(] or a bare [log(] starts at a word boundary,
    the logarithm step of the normalizer turns it into [log(], respectively
    [log10(], and every [log10(] and [log2(] comes out unchanged, whatever
    stands before and after the occurrence, the text on either side being
    rewritten in the same way. *)
Theorem logarithm_names_at_word_boundaries (pre post : jsstring) :
  (at_word_boundary pre ->
     rewrite_logarithms (pre ++ js "ln(" ++ post)
     = rewrite_logarithms pre ++ js "log(" ++ rewrite_logarithms post
     /\ rewrite_logarithms (pre ++ js "log(" ++ post)
        = rewrite_logarithms pre ++ js "log10(" ++ rewrite_logarithms post)
  /\ rewrite_logarithms (pre ++ js "log10(" ++ post)
     = rewrite_logarithms pre ++ js "log10(" ++ rewrite_logarithms post
  /\ rewrite_logarithms (pre ++ js "log2(" ++ post)
     = rewrite_logarithms pre ++ js "log2(" ++ rewrite_logarithms post.
Proof.
  split; [intros Hb; split | split].
  - apply (rewrite_logarithms_occurrence (fun b => b = false) (js "ln") (js "log"));
      [apply paren_free_js_check; reflexivity | | exact Hb].
    intros v ctx _. apply segments_ln.
  - apply (rewrite_logarithms_occurrence (fun b => b = false) (js "log") (js "log10"));
      [apply paren_free_js_check; reflexivity | | exact Hb].
    intros v ctx _. apply segments_log.
  - apply (rewrite_logarithms_occurrence (fun _ => True) (js "log10") (js "log10"));
      [apply paren_free_js_check; reflexivity | | exact I].
    intros v ctx _ _. apply segments_log10.
  - apply (rewrite_logarithms_occurrence (fun _ => True) (js "log2") (js "log2"));
      [apply paren_free_js_check; reflexivity | | exact I].
    intros v ctx _ _. apply segments_log2.
Qed.

Lemma logarithm_names_at_word_boundaries_witness :
  at_word_boundary (js "2+")
  /\ rewrite_logarithms (js "2+" ++ js "ln(" ++ js "3)")
     = rewrite_logarithms (js "2+") ++ js "log(" ++ rewrite_logarithms (js "3)").
Proof.
  split; [reflexivity|].
  apply (proj1 (logarithm_names_at_word_boundaries (js "2+") (js "3)"))).
  reflexivity.
Defined.

End LogarithmFacts.

(** ** The multiplication step *)

Module MultiplicationFacts.
Import JsString Normalizer RewriteModel JsStringFacts.

Lemma digit_range (c : code_unit) : is_digit c = true <-> (48 <= c <= 57)%N.
Proof.
  unfold is_digit, in_range. rewrite andb_true_iff, !N.leb_le. tauto.
Qed.

Lemma letter_range (c : code_unit) :
  is_letter c = true <-> ((97 <= c <= 122) \/ (65 <= c <= 90))%N.
Proof.
  unfold is_letter, in_range.
  rewrite orb_true_iff, !andb_true_iff, !N.leb_le. tauto.
Qed.

Lemma space_range (c : code_unit) :
  is_space c = true -> ((9 <= c <= 13) \/ c = 32 \/ 160 <= c)%N.
Proof.
  unfold is_space, in_range, code_eqb.
  rewrite !orb_true_iff, !andb_true_iff, !N.leb_le, !N.eqb_eq. lia.
Qed.

Lemma digit_not_space (c : code_unit) : is_digit c = true -> is_space c = false.
Proof.
  intros H. apply digit_range in H. destruct (is_space c) eqn:E; [|reflexivity].
  apply space_range in E. lia.
Qed.

Lemma digit_not_letter (c : code_unit) : is_digit c = true -> is_letter c = false.
Proof.
  intros H. apply digit_range in H. destruct (is_letter c) eqn:E; [|reflexivity].
  apply letter_range in E. lia.
Qed.

Lemma letter_not_space (c : code_unit) : is_letter c = true -> is_space c = false.
Proof.
  intros H. apply letter_range in H. destruct (is_space c) eqn:E; [|reflexivity].
  apply space_range in E. lia.
Qed.

Lemma span_spec (p : code_unit -> bool) (s : jsstring) :
  s = fst (span p s) ++ snd (span p s)
  /\ Forall (fun c => p c = true) (fst (span p s))
  /\ match snd (span p s) with c :: _ => p c = false | [] => True end.
Proof.
  induction s as [|c s IH]; simpl; [auto|].
  destruct (p c) eqn:E.
  - destruct (span p s) as [a b]. simpl in *. destruct IH as (H1 & H2 & H3).
    repeat split; [now rewrite H1 at 1 | now constructor | exact H3].
  - simpl. auto.
Qed.

Lemma span_app (p : code_unit -> bool) (ws : jsstring) (c : code_unit) (rest : jsstring) :
  Forall (fun w => p w = true) ws -> p c = false ->
  span p (ws ++ c :: rest) = (ws, c :: rest).
Proof.
  induction 1 as [|w ws Hw _ IH]; intros Hc; simpl.
  - now rewrite Hc.
  - now rewrite Hw, (IH Hc).
Qed.

(** The positive lookahead of the source is the specification's ``followed,
    optionally through white space, by a letter or an opening parenthesis''. *)
Lemma followed_by_letter_or_paren_spec (post : jsstring) :
  followed_by_letter_or_paren post = true <-> followed_through_space post.
Proof.
  unfold followed_by_letter_or_paren, followed_through_space. split.
  - intros H. destruct (span_spec is_space post) as (H1 & H2 & _).
    destruct (snd (span is_space post)) as [|c rest] eqn:E; [discriminate|].
    exists (fst (span is_space post)), c, rest. repeat split; try assumption.
    apply orb_true_iff in H as [H|H]; [now left | right; now apply code_eqb_eq].
  - intros (ws & c & rest & -> & Hws & Hc).
    assert (Hns : is_space c = false).
    { destruct Hc as [Hc | ->]; [now apply letter_not_space | reflexivity]. }
    rewrite (span_app _ _ _ _ Hws Hns). simpl.
    destruct Hc as [-> | ->]; [reflexivity | apply orb_true_r].
Qed.

(** The negative lookahead never decides anything. *)
Lemma lookahead_excludes_digit (post : jsstring) :
  followed_by_letter_or_paren post = true -> not_followed_by_digit post = true.
Proof.
  unfold followed_by_letter_or_paren, not_followed_by_digit.
  destruct post as [|c post]; [reflexivity|]. intros H.
  destruct (is_digit c) eqn:Ed; [|reflexivity]. exfalso.
  simpl in H. rewrite (digit_not_space c Ed) in H. simpl in H.
  rewrite (digit_not_letter c Ed) in H. simpl in H.
  apply code_eqb_eq in H. apply digit_range in Ed. subst c. unfold LPAREN in Ed. lia.
Qed.

Lemma ends_with_spec (suffix s : jsstring) :
  ends_with suffix s = true <-> exists a, s = a ++ suffix.
Proof.
  unfold ends_with. rewrite starts_with_prefix. split.
  - intros [r Hr]. exists (rev r). apply (f_equal (@rev _)) in Hr.
    now rewrite rev_involutive, rev_app_distr, rev_involutive in Hr.
  - intros [a ->]. exists (rev a). now rewrite rev_app_distr.
Qed.

Lemma ends_in_log_name_spec (window : jsstring) :
  ends_with (js "log") window || ends_with (js "log1") window = true
  <-> ends_in_log_name window.
Proof.
  unfold ends_in_log_name. rewrite orb_true_iff, !ends_with_spec.
  split; [intros [[a H]|[a H]]; exists a; auto | intros [a [H|H]]; [left|right]; now exists a].
Qed.

Lemma part_of_log_name_window (window : jsstring) :
  part_of_log_name window
  = ends_with (js "log") window || ends_with (js "log1") window.
Proof.
  unfold part_of_log_name.
  destruct (ends_with (js "log") window), (ends_with (js "log1") window); reflexivity.
Qed.

(** The window of the callback is the window of the specification. *)
Lemma lookbehind_window_before (before rest : jsstring) :
  lookbehind_window before = window_before (rev before ++ rest) (length before).
Proof.
  unfold lookbehind_window, window_before.
  rewrite <- (length_rev before) at 2.
  rewrite firstn_app, Nat.sub_diag, firstn_all, firstn_O, app_nil_r.
  rewrite skipn_rev. f_equal.
  destruct (Nat.le_gt_cases (length before) 4) as [H|H].
  - replace (length before - (length before - 4)) with (length before) by lia.
    now rewrite firstn_all, firstn_all2.
  - f_equal. lia.
Qed.

Lemma skipn_at (s : jsstring) : forall i d post,
  skipn i s = d :: post <-> nth_error s i = Some d /\ skipn (S i) s = post.
Proof.
  induction s as [|c s IH]; intros [|i] d post; simpl.
  - split; [discriminate | intros [H _]; discriminate].
  - split; [discriminate | intros [H _]; discriminate].
  - split; [intros H; injection H as -> ->; auto | intros [H1 H2]; congruence].
  - apply IH.
Qed.

Lemma star_afterb_spec (s : jsstring) (i : nat) :
  star_afterb s i = true <-> star_after s i.
Proof.
  unfold star_afterb, star_after. split.
  - destruct (skipn i s) as [|d post] eqn:E; [discriminate|].
    apply skipn_at in E as [E1 E2]. intros H.
    apply andb_true_iff in H as [H H3]. apply andb_true_iff in H as [H1 H2].
    exists d. rewrite E2. repeat split; try assumption.
    + now apply followed_by_letter_or_paren_spec.
    + intros Hw. apply ends_in_log_name_spec in Hw. now rewrite Hw in H3.
  - intros (d & H1 & H2 & H3 & H4).
    assert (E : skipn i s = d :: skipn (S i) s) by now apply skipn_at.
    rewrite E, H2. apply followed_by_letter_or_paren_spec in H3. rewrite H3. simpl.
    destruct (_ || _) eqn:Hw; [|reflexivity].
    exfalso. apply H4. now apply ends_in_log_name_spec.
Qed.

Lemma insert_multiplication_from (rest : jsstring) : forall before,
  replace_from implicit_multiplication before 0 rest
  = flat_map (fun i =>
                match nth_error (rev before ++ rest) i with
                | Some c => c :: (if star_afterb (rev before ++ rest) i then [STAR] else [])
                | None => []
                end)
             (seq (length before) (length rest)).
Proof.
  induction rest as [|c rest IH]; intros before; [reflexivity|].
  cbn [replace_from length seq flat_map].
  assert (Hn : nth_error (rev before ++ c :: rest) (length before) = Some c).
  { rewrite nth_error_app2 by (rewrite length_rev; lia).
    now rewrite length_rev, Nat.sub_diag. }
  assert (Hs : skipn (length before) (rev before ++ c :: rest) = c :: rest).
  { rewrite skipn_app, length_rev, Nat.sub_diag, skipn_all2 by (rewrite length_rev; lia).
    reflexivity. }
  rewrite Hn. unfold star_afterb at 1. rewrite Hs.
  rewrite <- (lookbehind_window_before before (c :: rest)).
  rewrite <- part_of_log_name_window.
  specialize (IH (c :: before)). cbn [rev length] in IH.
  rewrite <- app_assoc in IH. cbn [app] in IH. rewrite <- IH.
  unfold implicit_multiplication at 1.
  destruct (is_digit c && followed_by_letter_or_paren rest) eqn:E.
  - apply andb_true_iff in E as [_ E]. rewrite (lookahead_excludes_digit rest E).
    cbn [andb]. now destruct (part_of_log_name (lookbehind_window before)).
  - reflexivity.
Qed.

Lemma insert_multiplication_with_stars (s : jsstring) :
  insert_multiplication s = with_stars s (star_afterb s).
Proof. exact (insert_multiplication_from s []). Qed.

Lemma window_at_end (pre x : jsstring) (post : jsstring) (k : nat) :
  length x = k ->
  window_before (pre ++ x ++ post) (length pre + k)
  = skipn (length pre + k - 4) (pre ++ x).
Proof.
  intros <-. unfold window_before. f_equal.
  rewrite app_assoc, <- length_app, firstn_app, Nat.sub_diag, firstn_all.
  cbn [firstn]. apply app_nil_r.
Qed.

Lemma skipn_past (pre x : jsstring) (k : nat) :
  skipn (length pre + k) (pre ++ x) = skipn k x.
Proof.
  rewrite skipn_app, skipn_all2 by lia.
  now replace (length pre + k - length pre) with k by lia.
Qed.

Lemma no_star_inside_log10 (pre post : jsstring) :
  star_afterb (pre ++ js "log10(" ++ post) (length pre + 3) = false
  /\ star_afterb (pre ++ js "log10(" ++ post) (length pre + 4) = false.
Proof.
  unfold star_afterb. split.
  - rewrite skipn_past. reflexivity.
  - assert (Hw : window_before (pre ++ js "log10(" ++ post) (length pre + 4) = js "log1").
    { change (js "log10(" ++ post) with (js "log1" ++ js "0(" ++ post).
      rewrite (window_at_end pre (js "log1") _ 4 eq_refl).
      replace (length pre + 4 - 4) with (length pre + 0) by lia.
      now rewrite skipn_past. }
    rewrite Hw, skipn_past.
    replace (ends_with (js "log1") (js "log1")) with true by reflexivity.
    rewrite orb_true_r. apply andb_false_r.
Qed.

Lemma no_star_inside_log2 (pre post : jsstring) :
  star_afterb (pre ++ js "log2(" ++ post) (length pre + 3) = false.
Proof.
  unfold star_afterb.
  assert (Hw : window_before (pre ++ js "log2(" ++ post) (length pre + 3)
               = skipn (length pre + 3 - 4) pre ++ js "log").
  { change (js "log2(" ++ post) with (js "log" ++ js "2(" ++ post).
    rewrite (window_at_end pre (js "log") _ 3 eq_refl).
    rewrite skipn_app.
    now replace (length pre + 3 - 4 - length pre) with 0 by lia. }
  rewrite Hw, skipn_past.
  assert (H : ends_with (js "log") (skipn (length pre + 3 - 4) pre ++ js "log") = true)
    by (apply ends_with_spec; eauto).
  rewrite H. apply andb_false_r.
Qed.

(** C4: the multiplication step of the normalizer puts a multiplication sign
    after exactly those digits that are followed, optionally through white
    space, by a letter or an opening parenthesis and whose four-unit
    lookbehind window does not end in [log] or [log1]; so [2pi], [2(3+4)] and
    [3sin(0)] gain a sign and the digits of [log10(] and [log2(] never do. *)
Theorem multiplication_after_digits :
  (forall expression,
     preprocessExpression expression
     = rewrite_percent
         (insert_multiplication (rewrite_logarithms (replace_glyphs expression))))
  /\ (forall s,
        insert_multiplication s = with_stars s (star_afterb s)
        /\ forall i, star_afterb s i = true <-> star_after s i)
  /\ (forall pre post,
        ~ star_after (pre ++ js "log10(" ++ post) (length pre + 3)
        /\ ~ star_after (pre ++ js "log10(" ++ post) (length pre + 4)
        /\ ~ star_after (pre ++ js "log2(" ++ post) (length pre + 3))
  /\ preprocessExpression (js "2" ++ [GREEK_PI]) = js "2*pi"
  /\ preprocessExpression (js "2(3+4)") = js "2*(3+4)"
  /\ preprocessExpression (js "3sin(0)") = js "3*sin(0)"
  /\ preprocessExpression (js "2 x") = js "2* x"
  /\ preprocessExpression (js "log10(5)") = js "log10(5)"
  /\ preprocessExpression (js "log2(8)") = js "log2(8)"
  /\ preprocessExpression (js "log(1000)") = js "log10(1000)".
Proof.
  split; [reflexivity|]. split; [|split].
  - intros s. split; [apply insert_multiplication_with_stars|].
    intros i. apply star_afterb_spec.
  - intros pre post.
    destruct (no_star_inside_log10 pre post) as [H1 H2].
    pose proof (no_star_inside_log2 pre post) as H3.
    repeat split; intros H; apply star_afterb_spec in H; congruence.
  - repeat split; reflexivity.
Qed.

End MultiplicationFacts.

(** ** The evaluation adapter *)

Module EngineFacts.
Import JsString JsNumber Completion Normalizer Engine EngineSpec JsStringFacts.
Import JsNumberFacts MultiplicationFacts.

Lemma span_all (p : code_unit -> bool) (s : jsstring) :
  snd (span p s) = [] <-> Forall (fun c => p c = true) s.
Proof.
  induction s as [|c s IH]; simpl.
  - split; auto.
  - destruct (p c) eqn:E.
    + destruct (span p s) as [a b]. simpl in *. split.
      * intros H. constructor; [exact E | now apply IH].
      * intros H. inversion H. now apply IH.
    + simpl. split; [discriminate|]. intros H. inversion H. congruence.
Qed.

(** [trim] leaves nothing exactly of the blank strings. *)
Lemma trim_blank (s : jsstring) : trim s = [] <-> blank s.
Proof.
  unfold trim, trim_start, blank. split.
  - intros H. apply (f_equal (@rev _)) in H. rewrite rev_involutive in H. simpl in H.
    apply span_all in H. apply Forall_rev in H. rewrite rev_involutive in H.
    destruct (span_spec is_space s) as (H1 & H2 & _).
    rewrite H1. apply Forall_app. split; assumption.
  - intros H. assert (E : snd (span is_space s) = []) by now apply span_all.
    rewrite E. reflexivity.
Qed.

Lemma first_known_spec (entries : list (jsstring * jsstring)) (message : jsstring) :
  match first_known entries message with
  | Some friendly =>
      exists pre pattern post,
        entries = pre ++ (pattern, friendly) :: post
        /\ contains message pattern
        /\ forall entry, In entry pre -> ~ contains message (fst entry)
  | None => forall entry, In entry entries -> ~ contains message (fst entry)
  end.
Proof.
  induction entries as [|[pattern friendly] entries IH]; simpl.
  - intros entry [].
  - destruct (includes message pattern) eqn:E.
    + exists [], pattern, entries. repeat split.
      * now apply includes_spec.
      * intros entry [].
    + assert (Hn : ~ contains message pattern).
      { intros H. apply includes_spec in H. congruence. }
      destruct (first_known entries message) as [f|].
      * destruct IH as (pre & pat & post & -> & H1 & H2).
        exists ((pattern, friendly) :: pre), pat, post. repeat split; [exact H1|].
        intros entry [<- | Hin]; [exact Hn | now apply H2].
      * intros entry [<- | Hin]; [exact Hn | now apply IH].
Qed.

(** The three cases of [getUserFriendlyError]. *)
Lemma getUserFriendlyError_spec (error : Error) :
  (forall pre pattern friendly post,
     ERROR_MESSAGES = pre ++ (pattern, friendly) :: post ->
     contains (message error) pattern ->
     (forall entry, In entry pre -> ~ contains (message error) (fst entry)) ->
     getUserFriendlyError error = friendly)
  /\ (unmatched (message error) -> 30 < length (message error) ->
      getUserFriendlyError error = js "Syntax Error")
  /\ (unmatched (message error) -> length (message error) <= 30 ->
      getUserFriendlyError error = message error).
Proof.
  unfold getUserFriendlyError, unmatched.
  pose proof (first_known_spec ERROR_MESSAGES (message error)) as H.
  destruct (first_known ERROR_MESSAGES (message error)) as [f|].
  - destruct H as (pre & pat & post & E & H1 & H2). repeat split.
    + intros pre' pat' f' post' E' H1' H2'. rewrite E in E'.
      assert (Hpre : pre = pre').
      { clear E. revert pre' E' H2'. induction pre as [|e pre IHp]; intros [|e' pre'] E' H2'.
        - reflexivity.
        - exfalso. injection E' as <- _. apply (H2' _ (or_introl eq_refl)). exact H1.
        - exfalso. injection E' as -> _. apply (H2 _ (or_introl eq_refl)). exact H1'.
        - injection E' as -> E'. f_equal. apply IHp.
          + intros entry Hin. apply H2. now right.
          + exact E'.
          + intros entry Hin. apply H2'. now right. }
      subst pre'. apply app_inv_head in E'. congruence.
    + intros Hu _. exfalso. apply (Hu (pat, f)); [|exact H1].
      rewrite E. apply in_or_app. right. now left.
    + intros Hu _. exfalso. apply (Hu (pat, f)); [|exact H1].
      rewrite E. apply in_or_app. right. now left.
  - repeat split.
    + intros pre pat f post E H1 _. exfalso. apply (H (pat, f)); [|exact H1].
      rewrite E. apply in_or_app. right. now left.
    + intros _ Hl. apply Nat.ltb_lt in Hl. now rewrite Hl.
    + intros _ Hl. apply Nat.ltb_ge in Hl. now rewrite Hl.
Qed.

Section WithLibraries.
Variable B : builtins.
Variable M : mathjs.

(** What the [try] block does with the answer of the evaluator. *)
Lemma evaluate_nonblank (expression : jsstring) (angleUnit : AngleUnit) :
  trim expression <> [] ->
  evaluate B M expression angleUnit
  = try_catch (evaluate_body B M expression angleUnit)
      (fun error => Normal (Failure (getUserFriendlyError error))).
Proof. unfold evaluate. destruct (trim expression); [congruence | reflexivity]. Qed.

Lemma evaluate_total (expression : jsstring) (angleUnit : AngleUnit) :
  exists result, evaluate B M expression angleUnit = Normal result.
Proof.
  unfold evaluate. destruct (trim expression); [eauto|].
  unfold try_catch. destruct (evaluate_body B M expression angleUnit); eauto.
Qed.

End WithLibraries.

(** C1: [evaluate] always returns a result.  A blank expression gives the
    failure [Empty expression]; otherwise an error thrown by the evaluator or
    by its formatter becomes a failure whose message is the translation of
    the first table pattern that the raw message contains, [Syntax Error]
    when it contains none and is longer than 30, and the raw message
    otherwise. *)
Theorem evaluate_never_throws (B : builtins) (M : mathjs)
  (expression : jsstring) (angleUnit : AngleUnit) :
  exists result,
    evaluate B M expression angleUnit = Normal result
    /\ (blank expression -> result = Failure (js "Empty expression"))
    /\ (~ blank expression ->
        forall error,
          (math_evaluate M (preprocessExpression expression) (trig_scope angleUnit)
           = Throw error
           \/ exists tag,
               math_evaluate M (preprocessExpression expression) (trig_scope angleUnit)
               = Normal (MOther tag)
               /\ math_format M (MOther tag) DISPLAY_PRECISION = Throw error) ->
          result = Failure (getUserFriendlyError error)
          /\ (forall pre pattern friendly post,
                ERROR_MESSAGES = pre ++ (pattern, friendly) :: post ->
                contains (message error) pattern ->
                (forall entry, In entry pre -> ~ contains (message error) (fst entry)) ->
                result = Failure friendly)
          /\ (unmatched (message error) -> 30 < length (message error) ->
              result = Failure (js "Syntax Error"))
          /\ (unmatched (message error) -> length (message error) <= 30 ->
              result = Failure (message error))).
Proof.
  destruct (evaluate_total B M expression angleUnit) as [result Hr].
  exists result. split; [exact Hr|]. split.
  - intros Hb. apply trim_blank in Hb. unfold evaluate in Hr. rewrite Hb in Hr.
    congruence.
  - intros Hnb error Hthrow.
    assert (Hne : trim expression <> []) by (intros H; now apply Hnb, trim_blank).
    rewrite (evaluate_nonblank B M _ _ Hne) in Hr.
    assert (Hres : result = Failure (getUserFriendlyError error)).
    { unfold evaluate_body, transformForAngleUnit in Hr.
      destruct angleUnit;
        (destruct Hthrow as [Ht | (tag & Ht & Hf)]; rewrite Ht in Hr; simpl in Hr;
         [|rewrite Hf in Hr; simpl in Hr]; congruence). }
    split; [exact Hres|].
    destruct (getUserFriendlyError_spec error) as (H1 & H2 & H3).
    rewrite Hres. repeat split.
    + intros pre pattern friendly post E Hc Hfirst. f_equal. eapply H1; eauto.
    + intros Hu Hl. f_equal. now apply H2.
    + intros Hu Hl. f_equal. now apply H3.
Qed.

Lemma evaluate_never_throws_witness :
  ~ blank (js "foo(1)")
  /\ evaluate example_builtins example_mathjs (js "foo(1)") rad
     = Normal (Failure (js "Unknown function")).
Proof.
  assert (Hnb : ~ blank (js "foo(1)")) by (intros Hb; inversion Hb; discriminate).
  split; [exact Hnb|].
  destruct (evaluate_never_throws example_builtins example_mathjs (js "foo(1)") rad)
    as (r & Hr & _ & H).
  rewrite Hr. f_equal.
  destruct (H Hnb (new_Error (js "Undefined function foo")) (or_introl eq_refl))
    as (_ & Hk & _).
  apply (Hk [] (js "Undefined function") (js "Unknown function") (tl ERROR_MESSAGES) eq_refl).
  - exists [], (js " foo"). reflexivity.
  - intros entry [].
Defined.

(** *** Angle units *)

Local Open Scope R_scope.

Lemma degreesToRadians_finite (x : R) : degreesToRadians (Fin x) = Fin (x * (PI / 180)).
Proof.
  unfold degreesToRadians, div, mul, Math_PI, of_Z.
  rewrite Reqb_false by lra. reflexivity.
Qed.

Lemma radiansToDegrees_finite (x : R) : radiansToDegrees (Fin x) = Fin (x * (180 / PI)).
Proof.
  unfold radiansToDegrees, div, mul, Math_PI, of_Z.
  rewrite Reqb_false by (pose proof PI_RGT_0; lra). reflexivity.
Qed.

Lemma sin_90_degrees : Math_sin (degreesToRadians (of_Z 90)) = one.
Proof.
  unfold of_Z. rewrite degreesToRadians_finite. unfold Math_sin, one. f_equal.
  replace (90 * (PI / 180)) with (PI / 2) by field. apply sin_PI2.
Qed.

Lemma sin_half_pi : Math_sin (div Math_PI (of_Z 2)) = one.
Proof.
  unfold div, Math_PI, of_Z, Math_sin, one.
  rewrite Reqb_false by lra. f_equal. apply sin_PI2.
Qed.

Lemma asin_1_degrees : radiansToDegrees (Math_asin (of_Z 1)) = of_Z 90.
Proof.
  unfold Math_asin, of_Z. rewrite !Rleb_true by lra. cbn [andb].
  rewrite radiansToDegrees_finite, asin_1. f_equal.
  field. pose proof PI_RGT_0. lra.
Qed.

(** C2: in degrees [evaluate] hands the evaluator a scope in which [sin],
    [cos] and [tan] first convert their argument to radians and [asin],
    [acos] and [atan] convert their result to degrees; in radians the scope
    is empty.  With an evaluator that applies the scope's function where
    there is one and the standard function otherwise, [sin(90)] in degrees
    and [sin(pi/2)] in radians are 1 and [asin(1)] in degrees is 90. *)
Theorem degree_mode_overrides (B : builtins) (M : mathjs) :
  (lookup (trig_scope deg) (js "sin") = Some (fun x => Math_sin (degreesToRadians x))
   /\ lookup (trig_scope deg) (js "cos") = Some (fun x => Math_cos (degreesToRadians x))
   /\ lookup (trig_scope deg) (js "tan") = Some (fun x => Math_tan (degreesToRadians x))
   /\ lookup (trig_scope deg) (js "asin") = Some (fun x => radiansToDegrees (Math_asin x))
   /\ lookup (trig_scope deg) (js "acos") = Some (fun x => radiansToDegrees (Math_acos x))
   /\ lookup (trig_scope deg) (js "atan") = Some (fun x => radiansToDegrees (Math_atan x))
   /\ length (trig_scope deg) = 6%nat)
  /\ trig_scope rad = []
  /\ (forall x, degreesToRadians (Fin x) = Fin (x * (PI / 180))
               /\ radiansToDegrees (Fin x) = Fin (x * (180 / PI)))
  /\ (forall expression angleUnit n,
        ~ blank expression ->
        math_evaluate M (preprocessExpression expression) (trig_scope angleUnit)
        = Normal (MNumber n) ->
        evaluate B M expression angleUnit
        = Normal (Success (VNumber n) (formatNumber B n)))
  /\ ((forall sc, math_evaluate M (js "sin(90)") sc
                  = Normal (MNumber (resolve sc (js "sin") Math_sin (of_Z 90)))) ->
      evaluate B M (js "sin(90)") deg
      = Normal (Success (VNumber one) (formatNumber B one)))
  /\ ((forall sc, math_evaluate M (js "sin(pi/2)") sc
                  = Normal (MNumber (resolve sc (js "sin") Math_sin
                                       (div Math_PI (of_Z 2))))) ->
      evaluate B M (js "sin(pi/2)") rad
      = Normal (Success (VNumber one) (formatNumber B one)))
  /\ ((forall sc, math_evaluate M (js "asin(1)") sc
                  = Normal (MNumber (resolve sc (js "asin") Math_asin (of_Z 1)))) ->
      evaluate B M (js "asin(1)") deg
      = Normal (Success (VNumber (of_Z 90)) (formatNumber B (of_Z 90)))).
Proof.
  assert (Hcall : forall expression angleUnit n,
             ~ blank expression ->
             math_evaluate M (preprocessExpression expression) (trig_scope angleUnit)
             = Normal (MNumber n) ->
             evaluate B M expression angleUnit
             = Normal (Success (VNumber n) (formatNumber B n))).
  { intros expression angleUnit n Hnb He.
    rewrite evaluate_nonblank by (intros H; now apply Hnb, trim_blank).
    unfold evaluate_body, transformForAngleUnit.
    destruct angleUnit; rewrite He; reflexivity. }
  assert (Hnb : forall c s, is_space c = false -> ~ blank (c :: s)).
  { intros c s Hc Hb. inversion Hb. congruence. }
  split; [repeat split; reflexivity|]. split; [reflexivity|].
  split; [intros x; split;
          [apply degreesToRadians_finite | apply radiansToDegrees_finite]|].
  split; [exact Hcall|]. repeat split.
  - intros H. rewrite <- sin_90_degrees. apply Hcall; [now apply Hnb|].
    exact (H (trig_scope deg)).
  - intros H. rewrite <- sin_half_pi. apply Hcall; [now apply Hnb|].
    exact (H (trig_scope rad)).
  - intros H. rewrite <- asin_1_degrees. apply Hcall; [now apply Hnb|].
    exact (H (trig_scope deg)).
Qed.

Lemma degree_mode_overrides_witness :
  evaluate example_builtins example_mathjs (js "sin(90)") deg
  = Normal (Success (VNumber one) (formatNumber example_builtins one))
  /\ evaluate example_builtins example_mathjs (js "asin(1)") deg
     = Normal (Success (VNumber (of_Z 90)) (formatNumber example_builtins (of_Z 90))).
Proof.
  destruct (degree_mode_overrides example_builtins example_mathjs)
    as (_ & _ & _ & _ & H1 & _ & H3).
  split; [apply H1 | apply H3]; intros sc; reflexivity.
Defined.

(** *** The function sampler *)

Local Close Scope R_scope.

Lemma nth_error_zipper (before : jsstring) (c : code_unit) (after : jsstring) :
  nth_error (rev before ++ c :: after) (length before) = Some c.
Proof.
  rewrite nth_error_app2 by (rewrite length_rev; lia).
  now rewrite length_rev, Nat.sub_diag.
Qed.

Lemma word_at_before (before rest : jsstring) :
  word_at before
  = negb (Nat.eqb (length before) 0)
    && is_word_opt (nth_error (rev before ++ rest) (length before - 1)).
Proof.
  destruct before as [|p before]; [reflexivity|].
  cbn [length Nat.eqb negb andb rev word_at]. rewrite Nat.sub_succ, Nat.sub_0_r.
  rewrite <- app_assoc. cbn [app]. now rewrite nth_error_zipper.
Qed.

Lemma word_at_after (before : jsstring) (c : code_unit) (after : jsstring) :
  word_at after = is_word_opt (nth_error (rev before ++ c :: after) (S (length before))).
Proof.
  rewrite nth_error_app2 by (rewrite length_rev; lia).
  rewrite length_rev. replace (S (length before) - length before) with 1 by lia.
  now destruct after.
Qed.

Lemma variable_x_token (before : jsstring) (c : code_unit) (after replacement : jsstring) :
  variable_x replacement before (c :: after)
  = if token_xb (rev before ++ c :: after) (length before)
    then Some (1, replacement) else None.
Proof.
  unfold variable_x, token_xb, boundary. rewrite nth_error_zipper.
  rewrite <- (word_at_after before c after).
  rewrite (word_at_before before (c :: after)).
  cbn [word_at].
  destruct (code_eqb c 120 || code_eqb c 88) eqn:Ex.
  - assert (Hw : is_word c = true).
    { apply orb_true_iff in Ex as [E|E]; apply code_eqb_eq in E; subst c; reflexivity. }
    rewrite Hw, !xorb_true_r.
    destruct (Nat.eqb (length before) 0),
      (is_word_opt (nth_error (rev before ++ c :: after) (length before - 1))),
      (word_at after); reflexivity.
  - now rewrite andb_false_r.
Qed.

Lemma substitute_from (replacement rest : jsstring) : forall before,
  replace_from (variable_x replacement) before 0 rest
  = flat_map (fun i =>
                match nth_error (rev before ++ rest) i with
                | Some c => if token_xb (rev before ++ rest) i then replacement else [c]
                | None => []
                end)
             (seq (length before) (length rest)).
Proof.
  induction rest as [|c rest IH]; intros before; [reflexivity|].
  cbn [replace_from length seq flat_map].
  rewrite nth_error_zipper, variable_x_token.
  specialize (IH (c :: before)). cbn [rev length] in IH.
  rewrite <- app_assoc in IH. cbn [app] in IH. rewrite <- IH.
  now destruct (token_xb (rev before ++ c :: rest) (length before)).
Qed.

Lemma token_xb_spec (s : jsstring) (i : nat) : token_xb s i = true <-> token_x s i.
Proof.
  unfold token_xb, token_x. destruct (nth_error s i) as [c|].
  - rewrite !andb_true_iff, !orb_true_iff, !negb_true_iff, Nat.eqb_eq.
    unfold code_eqb. rewrite !N.eqb_eq. split.
    + intros [[[-> | ->] H2] H3]; auto.
    + intros [[H|H] [H2 H3]]; injection H as ->; auto.
  - split; [discriminate | intros [[H|H] _]; discriminate].
Qed.

(** C5: the sampler replaces each token [x] (either case, at word boundaries
    on both sides) by the parenthesized literal of the number, evaluates the
    result in radians and never raises; it returns a number exactly when the
    evaluation succeeded with a finite number, and [null] otherwise.  With an
    evaluator for which [1/(0)] is infinite, [evaluate] succeeds on it with
    [Infinity] and sampling [1/x] at 0 gives [null]. *)
Theorem sampler_defined_iff_finite (B : builtins) (M : mathjs) :
  (forall expression x,
     exists y,
       evaluateFunction B M expression x = Normal y
       /\ (forall v,
             y = Some v
             <-> (exists display,
                    evaluate B M (substituted B expression x) rad
                    = Normal (Success (VNumber v) display))
                 /\ isFinite v = true)
       /\ substituted B expression x
          = with_replacements expression (token_xb expression)
              (js "(" ++ Number_toString B x ++ js ")")
       /\ (forall i, token_xb expression i = true <-> token_x expression i))
  /\ (Number_toString B zero = js "0" ->
      math_evaluate M (js "1/(0)") (trig_scope rad) = Normal (MNumber PosInfinity) ->
      substituted B (js "1/x") zero = js "1/(0)"
      /\ evaluate B M (js "1/(0)") rad
         = Normal (Success (VNumber PosInfinity) (js "Infinity"))
      /\ evaluateFunction B M (js "1/x") zero = Normal None).
Proof.
  split.
  - intros expression x.
    unfold evaluateFunction. fold (substituted B expression x).
    destruct (evaluate_total B M (substituted B expression x) rad) as [r Hr].
    rewrite Hr. cbn [bind].
    assert (Hsub : substituted B expression x
                   = with_replacements expression (token_xb expression)
                       (js "(" ++ Number_toString B x ++ js ")"))
      by exact (substitute_from _ expression []).
    destruct r as [[v|str] display | err].
    + destruct (isFinite v) eqn:Ef.
      * exists (Some v). split; [reflexivity|]. split; [|split; [exact Hsub|apply token_xb_spec]].
        intros v'. split.
        -- intros H. injection H as <-. split; [now exists display | exact Ef].
        -- intros [[d Hd] _]. congruence.
      * exists None. split; [reflexivity|]. split; [|split; [exact Hsub|apply token_xb_spec]].
        intros v'. split; [discriminate|].
        intros [[d Hd] Hf]. congruence.
    + exists None. split; [reflexivity|]. split; [|split; [exact Hsub|apply token_xb_spec]].
      intros v'. split; [discriminate|]. intros [[d Hd] _]. congruence.
    + exists None. split; [reflexivity|]. split; [|split; [exact Hsub|apply token_xb_spec]].
      intros v'. split; [discriminate|]. intros [[d Hd] _]. congruence.
  - intros Hs He.
    assert (Hsub : substituted B (js "1/x") zero = js "1/(0)").
    { unfold substituted. rewrite Hs. reflexivity. }
    assert (Hev : evaluate B M (js "1/(0)") rad
                  = Normal (Success (VNumber PosInfinity) (js "Infinity"))).
    { rewrite evaluate_nonblank by discriminate.
      unfold evaluate_body, transformForAngleUnit.
      change (preprocessExpression (js "1/(0)")) with (js "1/(0)").
      rewrite He. reflexivity. }
    repeat split; [exact Hsub | exact Hev |].
    unfold evaluateFunction. fold (substituted B (js "1/x") zero).
    rewrite Hsub, Hev. reflexivity.
Qed.

Lemma sampler_defined_iff_finite_witness :
  evaluateFunction example_builtins example_mathjs (js "1/x") zero = Normal None.
Proof.
  apply (proj2 (sampler_defined_iff_finite example_builtins example_mathjs));
    reflexivity.
Defined.

End EngineFacts.


(** ** Statistics *)

Module StatisticsFacts.
Import JsString JsNumber Completion Statistics JsNumberFacts InverseNormalSpec.

(** C7: the summary counts the values, and for the empty sequence the
    summary and every function of the module give zero, respectively no
    mode. *)
Theorem statistics_of_the_empty_sequence :
  (forall values,
     count (calculateStatistics values) = of_nat (length values)
     /\ Statistics.values (calculateStatistics values) = values
     /\ (count (calculateStatistics values) = zero ->
         calculateStatistics values
         = {| values := []; mean := zero; median := zero; mode := [];
              stdDev := zero; variance := zero; sum := zero; count := zero |}))
  /\ calculateMean [] = zero
  /\ calculateMedian [] = zero
  /\ calculateMode [] = []
  /\ calculateVariance [] = zero
  /\ calculateSampleVariance [] = zero
  /\ calculateStdDev [] = zero
  /\ calculateSampleStdDev [] = zero
  /\ calculateSum [] = zero.
Proof.
  assert (Hsd : calculateStdDev [] = zero) by exact Math_sqrt_zero.
  assert (Hssd : calculateSampleStdDev [] = zero) by exact Math_sqrt_zero.
  split; [|repeat split; assumption].
  intros values. repeat split.
  intros H. cbn [count calculateStatistics] in H. apply of_nat_zero in H.
  destruct values; [|discriminate].
  unfold calculateStatistics. now rewrite Hsd.
Qed.

Lemma statistics_of_the_empty_sequence_witness :
  count (calculateStatistics []) = zero
  /\ mean (calculateStatistics []) = zero
  /\ stdDev (calculateStatistics []) = zero.
Proof.
  assert (H : count (calculateStatistics []) = zero) by reflexivity.
  split; [exact H|].
  destruct statistics_of_the_empty_sequence as [Hall _].
  destruct (Hall []) as (_ & _ & Hzero).
  rewrite (Hzero H). split; reflexivity.
Defined.

(** *** The mode *)

Import StatisticsSpec.

Lemma same_value_zero_eq (a b : number) : same_value_zero a b = true <-> a = b.
Proof.
  destruct a as [x| | |], b as [y| | |]; cbn; try (split; congruence).
  rewrite Reqb_eq. split; congruence.
Qed.

Lemma same_value_zero_neq (a b : number) : same_value_zero a b = false <-> a <> b.
Proof.
  rewrite <- same_value_zero_eq. destruct (same_value_zero a b); split; congruence.
Qed.

Lemma Map_get_None (m : Map) (key : number) :
  Map_get m key = None <-> ~ In key (map fst m).
Proof.
  induction m as [|[k v] m IH]; simpl; [tauto|].
  destruct (same_value_zero k key) eqn:E.
  - apply same_value_zero_eq in E. split; [discriminate | tauto].
  - apply same_value_zero_neq in E. rewrite IH. tauto.
Qed.

Lemma Map_get_In (m : Map) (key : number) (c : nat) :
  NoDup (map fst m) -> (Map_get m key = Some c <-> In (key, c) m).
Proof.
  induction m as [|[k v] m IH]; simpl; intros Hnd.
  - split; [discriminate | tauto].
  - inversion Hnd as [|? ? Hk Hm]; subst.
    destruct (same_value_zero k key) eqn:E.
    + apply same_value_zero_eq in E. subst key. split.
      * intros H. injection H as ->. now left.
      * intros [H | H]; [congruence|]. exfalso. apply Hk.
        change k with (fst (k, c)). now apply in_map.
    + apply same_value_zero_neq in E. rewrite (IH Hm). split; [tauto|].
      intros [H | H]; [congruence | exact H].
Qed.

Lemma Map_set_keys (m : Map) (key : number) (v : nat) :
  map fst (Map_set m key v)
  = if in_dec number_eq_dec key (map fst m) then map fst m else map fst m ++ [key].
Proof.
  induction m as [|[k w] m IH]; simpl; [reflexivity|].
  destruct (same_value_zero k key) eqn:E.
  - apply same_value_zero_eq in E. subst key.
    destruct (number_eq_dec k k); [reflexivity | congruence].
  - apply same_value_zero_neq in E. simpl. rewrite IH.
    destruct (number_eq_dec k key); [congruence|].
    now destruct (in_dec number_eq_dec key (map fst m)).
Qed.

Lemma Map_set_NoDup (m : Map) (key : number) (v : nat) :
  NoDup (map fst m) -> NoDup (map fst (Map_set m key v)).
Proof.
  intros H. rewrite Map_set_keys.
  destruct (in_dec number_eq_dec key (map fst m)) as [Hin|Hin]; [exact H|].
  apply NoDup_app; [exact H | repeat constructor; intros [] | ].
  intros x Hx [<- | []]. contradiction.
Qed.

Lemma Map_set_In (m : Map) (key : number) (v : nat) (k : number) (c : nat) :
  NoDup (map fst m) ->
  (In (k, c) (Map_set m key v)
   <-> (k = key /\ c = v) \/ (k <> key /\ In (k, c) m)).
Proof.
  induction m as [|[k' w] m IH]; simpl; intros Hnd.
  - split.
    + intros [H | []]. injection H as <- <-. now left.
    + intros [[-> ->] | [_ []]]. now left.
  - inversion Hnd as [|? ? Hk Hm]; subst.
    destruct (same_value_zero k' key) eqn:E.
    + apply same_value_zero_eq in E. subst k'. simpl. split.
      * intros [H | H]; [injection H as <- <-; now left|].
        right. split; [|now right]. intros ->. apply Hk.
        change key with (fst (key, c)). now apply in_map.
      * intros [[-> ->] | [Hne [H | H]]]; [now left | congruence | now right].
    + apply same_value_zero_neq in E. simpl. rewrite (IH Hm). split.
      * intros [H | [H | H]]; [injection H as <- <-|tauto|tauto].
        right. split; [exact E | now left].
      * intros [H | [Hne [H | H]]]; [tauto | now left | tauto].
Qed.

Lemma occ_snoc (seen : list number) (v k : number) :
  occ (seen ++ [v]) k = occ seen k + (if number_eq_dec v k then 1 else 0).
Proof.
  unfold occ. rewrite count_occ_app. simpl.
  now destruct (number_eq_dec v k).
Qed.

Lemma occ_positive (seen : list number) (k : number) : In k seen <-> 0 < occ seen k.
Proof. apply count_occ_In. Qed.

(** One turn of the counting loop. *)
Lemma counted_step (seen : list number) (state : Map * nat) (v : number) :
  counted seen state -> counted (seen ++ [v]) (count_value state v).
Proof.
  destruct state as [counts maxCount]. intros (Hnd & Hin & Hmax & Hex).
  assert (Hget : match Map_get counts v with Some c => c | None => 0 end = occ seen v).
  { destruct (Map_get counts v) as [c|] eqn:E.
    - apply (Map_get_In _ _ _ Hnd) in E. now apply Hin in E.
    - apply Map_get_None in E. destruct (occ seen v) as [|n] eqn:Eo; [reflexivity|].
      exfalso. apply E. change v with (fst (v, S n)). apply in_map.
      apply Hin. split; [apply occ_positive; lia | now rewrite Eo]. }
  unfold count_value. rewrite Hget. unfold counted.
  split; [now apply Map_set_NoDup|]. split; [|split].
  - intros k c. rewrite (Map_set_In _ _ _ _ _ Hnd), Hin, occ_snoc, in_app_iff. simpl.
    destruct (number_eq_dec v k) as [->|Hne].
    + split.
      * intros [[_ ->] | [Hk _]]; [auto | congruence].
      * intros [_ ->]. now left.
    + split.
      * intros [[-> _] | [_ [Hk ->]]]; [congruence|]. split; [now left | lia].
      * intros [[Hk | [Hk | []]] ->]; [|congruence].
        right. repeat split; [congruence | exact Hk | lia].
  - intros k. rewrite occ_snoc. specialize (Hmax k).
    destruct (number_eq_dec v k) as [->|Hne]; lia.
  - right. destruct (Nat.max_spec maxCount (occ seen v + 1)) as [[Hlt ->] | [Hle ->]].
    + exists v. rewrite occ_snoc. now destruct (number_eq_dec v v).
    + destruct Hex as [-> | [k Hk]]; [lia|].
      exists k. rewrite occ_snoc. destruct (number_eq_dec v k) as [->|Hne]; lia.
Qed.

Lemma counted_loop (rest : list number) : forall seen state,
  counted seen state -> counted (seen ++ rest) (fold_left count_value rest state).
Proof.
  induction rest as [|v rest IH]; intros seen state H; simpl.
  - now rewrite app_nil_r.
  - replace (seen ++ v :: rest) with ((seen ++ [v]) ++ rest)
      by (now rewrite <- app_assoc).
    apply IH. now apply counted_step.
Qed.

Lemma counted_values (values : list number) :
  counted values (fold_left count_value values ([], 0)).
Proof.
  apply (counted_loop values [] ([], 0)). unfold counted. simpl.
  repeat split; try tauto; try (now constructor); auto.
Qed.

(** *** Sorting *)

Lemma insert_by_permutation compare (x : number) (l : list number) :
  Permutation (insert_by compare x l) (x :: l).
Proof.
  induction l as [|y l IH]; cbn [insert_by]; [reflexivity|].
  destruct (gtb (compare x y) zero); [|reflexivity].
  rewrite IH. apply perm_swap.
Qed.

Lemma sort_by_permutation compare (l : list number) : Permutation (sort_by compare l) l.
Proof.
  unfold sort_by. induction l as [|x l IH]; cbn [fold_right]; [reflexivity|].
  rewrite insert_by_permutation. now constructor.
Qed.

(** On numbers other than NaN the comparison [a - b] orders as [<=] does. *)
Lemma compare_by_difference (x y : number) :
  x <> NaN -> y <> NaN ->
  if gtb (sub x y) zero then number_le y x /\ x <> y else number_le x y.
Proof.
  intros Hx Hy. unfold number_le.
  destruct x as [a| | |], y as [b| | |]; try congruence; cbn; try tauto;
    try (split; [reflexivity | discriminate]).
  unfold Rltb, Rleb.
  destruct (Rlt_dec 0 (a + - b)) as [H|H].
  - split; [destruct (Rle_dec b a); [reflexivity | lra] |].
    intros E. injection E as ->. lra.
  - destruct (Rle_dec a b); [reflexivity | lra].
Qed.

Lemma insert_by_sorted (x : number) (l : list number) :
  x <> NaN -> ~ In NaN l ->
  Sorted number_le l -> Sorted number_le (insert_by (fun a b => sub a b) x l).
Proof.
  intros Hx. induction l as [|y l IH]; intros Hl Hs; cbn [insert_by].
  - repeat constructor.
  - assert (Hy : y <> NaN) by (intros ->; apply Hl; now left).
    pose proof (compare_by_difference x y Hx Hy) as Hc.
    destruct (gtb (sub x y) zero).
    + inversion Hs as [|? ? Hs' Hhd]; subst.
      constructor; [apply IH; [intros H; apply Hl; now right | exact Hs']|].
      destruct l as [|z l]; cbn [insert_by].
      * constructor. apply Hc.
      * destruct (gtb (sub x z) zero); constructor; [now inversion Hhd | apply Hc].
    + constructor; [exact Hs | now constructor].
Qed.

Lemma sort_by_sorted (l : list number) :
  ~ In NaN l -> Sorted number_le (sort_by (fun a b => sub a b) l).
Proof.
  unfold sort_by.
  induction l as [|x l IH]; intros Hl; cbn [fold_right]; [constructor|].
  apply insert_by_sorted.
  - intros ->. apply Hl. now left.
  - intros H. apply Hl. right.
    now apply (Permutation_in _ (sort_by_permutation (fun a b => sub a b) l)).
  - apply IH. intros H. apply Hl. now right.
Qed.

Lemma NoDup_keys_filter (f : number * nat -> bool) (m : Map) :
  NoDup (map fst m) -> NoDup (map fst (filter f m)).
Proof.
  induction m as [|e m IH]; simpl; intros H; [constructor|].
  inversion H as [|? ? Hk Hm]; subst.
  destruct (f e); simpl; [|now apply IH].
  constructor; [|now apply IH].
  intros Hin. apply Hk. apply in_map_iff in Hin as (e' & <- & He').
  apply in_map. now apply filter_In in He'.
Qed.

(** C6: [calculateMode] returns, without repetition and in ascending order,
    exactly the values that no value occurs more often than, except that it
    returns nothing when all of more than one values are distinct; a single
    value is its own mode. *)
Theorem calculateMode_most_frequent (values : list number) :
  NoDup (calculateMode values)
  /\ (forall v,
        In v (calculateMode values)
        <-> most_frequent values v /\ ~ (NoDup values /\ 1 < length values))
  /\ (~ In NaN values -> Sorted number_le (calculateMode values))
  /\ (NoDup values -> 1 < length values -> calculateMode values = [])
  /\ (forall x, calculateMode [x] = [x]).
Proof.
  assert (Hsingle : forall x, calculateMode [x] = [x]) by reflexivity.
  destruct values as [|v0 values'] eqn:Ev.
  { split; [constructor|].
    split; [intros v; split; [intros [] | intros [[[] _] _]]|].
    split; [intros _; constructor|].
    split; [reflexivity | exact Hsingle]. }
  rewrite <- Ev. assert (Hne : values <> []) by (rewrite Ev; discriminate).
  assert (Hlen : Nat.eqb (length values) 0 = false)
    by (rewrite Ev; reflexivity).
  clear Ev v0 values'.
  pose proof (counted_values values) as Hc.
  unfold calculateMode. rewrite Hlen.
  destruct (fold_left count_value values ([], 0)) as [counts maxCount].
  destruct Hc as (Hnd & Hin & Hmax & Hex).
  assert (Hpos : 1 <= maxCount).
  { destruct values as [|v values]; [congruence|].
    specialize (Hmax v). assert (0 < occ (v :: values) v) by (apply occ_positive; now left).
    lia. }
  assert (Hach : exists k, occ values k = maxCount) by (destruct Hex; [lia | assumption]).
  assert (Hone : maxCount = 1 <-> NoDup values).
  { split.
    - intros ->. apply (NoDup_count_occ number_eq_dec). exact Hmax.
    - intros H. destruct Hach as [k Hk].
      rewrite (NoDup_count_occ number_eq_dec) in H. specialize (H k).
      unfold occ in Hk. lia. }
  assert (Hmode : forall v, most_frequent values v
                            <-> In v values /\ occ values v = maxCount).
  { intros v. unfold most_frequent. split; intros [H1 H2]; split; try assumption.
    - destruct Hach as [k Hk]. specialize (H2 k). specialize (Hmax v). lia.
    - intros w. specialize (Hmax w). lia. }
  destruct (Nat.eqb maxCount 1 && Nat.ltb 1 (length values)) eqn:Eb.
  - apply andb_true_iff in Eb as [E1 E2].
    apply Nat.eqb_eq in E1. apply Nat.ltb_lt in E2.
    split; [constructor|].
    split; [intros v; split;
            [intros [] | intros [_ Hnot]; exfalso; apply Hnot; split;
                         [now apply Hone | exact E2]]|].
    split; [intros _; constructor|].
    split; [reflexivity | exact Hsingle].
  - assert (Hnot : ~ (NoDup values /\ 1 < length values)).
    { intros [H1 H2]. apply Hone in H1. apply Nat.eqb_eq in H1.
      apply Nat.ltb_lt in H2. rewrite H1, H2 in Eb. discriminate. }
    set (modes := map fst (filter (fun entry => Nat.eqb (snd entry) maxCount) counts)).
    assert (Hmodes : forall v, In v modes <-> In v values /\ occ values v = maxCount).
    { intros v. unfold modes. rewrite in_map_iff. split.
      - intros ([k c] & <- & He). apply filter_In in He as [He Hc].
        simpl in *. apply Nat.eqb_eq in Hc. apply Hin in He as [He ->]. auto.
      - intros [H1 H2]. exists (v, maxCount). split; [reflexivity|].
        apply filter_In. split; [apply Hin; auto | simpl; apply Nat.eqb_refl]. }
    pose proof (sort_by_permutation (fun a b => sub a b) modes) as Hperm.
    split; [|split; [|split; [|split]]].
    + apply (Permutation_NoDup (Permutation_sym Hperm)).
      now apply NoDup_keys_filter.
    + intros v. split.
      * intros H. apply (Permutation_in _ Hperm) in H.
        split; [apply Hmode, Hmodes; exact H | exact Hnot].
      * intros [H _]. apply (Permutation_in _ (Permutation_sym Hperm)).
        apply Hmodes, Hmode. exact H.
    + intros Hnan. apply sort_by_sorted. intros H. apply Hnan.
      now apply Hmodes in H.
    + intros H1 H2. exfalso. apply Hnot. auto.
    + exact Hsingle.
Qed.

Lemma of_Z_injective (a b : Z) : of_Z a = of_Z b -> a = b.
Proof. intros H. injection H as H. now apply eq_IZR. Qed.

Lemma distinct_1_2_3 : NoDup [of_Z 1; of_Z 2; of_Z 3].
Proof.
  repeat constructor; simpl; intros H;
    repeat (destruct H as [H|H]; [apply of_Z_injective in H; discriminate|]);
    exact H.
Qed.

Lemma number_eq_dec_of_Z (a b : Z) (X : Type) (x y : X) :
  (if number_eq_dec (of_Z a) (of_Z b) then x else y) = if (a =? b)%Z then x else y.
Proof.
  destruct (number_eq_dec (of_Z a) (of_Z b)) as [E|E], (Z.eqb_spec a b) as [H|H];
    try reflexivity.
  - apply of_Z_injective in E. contradiction.
  - subst b. congruence.
Qed.

Lemma occ_1_2_2_3 (k : Z) :
  occ [of_Z 1; of_Z 2; of_Z 2; of_Z 3] (of_Z k)
  = if (k =? 2)%Z then 2 else if (k =? 1)%Z || (k =? 3)%Z then 1 else 0.
Proof.
  unfold occ. cbn [count_occ]. rewrite !number_eq_dec_of_Z.
  destruct (Z.eqb_spec 1 k), (Z.eqb_spec 2 k), (Z.eqb_spec 3 k),
    (Z.eqb_spec k 2), (Z.eqb_spec k 1), (Z.eqb_spec k 3); try reflexivity; lia.
Qed.

Lemma occ_at_most_2 (w : number) : occ [of_Z 1; of_Z 2; of_Z 2; of_Z 3] w <= 2.
Proof.
  unfold occ. cbn [count_occ].
  destruct (number_eq_dec (of_Z 1) w) as [E1|_],
           (number_eq_dec (of_Z 2) w) as [E2|_],
           (number_eq_dec (of_Z 3) w) as [E3|_]; try lia; exfalso; subst w;
    match goal with
    | H : of_Z _ = of_Z _ |- _ => apply of_Z_injective in H; discriminate H
    end.
Qed.

(** The examples of the specification: distinct values have no mode, a single
    value is its own mode, and 2 is among the modes of 1, 2, 2, 3 while 1 is
    not. *)
Lemma calculateMode_most_frequent_witness :
  calculateMode [of_Z 1; of_Z 2; of_Z 3] = []
  /\ calculateMode [of_Z 7] = [of_Z 7]
  /\ In (of_Z 2) (calculateMode [of_Z 1; of_Z 2; of_Z 2; of_Z 3])
  /\ ~ In (of_Z 1) (calculateMode [of_Z 1; of_Z 2; of_Z 2; of_Z 3]).
Proof.
  destruct (calculateMode_most_frequent [of_Z 1; of_Z 2; of_Z 3])
    as (_ & _ & _ & Hdistinct & Hsingle).
  split; [apply Hdistinct; [exact distinct_1_2_3 | simpl; lia]|].
  split; [apply Hsingle|].
  destruct (calculateMode_most_frequent [of_Z 1; of_Z 2; of_Z 2; of_Z 3])
    as (_ & Hin & _).
  assert (Hdup : ~ (NoDup [of_Z 1; of_Z 2; of_Z 2; of_Z 3] /\ 1 < 4)).
  { intros [Hd _]. inversion Hd as [|? ? _ Hd']. inversion Hd' as [|? ? Hn _].
    apply Hn. now left. }
  split.
  - apply Hin. split; [|exact Hdup]. split; [right; now left|].
    intros w. rewrite (occ_1_2_2_3 2). apply occ_at_most_2.
  - intros H. apply Hin in H as [[_ Hmost] _].
    specialize (Hmost (of_Z 2)). rewrite (occ_1_2_2_3 2), (occ_1_2_2_3 1) in Hmost.
    simpl in Hmost. lia.
Defined.

(** *** The inverse normal distribution *)

Local Open Scope R_scope.











Local Close Scope R_scope.

Lemma leb_of_Z (a b : Z) : leb (of_Z a) (of_Z b) = (a <=? b)%Z.
Proof.
  cbn. destruct (Z.leb_spec a b) as [H|H].
  - apply Rleb_le. now apply IZR_le.
  - apply Rleb_false. now apply IZR_lt.
Qed.

(** *** The tests of the repository, in the model *)

Section RepositoryTests.
Local Opaque of_Z add sub mul div.

Ltac run_sort :=
  unfold sort_by; cbn [fold_right];
  repeat (cbn [insert_by]; rewrite ?gtb_sub_of_Z;
          cbn [Z.ltb Z.compare Pos.compare Pos.compare_cont]).

Example mean_and_median_tests :
  calculateMean [of_Z 1; of_Z 2; of_Z 3; of_Z 4; of_Z 5] = of_Z 3
  /\ calculateMedian [of_Z 1; of_Z 2; of_Z 3; of_Z 4; of_Z 5] = of_Z 3
  /\ calculateMedian [of_Z 5; of_Z 1; of_Z 3; of_Z 2; of_Z 4] = of_Z 3
  /\ calculateMedian [of_Z 1; of_Z 2; of_Z 3; of_Z 4] = dec 25 (-1).
Proof.
  repeat split.
  - unfold calculateMean. cbn [length Nat.eqb fold_left].
    change zero with (of_Z 0). rewrite !add_of_Z, of_nat_of_Z.
    now rewrite div_of_Z by (vm_compute; congruence).
  - unfold calculateMedian. cbn [length Nat.eqb]. run_sort. reflexivity.
  - unfold calculateMedian. cbn [length Nat.eqb]. run_sort. reflexivity.
  - unfold calculateMedian. cbn [length Nat.eqb]. run_sort.
    cbn [length Nat.modulo Nat.div Nat.divmod fst snd Nat.sub Nat.eqb item nth].
    rewrite add_of_Z, div_of_Z_ratio by discriminate.
    unfold dec. f_equal. simpl. lra.
Qed.

End RepositoryTests.

End StatisticsFacts.

(** ** Integers in binary64 *)

Module Binary64Facts.
Import SpecFloat Binary64.
Local Open Scope Z_scope.

Lemma digits2_log2 (p : positive) : Zpos (digits2_pos p) = Z.log2 (Zpos p) + 1.
Proof.
  assert (H : forall q, digits2_pos q = Pos.size q)
    by (induction q as [q IH|q IH|]; cbn; now rewrite ?IH).
  rewrite H. destruct p; cbn; lia.
Qed.

Lemma digits2_bounds (p : positive) :
  2 ^ (Zpos (digits2_pos p) - 1) <= Zpos p < 2 ^ Zpos (digits2_pos p).
Proof.
  rewrite digits2_log2. replace (Z.log2 (Zpos p) + 1 - 1) with (Z.log2 (Zpos p)) by lia.
  replace (Z.log2 (Zpos p) + 1) with (Z.succ (Z.log2 (Zpos p))) by lia.
  apply Z.log2_spec. lia.
Qed.

Lemma iter_xO (d m : positive) : Zpos (Pos.iter xO m d) = Zpos m * 2 ^ Zpos d.
Proof.
  revert m. induction d as [|d IH] using Pos.peano_ind; intros m.
  - cbn. lia.
  - rewrite Pos.iter_succ, Pos2Z.inj_succ, Z.pow_succ_r by lia.
    rewrite Pos2Z.inj_xO, IH. lia.
Qed.

Lemma shr_exact (d : positive) : forall m : positive,
  iter_pos shr_1 d {| shr_m := Zpos (Pos.iter xO m d); shr_r := false; shr_s := false |}
  = {| shr_m := Zpos m; shr_r := false; shr_s := false |}.
Proof.
  induction d as [d IH|d IH|]; intros m; cbn [iter_pos Pos.iter].
  - cbn [shr_1 orb]. now rewrite !IH.
  - now rewrite !IH.
  - reflexivity.
Qed.

(** A positive integer below [2 ^ 53], as a number. *)
Definition canonical (c : positive) : number :=
  S754_finite false
    (Pos.shiftl c (Z.to_N (prec - Zpos (digits2_pos c))))
    (Zpos (digits2_pos c) - prec).

Lemma digits2_shiftl (c : positive) (n : N) :
  Zpos (digits2_pos (Pos.shiftl c n)) = Zpos (digits2_pos c) + Z.of_N n.
Proof.
  rewrite !digits2_log2.
  assert (Zpos (Pos.shiftl c n) = Zpos c * 2 ^ Z.of_N n) as ->.
  { destruct n as [|d]; cbn [Pos.shiftl]; [cbn; lia | apply iter_xO]. }
  rewrite Z.log2_mul_pow2 by lia. lia.
Qed.

Lemma shiftl_value (c : positive) (n : N) : Zpos (Pos.shiftl c n) = Zpos c * 2 ^ Z.of_N n.
Proof. destruct n as [|d]; cbn [Pos.shiftl]; [cbn; lia | apply iter_xO]. Qed.

(** A mantissa of 53 digits with its exponent in range is left as it is. *)
Lemma shr_fexp_full (m : positive) (e : Z) :
  Zpos (digits2_pos m) = prec -> emin prec emax <= e <= emax - prec ->
  shr_fexp prec emax (Zpos m) e loc_Exact
  = ({| shr_m := Zpos m; shr_r := false; shr_s := false |}, e).
Proof.
  intros Hd He. unfold shr_fexp. cbn [Zdigits2 shr_record_of_loc]. rewrite Hd.
  assert (Hf : fexp prec emax (prec + e) - e = 0)
    by (unfold fexp, emin, prec, emax in *; lia).
  now rewrite Hf.
Qed.

Lemma binary_round_aux_full (s : bool) (m : positive) (e : Z) :
  Zpos (digits2_pos m) = prec -> emin prec emax <= e <= emax - prec ->
  binary_round_aux prec emax s (Zpos m) e loc_Exact = S754_finite s m e.
Proof.
  intros Hd He. unfold binary_round_aux.
  rewrite shr_fexp_full by assumption.
  cbn [shr_m loc_of_shr_record round_nearest_even].
  rewrite shr_fexp_full by assumption. cbn [shr_m].
  replace (e <=? emax - prec) with true by (symmetry; apply Z.leb_le; lia).
  reflexivity.
Qed.

(** A number with at most 53 digits after a shift is its canonical form,
    however far it was shifted. *)
Lemma binary_round_shifted (s : bool) (c : positive) (j : N) :
  Zpos (digits2_pos c) <= prec ->
  binary_round prec emax s (Pos.shiftl c j) (- Z.of_N j)
  = S754_finite s (Pos.shiftl c (Z.to_N (prec - Zpos (digits2_pos c))))
      (Zpos (digits2_pos c) - prec).
Proof.
  intros Hd. pose proof (Pos2Z.is_pos (digits2_pos c)) as Hpos.
  set (D := Zpos (digits2_pos c)) in *.
  assert (Hfull : Zpos (digits2_pos (Pos.shiftl c (Z.to_N (prec - D)))) = prec).
  { rewrite digits2_shiftl. fold D. rewrite Z2N.id by lia. lia. }
  assert (Hrange : emin prec emax <= D - prec <= emax - prec)
    by (unfold emin, prec, emax in *; lia).
  unfold binary_round.
  rewrite digits2_shiftl. fold D.
  replace (D + Z.of_N j + - Z.of_N j) with D by lia.
  assert (Hf : fexp prec emax D = D - prec) by (unfold fexp, emin, prec, emax in *; lia).
  rewrite Hf. unfold shl_align.
  destruct (D - prec - - Z.of_N j) as [|p|d] eqn:E.
  - (* shifted as far as needed *)
    assert (j = Z.to_N (prec - D)) as -> by lia.
    replace (- Z.of_N (Z.to_N (prec - D))) with (D - prec) by lia.
    now apply binary_round_aux_full.
  - (* shifted too far: the surplus is shifted out again *)
    assert (Pos.shiftl c j = Pos.iter xO (Pos.shiftl c (Z.to_N (prec - D))) p) as ->.
    { apply Pos2Z.inj. rewrite iter_xO, !shiftl_value, Z2N.id by lia.
      rewrite <- Z.mul_assoc, <- Z.pow_add_r by lia. do 2 f_equal. lia. }
    unfold binary_round_aux, shr_fexp at 1.
    cbn [Zdigits2 shr_record_of_loc].
    assert (Hd2 : Zpos (digits2_pos (Pos.iter xO (Pos.shiftl c (Z.to_N (prec - D))) p))
                  = prec + Zpos p).
    { rewrite digits2_log2, iter_xO, Z.log2_mul_pow2 by lia.
      rewrite digits2_log2 in Hfull. lia. }
    rewrite Hd2.
    assert (Hn : fexp prec emax (prec + Zpos p + - Z.of_N j) - - Z.of_N j = Zpos p)
      by (unfold fexp, emin, prec, emax in *; lia).
    rewrite Hn. cbn [shr]. rewrite shr_exact.
    cbn [shr_m loc_of_shr_record round_nearest_even].
    replace (- Z.of_N j + Zpos p) with (D - prec) by lia.
    rewrite shr_fexp_full by assumption. cbn [shr_m].
    replace (D - prec <=? emax - prec) with true by (symmetry; apply Z.leb_le; lia).
    reflexivity.
  - (* not shifted far enough *)
    assert (Pos.iter xO (Pos.shiftl c j) d = Pos.shiftl c (Z.to_N (prec - D))) as ->.
    { apply Pos2Z.inj. rewrite iter_xO, !shiftl_value, Z2N.id by lia.
      rewrite <- Z.mul_assoc, <- Z.pow_add_r by lia. do 2 f_equal. lia. }
    now apply binary_round_aux_full.
Qed.

Lemma canonical_digits (c : positive) :
  Zpos c < 2 ^ prec -> Zpos (digits2_pos c) <= prec.
Proof.
  intros Hc. pose proof (digits2_bounds c) as [Hlo _].
  destruct (Z_le_gt_dec (Zpos (digits2_pos c)) prec) as [H|H]; [exact H|exfalso].
  assert (2 ^ prec <= 2 ^ (Zpos (digits2_pos c) - 1))
    by (apply Z.pow_le_mono_r; unfold prec in *; lia).
  lia.
Qed.

Lemma of_Z_pos (c : positive) : Zpos c < 2 ^ prec -> of_Z (Zpos c) = canonical c.
Proof.
  intros Hc. unfold of_Z, canonical. cbn [binary_normalize].
  exact (binary_round_shifted false c 0 (canonical_digits c Hc)).
Qed.

Lemma of_Z_neg (c : positive) :
  Zpos c < 2 ^ prec -> of_Z (Zneg c) = SFopp (canonical c).
Proof.
  intros Hc. unfold of_Z, canonical. cbn [binary_normalize SFopp negb].
  exact (binary_round_shifted true c 0 (canonical_digits c Hc)).
Qed.

(** An integer of at most 53 digits is the same number at every scale. *)
Lemma binary_normalize_shifted (z : Z) (j : N) :
  Z.abs z < 2 ^ prec ->
  binary_normalize prec emax (z * 2 ^ Z.of_N j) (- Z.of_N j) false = of_Z z.
Proof.
  intros Hz. destruct z as [|c|c].
  - reflexivity.
  - rewrite <- shiftl_value. unfold of_Z. cbn [binary_normalize].
    rewrite (binary_round_shifted false c j) by auto using canonical_digits.
    symmetry. exact (binary_round_shifted false c 0 (canonical_digits c Hz)).
  - replace (Z.neg c * 2 ^ Z.of_N j) with (Z.neg (Pos.shiftl c j))
      by (rewrite <- !Pos2Z.opp_pos, shiftl_value; lia).
    unfold of_Z. cbn [binary_normalize].
    rewrite (binary_round_shifted true c j) by auto using canonical_digits.
    symmetry. exact (binary_round_shifted true c 0 (canonical_digits c Hz)).
Qed.

(** The mantissa of the canonical form, as an integer. *)
Lemma canonical_mantissa_value (c : positive) :
  Zpos c < 2 ^ prec ->
  Zpos (Pos.shiftl c (Z.to_N (prec - Zpos (digits2_pos c))))
  = Zpos c * 2 ^ (prec - Zpos (digits2_pos c)).
Proof.
  intros Hc. pose proof (canonical_digits c Hc). rewrite shiftl_value, Z2N.id by lia.
  reflexivity.
Qed.

Lemma compare_canonical (a b : positive) :
  Zpos a < 2 ^ prec -> Zpos b < 2 ^ prec ->
  SFcompare (canonical a) (canonical b) = Some (Pos.compare a b).
Proof.
  intros Ha Hb. unfold canonical. cbn [SFcompare]. f_equal.
  pose proof (digits2_bounds a) as [La Ua]. pose proof (digits2_bounds b) as [Lb Ub].
  pose proof (canonical_digits a Ha) as Da. pose proof (canonical_digits b Hb) as Db.
  destruct (Z.compare_spec (Zpos (digits2_pos a) - prec) (Zpos (digits2_pos b) - prec))
    as [E|E|E].
  - assert (E' : digits2_pos a = digits2_pos b) by lia. rewrite E'.
    change (Pos.compare_cont Eq ?x ?y) with (Pos.compare x y).
    rewrite !Pos2Z.inj_compare, !shiftl_value.
    assert (0 < 2 ^ Z.of_N (Z.to_N (prec - Zpos (digits2_pos b))))
      by (apply Z.pow_pos_nonneg; lia).
    destruct (Z.compare_spec (Zpos a) (Zpos b)) as [C|C|C].
    + rewrite C. apply Z.compare_refl.
    + apply Z.compare_lt_iff. nia.
    + apply Z.compare_gt_iff. nia.
  - symmetry. apply Pos.compare_lt_iff.
    assert (2 ^ Zpos (digits2_pos a) <= 2 ^ (Zpos (digits2_pos b) - 1))
      by (apply Z.pow_le_mono_r; lia).
    lia.
  - symmetry. apply Pos.compare_gt_iff.
    assert (2 ^ Zpos (digits2_pos b) <= 2 ^ (Zpos (digits2_pos a) - 1))
      by (apply Z.pow_le_mono_r; lia).
    lia.
Qed.

(** The order of the integers from 0 to [2 ^ 53] is the order of their
    numbers. *)
Lemma compare_of_Z (a b : Z) :
  0 <= a < 2 ^ prec -> 0 <= b < 2 ^ prec ->
  SFcompare (of_Z a) (of_Z b) = Some (a ?= b).
Proof.
  intros Ha Hb. destruct a as [|a|a], b as [|b|b]; try lia; try reflexivity.
  - rewrite of_Z_pos by lia. reflexivity.
  - rewrite of_Z_pos by lia. reflexivity.
  - rewrite !of_Z_pos by lia. apply compare_canonical; lia.
Qed.

Lemma ltb_integers (a b : Z) :
  0 <= a < 2 ^ prec -> 0 <= b < 2 ^ prec -> ltb (of_Z a) (of_Z b) = (a <? b).
Proof.
  intros Ha Hb. unfold ltb, SFltb, Z.ltb. rewrite compare_of_Z by assumption.
  now destruct (a ?= b).
Qed.

Lemma gtb_integers (a b : Z) :
  0 <= a < 2 ^ prec -> 0 <= b < 2 ^ prec -> gtb (of_Z a) (of_Z b) = (b <? a).
Proof. intros Ha Hb. unfold gtb. now apply ltb_integers. Qed.

Lemma leb_integers (a b : Z) :
  0 <= a < 2 ^ prec -> 0 <= b < 2 ^ prec -> leb (of_Z a) (of_Z b) = (a <=? b).
Proof.
  intros Ha Hb. unfold leb, SFleb, Z.leb. rewrite compare_of_Z by assumption.
  now destruct (a ?= b).
Qed.

Lemma strict_eqb_integers (a b : Z) :
  0 <= a < 2 ^ prec -> 0 <= b < 2 ^ prec -> strict_eqb (of_Z a) (of_Z b) = (a =? b).
Proof.
  intros Ha Hb. unfold strict_eqb, SFeqb. rewrite compare_of_Z by assumption.
  destruct (Z.compare_spec a b), (Z.eqb_spec a b); try reflexivity; lia.
Qed.

Lemma shl_align_value (m : positive) (e e' : Z) :
  e' <= e -> Zpos (fst (shl_align m e e')) = Zpos m * 2 ^ (e - e').
Proof.
  intros He. unfold shl_align. destruct (e' - e) as [|p|d] eqn:E; try lia; cbn [fst].
  - replace (e - e') with 0 by lia. cbn. lia.
  - rewrite iter_xO. do 2 f_equal. lia.
Qed.

(** Sums and differences of canonical numbers, before rounding. *)
Lemma aligned_canonical (a b : positive) :
  Zpos a < 2 ^ prec -> Zpos b < 2 ^ prec ->
  let ea := Zpos (digits2_pos a) - prec in
  let eb := Zpos (digits2_pos b) - prec in
  let ma := Pos.shiftl a (Z.to_N (prec - Zpos (digits2_pos a))) in
  let mb := Pos.shiftl b (Z.to_N (prec - Zpos (digits2_pos b))) in
  exists j : N,
    Z.min ea eb = - Z.of_N j
    /\ Zpos (fst (shl_align ma ea (Z.min ea eb))) = Zpos a * 2 ^ Z.of_N j
    /\ Zpos (fst (shl_align mb eb (Z.min ea eb))) = Zpos b * 2 ^ Z.of_N j.
Proof.
  intros Ha Hb ea eb ma mb. exists (Z.to_N (- Z.min ea eb)).
  pose proof (canonical_digits a Ha) as Da. pose proof (canonical_digits b Hb) as Db.
  pose proof (Pos2Z.is_pos (digits2_pos a)). pose proof (Pos2Z.is_pos (digits2_pos b)).
  assert (Hj : Z.of_N (Z.to_N (- Z.min ea eb)) = - Z.min ea eb)
    by (subst ea eb; rewrite Z2N.id; lia).
  split; [lia|]. rewrite !shl_align_value by lia. subst ma mb.
  rewrite !canonical_mantissa_value by assumption. rewrite Hj.
  split; rewrite <- Z.mul_assoc, <- Z.pow_add_r by (subst ea eb; lia);
    do 2 f_equal; subst ea eb; lia.
Qed.

(** Below [2 ^ 53] the integers are added and subtracted exactly. *)
Lemma sub_integers (a b : Z) :
  0 <= b <= a -> a < 2 ^ prec -> sub (of_Z a) (of_Z b) = of_Z (a - b).
Proof.
  intros Hb Ha. destruct b as [|b|b]; try lia.
  - rewrite Z.sub_0_r. destruct a as [|a|a]; try lia; [reflexivity|].
    rewrite of_Z_pos by lia. reflexivity.
  - destruct a as [|a|a]; try lia.
    rewrite !(of_Z_pos a), !(of_Z_pos b) by lia. unfold sub, canonical. cbn [SFsub cond_Zopp].
    destruct (aligned_canonical a b ltac:(lia) ltac:(lia)) as (j & E & Ea & Eb).
    cbv zeta in E, Ea, Eb.
    rewrite Ea, Eb. rewrite E. rewrite <- Z.mul_sub_distr_r.
    apply binary_normalize_shifted. lia.
Qed.

Lemma add_integers (a b : Z) :
  0 <= a -> 0 <= b -> a + b < 2 ^ prec -> add (of_Z a) (of_Z b) = of_Z (a + b).
Proof.
  intros Ha Hb Hs. destruct a as [|a|a], b as [|b|b]; try lia; try reflexivity.
  - rewrite Z.add_0_l, of_Z_pos by lia. reflexivity.
  - rewrite Z.add_0_r, of_Z_pos by lia. reflexivity.
  - rewrite !(of_Z_pos a), !(of_Z_pos b) by lia. unfold add, canonical. cbn [SFadd cond_Zopp].
    destruct (aligned_canonical a b ltac:(lia) ltac:(lia)) as (j & E & Ea & Eb).
    cbv zeta in E, Ea, Eb.
    rewrite Ea, Eb. rewrite E. rewrite <- Z.mul_add_distr_r.
    apply binary_normalize_shifted. lia.
Qed.

Lemma integer_value_of_Z (z : Z) :
  Z.abs z < 2 ^ prec -> isInteger (of_Z z) = true /\ integer_value (of_Z z) = Some z.
Proof.
  intros Hz.
  assert (H : forall s c, Zpos c < 2 ^ prec ->
            let x := S754_finite s (Pos.shiftl c (Z.to_N (prec - Zpos (digits2_pos c))))
                       (Zpos (digits2_pos c) - prec) in
            isInteger x = true /\ integer_value x = Some (cond_Zopp s (Zpos c))).
  { intros s c Hc x. pose proof (canonical_digits c Hc) as Dc.
    pose proof (Pos2Z.is_pos (digits2_pos c)) as Hp.
    assert (Hi : isInteger x = true).
    { subst x. cbn [isInteger]. apply orb_true_iff.
      destruct (Z.leb_spec 0 (Zpos (digits2_pos c) - prec)) as [H0|H0]; [now left|right].
      apply Z.eqb_eq. rewrite canonical_mantissa_value by assumption.
      replace (- (Zpos (digits2_pos c) - prec)) with (prec - Zpos (digits2_pos c)) by lia.
      rewrite Z.land_ones by lia.
      apply Z.mod_mul. apply Z.pow_nonzero; lia. }
    split; [exact Hi|]. unfold integer_value. fold x. rewrite Hi. subst x.
    cbv beta iota. do 2 f_equal.
    rewrite canonical_mantissa_value by assumption.
    destruct (Z.leb_spec 0 (Zpos (digits2_pos c) - prec)) as [H0|H0].
    - replace (prec - Zpos (digits2_pos c)) with 0 by lia.
      replace (Zpos (digits2_pos c) - prec) with 0 by lia. cbn. lia.
    - rewrite <- (Z.shiftr_opp_r _ (Zpos (digits2_pos c) - prec)).
      replace (- (Zpos (digits2_pos c) - prec)) with (prec - Zpos (digits2_pos c)) by lia.
      rewrite Z.shiftr_div_pow2 by lia.
      apply Z.div_mul. apply Z.pow_nonzero; lia. }
  destruct z as [|c|c].
  - split; reflexivity.
  - rewrite of_Z_pos by lia. exact (H false c ltac:(lia)).
  - rewrite of_Z_neg by lia. unfold canonical. cbn [SFopp negb]. exact (H true c ltac:(lia)).
Qed.

End Binary64Facts.

(** ** The combinatorial functions *)

Module CombinatoricsFacts.
Import JsString Completion Binary64 Binary64Facts Combinatorics CombinatoricsSpec
  CombinatoricsChecks.
Local Open Scope Z_scope.

Lemma isInteger_integers (z : Z) : Z.abs z < 2 ^ prec -> isInteger (of_Z z) = true.
Proof. intros H. apply integer_value_of_Z, H. Qed.

Lemma ltb_zero_of_Z (z : Z) : 0 <= z < 2 ^ prec -> ltb (of_Z z) zero = false.
Proof.
  intros H. change zero with (of_Z 0). rewrite ltb_integers by (unfold prec in *; lia).
  apply Z.ltb_ge. lia.
Qed.

(** *** The loops *)


Lemma factorial_loop_spec (n : Z) :
  n < 2 ^ prec - 1 ->
  forall (t j fuel : nat),
    (Z.of_nat (S j) + Z.of_nat t = n + 1) -> (t < fuel)%nat ->
    for_loop fuel (fun i => leb i (of_Z n)) (of_Z (Z.of_nat (S j))) (fun i => add i one)
      (fun i result => mul result i) (rounded_product j)
    = Some (rounded_product (Z.to_nat n)).
Proof.
  intros Hn. induction t as [|t IH]; intros j fuel Hj Hf;
    (destruct fuel as [|fuel]; [lia|]); cbn [for_loop];
    rewrite leb_integers by lia.
  - replace (Z.of_nat (S j) <=? n) with false by (symmetry; apply Z.leb_gt; lia).
    do 2 f_equal. lia.
  - replace (Z.of_nat (S j) <=? n) with true by (symmetry; apply Z.leb_le; lia).
    change one with (of_Z 1). rewrite add_integers by lia.
    replace (Z.of_nat (S j) + 1) with (Z.of_nat (S (S j))) by lia.
    apply (IH (S j) fuel); lia.
Qed.

Lemma permutations_loop_spec (n r : Z) :
  0 <= r <= n -> n < 2 ^ prec ->
  forall (t j fuel : nat),
    (Z.of_nat j + Z.of_nat t = r) -> (t < fuel)%nat ->
    for_loop fuel (fun i => gtb i (of_Z (n - r))) (of_Z (n - Z.of_nat j))
      (fun i => sub i one) (fun i result => mul result i) (rounded_falling n j)
    = Some (rounded_falling n (Z.to_nat r)).
Proof.
  intros Hr Hn. induction t as [|t IH]; intros j fuel Hj Hf;
    (destruct fuel as [|fuel]; [lia|]); cbn [for_loop];
    rewrite gtb_integers by lia.
  - replace (n - r <? n - Z.of_nat j) with false by (symmetry; apply Z.ltb_ge; lia).
    do 2 f_equal. lia.
  - replace (n - r <? n - Z.of_nat j) with true by (symmetry; apply Z.ltb_lt; lia).
    change one with (of_Z 1). rewrite sub_integers by lia.
    replace (n - Z.of_nat j - 1) with (n - Z.of_nat (S j)) by lia.
    apply (IH (S j) fuel); lia.
Qed.

(** *** The functions at integers *)

Ltac guards_of_Z :=
  change zero with (of_Z 0); change one with (of_Z 1);
  rewrite ?ltb_integers, ?gtb_integers, ?strict_eqb_integers, ?isInteger_integers by (unfold prec in *; lia).



(** *** Binomial coefficients *)

Local Open Scope nat_scope.







Local Close Scope nat_scope.

Lemma factZ_fact (n : nat) : factZ n = Z.of_nat (fact n).
Proof.
  induction n as [|n IH]; [reflexivity|].
  cbn [factZ fact]. rewrite IH. lia.
Qed.

Lemma factZ_positive (n : nat) : 0 < factZ n.
Proof. rewrite factZ_fact. pose proof (lt_O_fact n). lia. Qed.





(** *** Factorials and falling products *)

Lemma ltb_negative (z : Z) : - 2 ^ prec < z < 0 -> ltb (of_Z z) zero = true.
Proof.
  intros H. destruct z as [|c|c]; try lia.
  rewrite of_Z_neg by lia. reflexivity.
Qed.

Lemma close_to_spec (bits bound P : Z) (v : number) :
  close_to bits bound P v = true ->
  exists F, integer_value v = Some F
            /\ Z.abs (F - P) * 2 ^ bits <= P
            /\ (P < bound -> F = P).
Proof.
  unfold close_to. destruct (integer_value v) as [F|]; [|discriminate].
  intros H. apply andb_true_iff in H as [H1 H2]. exists F. split; [reflexivity|].
  split; [now apply Z.leb_le|]. intros Hb.
  apply orb_true_iff in H2 as [H2|H2]; [apply Z.leb_le in H2; lia | now apply Z.eqb_eq].
Qed.

Lemma products_close_spec (count : nat) :
  forall k : nat,
    products_close count k (rounded_product k) (factZ k) = true ->
    forall i : nat, (k <= i < k + count)%nat ->
      close_to 50 (factZ 23) (factZ i) (rounded_product i) = true.
Proof.
  induction count as [|count IH]; intros k H i Hi; [lia|].
  cbn [products_close] in H. apply andb_true_iff in H as [H0 H].
  destruct (Nat.eq_dec i k) as [->|Hne]; [exact H0|].
  apply (IH (S k)); [exact H | lia].
Qed.

Lemma products_close_to_170 : products_close 171 0 one 1 = true.
Proof. vm_compute. reflexivity. Qed.

Lemma fallings_close_spec (n : Z) (count : nat) :
  forall j : nat,
    fallings_close n count j (rounded_falling n j) (fallingZ n j) = true ->
    forall i : nat, (j <= i < j + count)%nat ->
      close_or_overflown 49 (2 ^ 53) (fallingZ n i) (rounded_falling n i) = true.
Proof.
  induction count as [|count IH]; intros j H i Hi; [lia|].
  cbn [fallings_close] in H. apply andb_true_iff in H as [H0 H].
  destruct (Nat.eq_dec i j) as [->|Hne]; [exact H0|].
  apply (IH (S j)); [exact H | lia].
Qed.

Lemma fallings_close_to_170 :
  forallb (fun n => fallings_close (Z.of_nat n) (S n) 0 one 1) (seq 0 171) = true.
Proof. vm_compute. reflexivity. Qed.

(** X19: for an integer [n] from 0 to 170, [factorial] of [statistics.ts]
    ends and returns an integer that differs from [n!] by at most
    [n! / 2 ^ 50], and that is [n!] for [n <= 22] (23! is not a binary64
    number); above 170 it returns [Infinity], and below 0 it raises. *)
Theorem factorial_accuracy (n : Z) (fuel : nat) :
  Z.abs n < 2 ^ 53 -> (170 <= fuel)%nat ->
  (n < 0 ->
   factorial fuel (of_Z n)
   = Some (Throw (new_Error (js "Factorial requires a non-negative integer"))))
  /\ (170 < n -> factorial fuel (of_Z n) = Some (Normal PosInfinity))
  /\ (0 <= n <= 170 ->
      exists v F,
        factorial fuel (of_Z n) = Some (Normal v)
        /\ integer_value v = Some F
        /\ Z.abs (F - factZ (Z.to_nat n)) * 2 ^ 50 <= factZ (Z.to_nat n)
        /\ (n <= 22 -> F = factZ (Z.to_nat n))).
Proof.
  change (2 ^ 53) with (2 ^ prec). intros Hn Hf. repeat split.
  - intros H. unfold factorial. rewrite ltb_negative by lia. reflexivity.
  - intros H. unfold factorial. rewrite ltb_zero_of_Z, isInteger_integers by lia.
    guards_of_Z.
    replace (n =? 0) with false by (symmetry; apply Z.eqb_neq; lia).
    replace (n =? 1) with false by (symmetry; apply Z.eqb_neq; lia).
    replace (170 <? n) with true by (symmetry; apply Z.ltb_lt; lia).
    reflexivity.
  - intros H.
    assert (Hv : factorial fuel (of_Z n) = Some (Normal (rounded_product (Z.to_nat n)))).
    { unfold factorial. rewrite ltb_zero_of_Z, isInteger_integers by lia. guards_of_Z.
      cbn [orb negb].
      destruct (Z.eqb_spec n 0) as [->|H0]; [reflexivity|].
      destruct (Z.eqb_spec n 1) as [->|H1]; [reflexivity|].
      cbn [orb].
      replace (170 <? n) with false by (symmetry; apply Z.ltb_ge; lia).
      pose proof (factorial_loop_spec n ltac:(unfold prec; lia)
                    (Z.to_nat (n - 1)) 1 fuel ltac:(lia) ltac:(lia)) as L.
      change (of_Z (Z.of_nat 2)) with (of_Z 2) in L.
      change (rounded_product 1) with one in L.
      change (of_Z 1) with one. now rewrite L. }
    pose proof (products_close_spec 171 0 products_close_to_170 (Z.to_nat n) ltac:(lia))
      as C.
    apply close_to_spec in C as (F & HF & Hc & He).
    exists (rounded_product (Z.to_nat n)), F. repeat split; try assumption.
    intros H22. apply He.
    assert (Hm : forall i j : nat, (i <= j)%nat -> factZ i <= factZ j).
    { intros i j Hij. induction Hij as [|j Hij IH]; [lia|].
      cbn [factZ]. pose proof (factZ_positive j). nia. }
    assert (factZ (Z.to_nat n) <= factZ 22) by (apply Hm; lia).
    assert (factZ 22 < factZ 23) by (vm_compute; reflexivity).
    lia.
Qed.

Lemma factorial_accuracy_witness :
  exists v F,
    factorial 170 (of_Z 28) = Some (Normal v)
    /\ integer_value v = Some F
    /\ Z.abs (F - factZ (Z.to_nat 28)) * 2 ^ 50 <= factZ (Z.to_nat 28)
    /\ (28 <= 22 -> F = factZ (Z.to_nat 28)).
Proof.
  apply (factorial_accuracy 28 170); [vm_compute; reflexivity | lia | lia].
Defined.

(** X20: for integers [n] and [r] below [2 ^ 53], [permutations] of
    [statistics.ts] returns 0 for [r > n], 1 for [r = 0], and otherwise, its
    loop having ended, the product [n (n - 1) ... (n - r + 1)] with every
    multiplication rounded to binary64.  Up to [n = 170] that is
    [n! / (n - r)!] itself where this is below [2 ^ 53], an integer within
    [1 / 2 ^ 49] of it where it is larger, and [Infinity] only where it is
    [2 ^ 1023] or more. *)
Theorem permutations_accuracy (n r : Z) (fuel : nat) :
  0 <= n < 2 ^ 53 -> 0 <= r < 2 ^ 53 ->
  (n < r -> permutations fuel (of_Z n) (of_Z r) = Some (Normal zero))
  /\ permutations fuel (of_Z n) zero = Some (Normal one)
  /\ (0 < r <= n -> (Z.to_nat r < fuel)%nat ->
      permutations fuel (of_Z n) (of_Z r)
      = Some (Normal (rounded_falling n (Z.to_nat r))))
  /\ (r <= n <= 170 -> (170 < fuel)%nat ->
      exists v,
        permutations fuel (of_Z n) (of_Z r) = Some (Normal v)
        /\ ((v = PosInfinity /\ 2 ^ 1023 <= fallingZ n (Z.to_nat r))
            \/ exists F,
                 integer_value v = Some F
                 /\ Z.abs (F - fallingZ n (Z.to_nat r)) * 2 ^ 49
                    <= fallingZ n (Z.to_nat r)
                 /\ (fallingZ n (Z.to_nat r) < 2 ^ 53 -> F = fallingZ n (Z.to_nat r)))).
Proof.
  change (2 ^ 53) with (2 ^ prec) at 1 2. intros Hn Hr.
  assert (Hguard : ltb (of_Z n) zero || ltb (of_Z r) zero || negb (isInteger (of_Z n))
                   || negb (isInteger (of_Z r)) = false)
    by (rewrite !ltb_zero_of_Z, !isInteger_integers by lia; reflexivity).
  assert (Hloop : 0 < r <= n -> (Z.to_nat r < fuel)%nat ->
                  permutations fuel (of_Z n) (of_Z r)
                  = Some (Normal (rounded_falling n (Z.to_nat r)))).
  { intros H Hf. unfold permutations. rewrite Hguard. guards_of_Z.
    replace (n <? r) with false by (symmetry; apply Z.ltb_ge; lia).
    replace (r =? 0) with false by (symmetry; apply Z.eqb_neq; lia).
    rewrite sub_integers by lia.
    pose proof (permutations_loop_spec n r ltac:(lia) ltac:(lia)
                  (Z.to_nat r) 0 fuel ltac:(lia) Hf) as L.
    cbn [Z.of_nat rounded_falling] in L. rewrite Z.sub_0_r in L.
    change (of_Z 1) with one. now rewrite L. }
  assert (Hzero : permutations fuel (of_Z n) zero = Some (Normal one)).
  { unfold permutations. change zero with (of_Z 0).
    rewrite !ltb_zero_of_Z, !isInteger_integers by lia. guards_of_Z.
    replace (n <? 0) with false by (symmetry; apply Z.ltb_ge; lia). reflexivity. }
  repeat split.
  - intros H. unfold permutations. rewrite Hguard. guards_of_Z.
    now replace (n <? r) with true by (symmetry; apply Z.ltb_lt; lia).
  - exact Hzero.
  - exact Hloop.
  - intros H Hf. exists (rounded_falling n (Z.to_nat r)). split.
    + destruct (Z.eq_dec r 0) as [->|H0]; [exact Hzero | apply Hloop; lia].
    + pose proof (proj1 (forallb_forall _ _) fallings_close_to_170 (Z.to_nat n)) as C.
      cbv beta in C. rewrite Z2Nat.id in C by lia.
      specialize (C ltac:(apply in_seq; lia)).
      pose proof (fallings_close_spec n _ 0 C (Z.to_nat r) ltac:(lia)) as D.
      unfold close_or_overflown in D.
      destruct (rounded_falling n (Z.to_nat r)) as [s|[|]| |s m e] eqn:E;
        try (right; now apply close_to_spec).
      left. split; [reflexivity | now apply Z.leb_le].
Qed.

Lemma permutations_accuracy_witness :
  permutations 171 (of_Z 5) (of_Z 2) = Some (Normal (rounded_falling 5 (Z.to_nat 2))).
Proof.
  apply (permutations_accuracy 5 2 171); [vm_compute | vm_compute | lia | cbn; lia];
    split; congruence || reflexivity.
Defined.




(** *** The tests of the repository, in the model *)

Example factorial_tests :
  factorial 170 (of_Z 0) = Some (Normal (of_Z 1))
  /\ factorial 170 (of_Z 1) = Some (Normal (of_Z 1))
  /\ factorial 170 (of_Z 5) = Some (Normal (of_Z 120))
  /\ factorial 170 (of_Z 10) = Some (Normal (of_Z 3628800))
  /\ factorial 170 (of_Z 171) = Some (Normal PosInfinity)
  /\ (exists e, factorial 170 (of_Z (-1)) = Some (Throw e))
  /\ (exists e, factorial 170 (div (of_Z 5) (of_Z 2)) = Some (Throw e)).
Proof.
  repeat split; try (vm_compute; reflexivity); eexists; vm_compute; reflexivity.
Qed.

Example permutations_tests :
  permutations 170 (of_Z 5) (of_Z 0) = Some (Normal (of_Z 1))
  /\ permutations 170 (of_Z 7) (of_Z 1) = Some (Normal (of_Z 7))
  /\ permutations 170 (of_Z 5) (of_Z 5) = Some (Normal (of_Z 120))
  /\ permutations 170 (of_Z 5) (of_Z 2) = Some (Normal (of_Z 20))
  /\ permutations 170 (of_Z 8) (of_Z 3) = Some (Normal (of_Z 336))
  /\ permutations 170 (of_Z 3) (of_Z 5) = Some (Normal (of_Z 0))
  /\ (exists e, permutations 170 (of_Z (-1)) (of_Z 2) = Some (Throw e)).
Proof.
  repeat split; try (vm_compute; reflexivity); eexists; vm_compute; reflexivity.
Qed.

Example combinations_tests :
  combinations 170 (of_Z 5) (of_Z 0) = Some (Normal (of_Z 1))
  /\ combinations 170 (of_Z 5) (of_Z 5) = Some (Normal (of_Z 1))
  /\ combinations 170 (of_Z 7) (of_Z 1) = Some (Normal (of_Z 7))
  /\ combinations 170 (of_Z 5) (of_Z 2) = Some (Normal (of_Z 10))
  /\ combinations 170 (of_Z 10) (of_Z 3) = Some (Normal (of_Z 120))
  /\ combinations 170 (of_Z 52) (of_Z 5) = Some (Normal (of_Z 2598960))
  /\ combinations 170 (of_Z 3) (of_Z 5) = Some (Normal (of_Z 0)).
Proof. repeat split; vm_compute; reflexivity. Qed.

(** Where the rounding shows: [28!] is 304888344611713860501504000000, and
    the binomial coefficient of 56 and 23 is 3167295784216200. *)
Example rounded_results :
  option_map (fun c => match c with Normal v => integer_value v | Throw _ => None end)
    (factorial 170 (of_Z 28))
  = Some (Some 304888344611713836734530715648%Z)
  /\ option_map (fun c => match c with Normal v => integer_value v | Throw _ => None end)
       (combinations 170 (of_Z 56) (of_Z 23))
     = Some (Some 3167295784216201%Z)
  /\ permutations 170 (of_Z 171) (of_Z 168) = Some (Normal PosInfinity).
Proof. repeat split; vm_compute; reflexivity. Qed.

End CombinatoricsFacts.

(** ** Parentheses *)

Module ParenthesesFacts.
Import JsString Engine ParenthesesSpec JsStringFacts.

Lemma paren_cases (c : code_unit) :
  (c = LPAREN /\ code_eqb c LPAREN = true /\ code_eqb c RPAREN = false)
  \/ (c = RPAREN /\ code_eqb c LPAREN = false /\ code_eqb c RPAREN = true)
  \/ (c <> LPAREN /\ c <> RPAREN /\ code_eqb c LPAREN = false /\ code_eqb c RPAREN = false).
Proof.
  destruct (code_eqb c LPAREN) eqn:E1, (code_eqb c RPAREN) eqn:E2.
  - apply code_eqb_eq in E1, E2. subst. discriminate.
  - left. apply code_eqb_eq in E1. auto.
  - right. left. apply code_eqb_eq in E2. auto.
  - right. right. apply code_eqb_neq in E1, E2. auto.
Qed.

Lemma scan_failed (s : jsstring) : fold_left balance_step s None = None.
Proof. induction s; [reflexivity | exact IHs]. Qed.

Lemma balance_step_depth (k : Z) (c : code_unit) :
  balance_step (Some k) c
  = if (k + depth [c] <? 0)%Z then None else Some (k + depth [c])%Z.
Proof.
  unfold balance_step. cbn [depth].
  destruct (paren_cases c) as [(-> & E1 & E2)|[(-> & E1 & E2)|(H1 & H2 & E1 & E2)]];
    rewrite ?E1, ?E2.
  - now replace (k + (1 - 0 + 0))%Z with (k + 1)%Z by lia.
  - now replace (k + (0 - 1 + 0))%Z with (k - 1)%Z by lia.
  - now replace (k + (0 - 0 + 0))%Z with k by lia.
Qed.

Lemma depth_cons (c : code_unit) (s : jsstring) : depth (c :: s) = (depth [c] + depth s)%Z.
Proof. cbn [depth]. lia. Qed.

Lemma depth_app (s t : jsstring) : depth (s ++ t) = (depth s + depth t)%Z.
Proof.
  induction s as [|c s IH]; [reflexivity|].
  rewrite <- app_comm_cons, (depth_cons c s), (depth_cons c (s ++ t)), IH. lia.
Qed.

(** The scan of [hasBalancedParentheses] ends with the count of the whole
    text exactly when no prefix takes the count below zero. *)
Lemma scan_spec (s : jsstring) : forall k r,
  (0 <= k)%Z ->
  fold_left balance_step s (Some k) = Some r
  <-> r = (k + depth s)%Z /\ forall n, (0 <= k + depth (firstn n s))%Z.
Proof.
  induction s as [|c s IH]; intros k r Hk.
  - cbn [fold_left depth]. split.
    + intros [= <-]. split; [lia|]. intros n. rewrite firstn_nil. cbn. lia.
    + intros [-> _]. f_equal. lia.
  - cbn [fold_left]. rewrite balance_step_depth.
    destruct (Z.ltb_spec (k + depth [c]) 0) as [Hneg|Hpos].
    + rewrite scan_failed. split; [discriminate|].
      intros [_ H]. specialize (H 1%nat). cbn [firstn] in H. lia.
    + rewrite (IH _ r Hpos), (depth_cons c s). split.
      * intros [-> H]. split; [lia|]. intros [|n]; cbn [firstn]; [cbn; lia|].
        rewrite depth_cons. specialize (H n). lia.
      * intros [-> H]. split; [lia|]. intros n. specialize (H (S n)).
        cbn [firstn] in H. rewrite depth_cons in H. lia.
Qed.

Lemma hasBalancedParentheses_scan (s : jsstring) :
  hasBalancedParentheses s
  = match fold_left balance_step s (Some 0%Z) with
    | None => false
    | Some count => (count =? 0)%Z
    end.
Proof. reflexivity. Qed.

(** [hasBalancedParentheses] in terms of counts: as many closing as opening
    parentheses, and never more closing than opening ones in a prefix. *)
Lemma hasBalancedParentheses_depth (s : jsstring) :
  hasBalancedParentheses s = true <-> depth s = 0%Z /\ never_negative s.
Proof.
  rewrite hasBalancedParentheses_scan. unfold never_negative.
  destruct (fold_left balance_step s (Some 0%Z)) as [r|] eqn:E.
  - apply scan_spec in E as [-> H]; [|lia]. rewrite Z.eqb_eq. cbn in *. tauto.
  - split; [discriminate|]. intros [H0 H].
    assert (fold_left balance_step s (Some 0%Z) = Some 0%Z) as E'
        by (apply scan_spec; [lia|]; split; [lia | exact H]).
    congruence.
Qed.

Lemma count_depth (s : jsstring) : forall k,
  fold_left (fun (count : Z) (char : code_unit) =>
               let count := if code_eqb char LPAREN then (count + 1)%Z else count in
               if code_eqb char RPAREN then (count - 1)%Z else count) s k
  = (k + depth s)%Z.
Proof.
  induction s as [|c s IH]; intros k; cbn [fold_left].
  - cbn. lia.
  - rewrite IH, (depth_cons c s). cbn [depth]. cbv zeta.
    destruct (paren_cases c) as [(-> & E1 & E2)|[(-> & E1 & E2)|(H1 & H2 & E1 & E2)]];
      rewrite ?E1, ?E2; lia.
Qed.

(** [getUnclosedParentheses] is the surplus of opening parentheses, if there
    is one. *)
Lemma getUnclosedParentheses_depth (s : jsstring) :
  getUnclosedParentheses s = Z.max 0 (depth s).
Proof. unfold getUnclosedParentheses. now rewrite count_depth. Qed.

Lemma depth_closing (n : nat) : depth (repeat RPAREN n) = (- Z.of_nat n)%Z.
Proof.
  induction n as [|n IH]; [reflexivity|].
  cbn [repeat]. rewrite depth_cons, IH. change (depth [RPAREN]) with (-1)%Z. lia.
Qed.

Lemma firstn_closing (n m : nat) :
  firstn n (repeat RPAREN m) = repeat RPAREN (Nat.min n m).
Proof.
  revert m. induction n as [|n IH]; intros [|m]; cbn; try reflexivity.
  now rewrite IH.
Qed.

(** Balanced texts scan to the count they started from. *)
Lemma balanced_depth (s : jsstring) : balanced s -> depth s = 0%Z /\ never_negative s.
Proof.
  unfold never_negative.
  induction 1 as [|c s H1 H2 _ [IH1 IH2]|s t _ [IHs1 IHs2] _ [IHt1 IHt2]].
  - split; [reflexivity|]. intros n. now rewrite firstn_nil.
  - assert (depth [c] = 0%Z) as Hc.
    { cbn. apply code_eqb_neq in H1, H2. rewrite H1, H2. reflexivity. }
    split; [rewrite depth_cons; lia|].
    intros [|n]; cbn [firstn]; [cbn; lia|]. rewrite depth_cons. specialize (IH2 n). lia.
  - split.
    + rewrite depth_cons, depth_app, (depth_cons RPAREN t).
      change (depth [LPAREN]) with 1%Z. change (depth [RPAREN]) with (-1)%Z. lia.
    + intros [|n]; cbn [firstn]; [cbn; lia|].
      rewrite depth_cons, firstn_app, depth_app.
      change (depth [LPAREN]) with 1%Z.
      specialize (IHs2 n).
      destruct (n - length s) as [|m] eqn:E; cbn [firstn].
      * change (depth []) with 0%Z. lia.
      * rewrite depth_cons. change (depth [RPAREN]) with (-1)%Z.
        rewrite firstn_all2 by lia. specialize (IHt2 m). lia.
Qed.

Lemma closes_char (k : nat) (c : code_unit) (s : jsstring) :
  c <> LPAREN -> c <> RPAREN -> closes k s -> closes k (c :: s).
Proof.
  intros H1 H2. destruct k as [|k]; cbn [closes].
  - now apply balanced_char.
  - intros (b & t & -> & Hb & Ht). exists (c :: b), t.
    split; [reflexivity|]. split; [now apply balanced_char | exact Ht].
Qed.

Lemma closes_open (k : nat) (s : jsstring) : closes (S k) s -> closes k (LPAREN :: s).
Proof.
  cbn [closes]. intros (b & t & -> & Hb & Ht). destruct k as [|k]; cbn [closes] in *.
  - now apply balanced_group.
  - destruct Ht as (b' & t' & -> & Hb' & Ht').
    exists (LPAREN :: b ++ RPAREN :: b'), t'. split.
    + cbn. now rewrite <- app_assoc.
    + split; [now apply balanced_group | exact Ht'].
Qed.

Lemma closes_close (k : nat) (s : jsstring) : closes k s -> closes (S k) (RPAREN :: s).
Proof.
  intros H. exists [], s. split; [reflexivity|]. split; [constructor | exact H].
Qed.

Lemma scan_closes (s : jsstring) : forall k,
  depth s = (- Z.of_nat k)%Z ->
  (forall n, (0 <= Z.of_nat k + depth (firstn n s))%Z) ->
  closes k s.
Proof.
  induction s as [|c s IH]; intros k Hd Hn.
  - cbn in Hd. assert (k = 0%nat) as -> by lia. constructor.
  - rewrite depth_cons in Hd.
    assert (Hn' : forall n, (0 <= Z.of_nat k + depth [c] + depth (firstn n s))%Z).
    { intros n. specialize (Hn (S n)). cbn [firstn] in Hn.
      rewrite depth_cons in Hn. lia. }
    destruct (paren_cases c) as [(-> & E1 & E2)|[(-> & E1 & E2)|(H1 & H2 & E1 & E2)]].
    + change (depth [LPAREN]) with 1%Z in *. apply closes_open, IH; [lia|].
      intros n. specialize (Hn' n). lia.
    + change (depth [RPAREN]) with (-1)%Z in *.
      destruct k as [|k].
      * specialize (Hn' 0%nat). cbn in Hn'. lia.
      * apply closes_close, IH; [lia|]. intros n. specialize (Hn' n). lia.
    + assert (depth [c] = 0%Z) as Hc by (cbn; rewrite E1, E2; reflexivity).
      rewrite Hc in *. apply closes_char; [assumption..|]. apply IH; [lia|].
      intros n. specialize (Hn' n). lia.
Qed.

(** X1: [hasBalancedParentheses] accepts exactly the texts whose parentheses
    are well nested. *)
Theorem hasBalancedParentheses_well_nested (s : jsstring) :
  hasBalancedParentheses s = true <-> balanced s.
Proof.
  rewrite hasBalancedParentheses_depth. split.
  - intros [H0 Hn]. apply (scan_closes s 0); [cbn; lia | exact Hn].
  - apply balanced_depth.
Qed.

Lemma closing_leaves_none (s : jsstring) :
  getUnclosedParentheses (s ++ closing (getUnclosedParentheses s)) = 0%Z.
Proof.
  unfold closing. rewrite !getUnclosedParentheses_depth, depth_app, depth_closing. lia.
Qed.

(** X2: closing as many parentheses as [getUnclosedParentheses] counts leaves
    none unclosed; the text is then well nested if no closing parenthesis came
    too early, and only then. *)
Theorem closing_the_unclosed (s : jsstring) :
  let closed := s ++ closing (getUnclosedParentheses s) in
  getUnclosedParentheses closed = 0%Z
  /\ (hasBalancedParentheses closed = true <-> never_negative s)
  /\ (hasBalancedParentheses s = true -> getUnclosedParentheses s = 0%Z).
Proof.
  cbn zeta. split; [apply closing_leaves_none|].
  unfold closing. rewrite !getUnclosedParentheses_depth. split.
  - rewrite hasBalancedParentheses_depth, depth_app, depth_closing.
    unfold never_negative. split.
    + intros [H0 H] n.
      destruct (Nat.le_gt_cases n (length s)) as [Hle|Hgt].
      * specialize (H n). rewrite firstn_app in H.
        replace (n - length s)%nat with 0%nat in H by lia.
        cbn [firstn] in H. now rewrite app_nil_r in H.
      * rewrite firstn_all2 by lia. lia.
    + intros H. pose proof (H (length s)) as Hs. rewrite firstn_all in Hs.
      split; [lia|]. intros n. rewrite firstn_app, depth_app, firstn_closing, depth_closing.
      destruct (Nat.le_gt_cases n (length s)) as [Hle|Hgt].
      * replace (n - length s)%nat with 0%nat by lia. specialize (H n).
        change (depth (firstn 0 _)) with 0%Z. lia.
      * rewrite firstn_all2 by lia. lia.
  - rewrite hasBalancedParentheses_depth. intros [H0 _]. lia.
Qed.

Lemma closing_the_unclosed_witness :
  never_negative (js "(1+(2")
  /\ getUnclosedParentheses (js "(1+(2" ++ closing (getUnclosedParentheses (js "(1+(2")))
     = 0%Z.
Proof.
  destruct (closing_the_unclosed (js "(1+(2")) as (H1 & H2 & _).
  split; [apply H2; reflexivity | exact H1].
Defined.

End ParenthesesFacts.

(** ** The glyph step, the percent step and plain expressions *)

Module NormalizerFacts.
Import JsString Normalizer RewriteModel NormalizerSpec JsStringFacts MultiplicationFacts.

Lemma replace_from_before (m : matcher) :
  (forall b b' rest, m b rest = m b' rest) ->
  forall rest b b' skip, replace_from m b skip rest = replace_from m b' skip rest.
Proof.
  intros Hm rest. induction rest as [|c rest IH]; intros b b' skip; [reflexivity|].
  cbn [replace_from]. destruct skip as [|k]; [|apply IH].
  rewrite (Hm b b'). destruct (m b' (c :: rest)) as [[len r]|].
  - f_equal. apply IH.
  - f_equal. apply IH.
Qed.

(** Where the expression matches nowhere, nothing is replaced. *)
Lemma replace_from_unmatched (m : matcher) (s : jsstring) :
  (forall before pre rest, s = pre ++ rest -> m before rest = None) ->
  forall before, replace_from m before 0 s = s.
Proof.
  induction s as [|c s IH]; intros Hm before; [reflexivity|].
  cbn [replace_from]. rewrite (Hm before [] (c :: s) eq_refl). f_equal.
  apply IH. intros b pre rest ->. apply (Hm b (c :: pre)). reflexivity.
Qed.

Lemma starts_with_In (pat rest : jsstring) (p : code_unit) :
  starts_with pat rest = true -> In p pat -> In p rest.
Proof.
  intros H Hp. apply starts_with_prefix in H as [r ->]. apply in_or_app. now left.
Qed.

Lemma literal_unmatched (pat r s : jsstring) (p : code_unit) :
  In p pat -> ~ In p s -> replace_all (literal pat r) s = s.
Proof.
  intros Hp Hs. apply replace_from_unmatched. intros before pre rest ->.
  unfold literal. destruct (starts_with pat rest) eqn:E; [|reflexivity].
  exfalso. apply Hs, in_or_app. right. exact (starts_with_In _ _ _ E Hp).
Qed.

Lemma word_literal_unmatched (pat r s : jsstring) (p : code_unit) :
  In p pat -> ~ In p s -> replace_all (word_literal pat r) s = s.
Proof.
  intros Hp Hs. apply replace_from_unmatched. intros before pre rest ->.
  unfold word_literal. destruct (starts_with pat rest) eqn:E; [|reflexivity].
  exfalso. apply Hs, in_or_app. right. exact (starts_with_In _ _ _ E Hp).
Qed.

(** *** The glyph step *)

Lemma replace_one_unit (g : code_unit) (r s : jsstring) : forall before,
  replace_from (literal [g] r) before 0 s
  = flat_map (fun c => if code_eqb g c then r else [c]) s.
Proof.
  induction s as [|c s IH]; intros before; [reflexivity|].
  cbn [replace_from flat_map]. unfold literal at 1. cbn [starts_with length pred].
  rewrite andb_true_r. destruct (code_eqb g c); cbn [app]; now rewrite IH.
Qed.

Lemma code_eqb_sym (a b : code_unit) : code_eqb a b = code_eqb b a.
Proof. unfold code_eqb. apply N.eqb_sym. Qed.

(** The first three replacements, code unit by code unit. *)
Lemma single_glyphs (s : jsstring) :
  replace_all (literal [GREEK_PI] (js "pi"))
    (replace_all (literal [DIVIDE] (js "/"))
       (replace_all (literal [TIMES] (js "*")) s))
  = flat_map (fun c => glyph c []) s.
Proof.
  unfold replace_all. rewrite !replace_one_unit.
  induction s as [|c s IH]; [reflexivity|].
  cbn [flat_map]. rewrite !flat_map_app, IH. f_equal.
  unfold glyph. rewrite (code_eqb_sym c TIMES), (code_eqb_sym c DIVIDE),
    (code_eqb_sym c GREEK_PI).
  destruct (code_eqb TIMES c) eqn:E1; [reflexivity|].
  cbn [flat_map app]. rewrite app_nil_r.
  destruct (code_eqb DIVIDE c) eqn:E2; [reflexivity|].
  cbn [flat_map app]. rewrite app_nil_r.
  destruct (code_eqb GREEK_PI c) eqn:E3; [reflexivity|].
  cbn [starts_with]. now rewrite andb_false_r.
Qed.

Lemma radical_cons (c : code_unit) (t : jsstring) :
  replace_all (literal [RADICAL; LPAREN] (js "sqrt(")) (c :: t)
  = if code_eqb RADICAL c && starts_with [LPAREN] t
    then js "sqrt(" ++ replace_all (literal [RADICAL; LPAREN] (js "sqrt(")) (tl t)
    else c :: replace_all (literal [RADICAL; LPAREN] (js "sqrt(")) t.
Proof.
  unfold replace_all. cbn [replace_from]. unfold literal at 1.
  cbn [starts_with length pred].
  assert (Hb : forall b b' rest,
             literal [RADICAL; LPAREN] (js "sqrt(") b rest
             = literal [RADICAL; LPAREN] (js "sqrt(") b' rest) by reflexivity.
  destruct (code_eqb RADICAL c) eqn:E1; cbn [andb].
  - destruct t as [|d t]; cbn [starts_with].
    + reflexivity.
    + rewrite andb_true_r. destruct (code_eqb LPAREN d).
      * f_equal. exact (replace_from_before _ Hb t [d; c] [] 0).
      * f_equal. exact (replace_from_before _ Hb (d :: t) [c] [] 0).
  - f_equal. apply (replace_from_before _ Hb).
Qed.

Lemma radical_other (c : code_unit) (t : jsstring) :
  code_eqb RADICAL c = false ->
  replace_all (literal [RADICAL; LPAREN] (js "sqrt(")) (c :: t)
  = c :: replace_all (literal [RADICAL; LPAREN] (js "sqrt(")) t.
Proof. intros H. now rewrite radical_cons, H. Qed.

Lemma single_glyphs_paren (r : jsstring) :
  starts_with [LPAREN] (flat_map (fun c => glyph c []) r) = starts_with [LPAREN] r.
Proof.
  destruct r as [|c r]; [reflexivity|]. cbn [flat_map]. unfold glyph.
  destruct (code_eqb c TIMES) eqn:E1;
    [apply code_eqb_eq in E1; subst; reflexivity|].
  destruct (code_eqb c DIVIDE) eqn:E2;
    [apply code_eqb_eq in E2; subst; reflexivity|].
  destruct (code_eqb c GREEK_PI) eqn:E3;
    [apply code_eqb_eq in E3; subst; reflexivity|].
  cbn [starts_with]. rewrite andb_false_r. reflexivity.
Qed.

Lemma replace_glyphs_expand (s : jsstring) : replace_glyphs s = expand_glyphs s.
Proof.
  unfold replace_glyphs. rewrite single_glyphs.
  induction s as [|c s IH]; [reflexivity|].
  cbn [flat_map expand_glyphs]. unfold glyph at 1 3.
  destruct (code_eqb c TIMES) eqn:E1.
  { change (js "*") with [42%N]. cbn [app].
    rewrite radical_other by reflexivity. now rewrite IH. }
  destruct (code_eqb c DIVIDE) eqn:E2.
  { change (js "/") with [47%N]. cbn [app].
    rewrite radical_other by reflexivity. now rewrite IH. }
  destruct (code_eqb c GREEK_PI) eqn:E3.
  { change (js "pi") with [112%N; 105%N]. cbn [app].
    rewrite !radical_other by reflexivity. now rewrite IH. }
  cbn [starts_with]. rewrite andb_false_r. cbn [app].
  rewrite radical_cons, single_glyphs_paren, (code_eqb_sym RADICAL c).
  destruct (code_eqb c RADICAL) eqn:E4; cbn [andb]; [|now rewrite IH].
  destruct s as [|d s]; cbn [starts_with]; [reflexivity|].
  rewrite andb_true_r. destruct (code_eqb LPAREN d) eqn:E5; [|now rewrite IH].
  apply code_eqb_eq in E5. subst d.
  change (flat_map (fun c => glyph c []) (LPAREN :: s))
    with (LPAREN :: flat_map (fun c => glyph c []) s) in *.
  change (expand_glyphs (LPAREN :: s)) with (LPAREN :: expand_glyphs s) in *.
  rewrite radical_cons in IH. cbn [andb] in IH. injection IH as IH.
  cbn [tl]. rewrite IH. reflexivity.
Qed.

Lemma glyph_units (c x : code_unit) (next : jsstring) :
  In x (glyph c next) -> is_glyph x = true -> x = RADICAL /\ c = RADICAL.
Proof.
  unfold glyph.
  destruct (code_eqb c TIMES) eqn:E1;
    [intros [<-|[]]; discriminate|].
  destruct (code_eqb c DIVIDE) eqn:E2;
    [intros [<-|[]]; discriminate|].
  destruct (code_eqb c GREEK_PI) eqn:E3;
    [intros [<-|[<-|[]]]; discriminate|].
  destruct (code_eqb c RADICAL && starts_with [LPAREN] next) eqn:E4;
    [intros [<-|[<-|[<-|[<-|[]]]]]; discriminate|].
  intros [<-|[]]. unfold is_glyph. rewrite E1, E2, E3. cbn [orb].
  intros H. apply code_eqb_eq in H. auto.
Qed.

Lemma expand_glyphs_units (s : jsstring) (x : code_unit) :
  In x (expand_glyphs s) -> is_glyph x = true -> x = RADICAL.
Proof.
  induction s as [|c s IH]; cbn [expand_glyphs]; [intros []|].
  intros H Hx. apply in_app_or in H as [H|H]; [|now apply IH].
  now destruct (glyph_units _ _ _ H Hx).
Qed.

Lemma expand_glyphs_paren (r : jsstring) :
  starts_with [LPAREN] (expand_glyphs r) = starts_with [LPAREN] r.
Proof.
  destruct r as [|c r]; [reflexivity|]. cbn [expand_glyphs]. unfold glyph.
  destruct (code_eqb c TIMES) eqn:E1;
    [apply code_eqb_eq in E1; subst; reflexivity|].
  destruct (code_eqb c DIVIDE) eqn:E2;
    [apply code_eqb_eq in E2; subst; reflexivity|].
  destruct (code_eqb c GREEK_PI) eqn:E3;
    [apply code_eqb_eq in E3; subst; reflexivity|].
  destruct (code_eqb c RADICAL && starts_with [LPAREN] r) eqn:E4.
  - apply andb_true_iff in E4 as [E4 _]. apply code_eqb_eq in E4. subst. reflexivity.
  - reflexivity.
Qed.

Lemma includes_radical_app (a t : jsstring) :
  ~ In RADICAL a ->
  includes (a ++ t) [RADICAL; LPAREN] = includes t [RADICAL; LPAREN].
Proof.
  induction a as [|x a IH]; intros Ha; [reflexivity|].
  cbn [app includes starts_with].
  replace (code_eqb RADICAL x) with false.
  - cbn [andb orb]. apply IH. intros H. apply Ha. now right.
  - symmetry. apply code_eqb_neq. intros <-. apply Ha. now left.
Qed.

Lemma expand_glyphs_radical (s : jsstring) :
  includes (expand_glyphs s) [RADICAL; LPAREN] = false.
Proof.
  induction s as [|c s IH]; [reflexivity|].
  cbn [expand_glyphs].
  destruct (in_dec N.eq_dec RADICAL (glyph c s)) as [Hin|Hnot].
  - destruct (glyph_units _ _ _ Hin eq_refl) as [_ ->].
    unfold glyph in *. cbn [code_eqb andb] in *.
    change (code_eqb RADICAL TIMES) with false in *.
    change (code_eqb RADICAL DIVIDE) with false in *.
    change (code_eqb RADICAL GREEK_PI) with false in *.
    change (code_eqb RADICAL RADICAL) with true in *. cbn [andb] in *.
    destruct (starts_with [LPAREN] s) eqn:E.
    + exfalso. destruct Hin as [H|[H|[H|[H|[]]]]]; discriminate.
    + cbn [app includes]. rewrite IH, orb_false_r.
      cbn [starts_with]. change (code_eqb RADICAL RADICAL) with true. cbn [andb].
      change (match expand_glyphs s with
              | [] => false
              | c :: s' => code_eqb LPAREN c && true
              end) with (starts_with [LPAREN] (expand_glyphs s)).
      now rewrite expand_glyphs_paren.
  - now rewrite includes_radical_app.
Qed.

Lemma expand_glyphs_plain (s : jsstring) :
  Forall (fun c => is_glyph c = false) s -> expand_glyphs s = s.
Proof.
  induction 1 as [|c s Hc _ IH]; [reflexivity|].
  cbn [expand_glyphs]. rewrite IH. unfold glyph. unfold is_glyph in Hc.
  apply orb_false_iff in Hc as [Hc E4]. apply orb_false_iff in Hc as [Hc E3].
  apply orb_false_iff in Hc as [E1 E2]. now rewrite E1, E2, E3, E4.
Qed.

(** X3: the glyph step writes [*] for the multiplication sign, [/] for the
    division sign, [pi] for the Greek letter and [sqrt] for a radical sign in
    front of an opening parenthesis, and leaves every other code unit alone:
    none of the first three glyphs and no radical sign before a parenthesis
    is left, and a text without glyphs is unchanged. *)
Theorem replace_glyphs_spec (s : jsstring) :
  replace_glyphs s = expand_glyphs s
  /\ ~ In TIMES (replace_glyphs s)
  /\ ~ In DIVIDE (replace_glyphs s)
  /\ ~ In GREEK_PI (replace_glyphs s)
  /\ includes (replace_glyphs s) [RADICAL; LPAREN] = false
  /\ (Forall (fun c => is_glyph c = false) s -> replace_glyphs s = s).
Proof.
  rewrite replace_glyphs_expand.
  split; [reflexivity|].
  split; [intros H; now apply expand_glyphs_units in H|].
  split; [intros H; now apply expand_glyphs_units in H|].
  split; [intros H; now apply expand_glyphs_units in H|].
  split; [apply expand_glyphs_radical | apply expand_glyphs_plain].
Qed.

Lemma replace_glyphs_spec_witness :
  replace_glyphs (js "2+3") = js "2+3".
Proof.
  apply (proj2 (proj2 (proj2 (proj2 (proj2 (replace_glyphs_spec (js "2+3"))))))).
  repeat constructor.
Defined.

(** *** The percent step *)

Lemma percent_before (b b' rest : jsstring) : percent b rest = percent b' rest.
Proof. reflexivity. Qed.

Lemma span_eq (p : code_unit -> bool) (s : jsstring) :
  span p s = (fst (span p s), snd (span p s)).
Proof. now destruct (span p s). Qed.

(** A match of the percent step ends in a percent sign of the subject. *)
Lemma percent_sign (b rest : jsstring) (len : nat) (r : jsstring) :
  percent b rest = Some (len, r) -> In PERCENT rest /\ len <= length rest.
Proof.
  unfold percent.
  destruct (span_spec is_digit rest) as (H1 & _ & _). rewrite (span_eq is_digit rest).
  destruct (fst (span is_digit rest)) as [|w whole]; [discriminate|].
  destruct (snd (span is_digit rest)) as [|c1 r2]; [discriminate|].
  destruct (code_eqb c1 PERCENT) eqn:E1.
  - apply code_eqb_eq in E1. subst c1. intros [= <- _]. rewrite H1. split.
    + apply in_or_app. right. now left.
    + rewrite length_app. cbn [length]. lia.
  - destruct (code_eqb c1 DOT); [|discriminate].
    destruct (span_spec is_digit r2) as (H2 & _ & _). rewrite (span_eq is_digit r2).
    generalize dependent (fst (span is_digit r2)). intros frac H2.
    destruct (snd (span is_digit r2)) as [|c3 r4]; [discriminate|].
    destruct (code_eqb c3 PERCENT) eqn:E3; [|discriminate].
    apply code_eqb_eq in E3. subst c3. intros [= <- _]. rewrite H1, H2. split.
    + apply in_or_app. right. right. apply in_or_app. right. now left.
    + rewrite length_app. cbn [length]. rewrite length_app. cbn [length]. lia.
Qed.

Lemma rewrite_percent_unmatched (s : jsstring) :
  ~ In PERCENT s -> rewrite_percent s = s.
Proof.
  intros Hs. apply replace_from_unmatched. intros before pre rest ->.
  destruct (percent before rest) as [[len r]|] eqn:E; [|reflexivity].
  exfalso. apply Hs, in_or_app. right. now apply (percent_sign _ _ _ _ E).
Qed.

Lemma open_number_tail (c : code_unit) (pre : jsstring) :
  open_number (c :: pre) = false -> open_number pre = false.
Proof.
  unfold open_number. cbn [rev].
  destruct (rev pre) as [|x [|y l]]; cbn [app]; [reflexivity| |exact (fun H => H)].
  intros H. apply orb_false_iff in H as [H _]. rewrite H. cbn [orb].
  apply andb_false_r.
Qed.

Lemma open_number_digits (x whole : jsstring) :
  whole <> [] -> Forall (fun c => is_digit c = true) whole ->
  open_number (x ++ whole) = true.
Proof.
  intros Hne Hw. unfold open_number. rewrite rev_app_distr.
  destruct (rev whole) as [|c l] eqn:E.
  - apply (f_equal (@rev _)) in E. rewrite rev_involutive in E. now subst.
  - assert (In c whole) as Hc by (apply in_rev; rewrite E; now left).
    rewrite Forall_forall in Hw. cbn [app]. now rewrite (Hw c Hc).
Qed.

Lemma open_number_dot (x whole : jsstring) :
  whole <> [] -> Forall (fun c => is_digit c = true) whole ->
  open_number (x ++ whole ++ [DOT]) = true.
Proof.
  intros Hne Hw. unfold open_number. rewrite app_assoc, rev_app_distr. cbn [rev app].
  rewrite rev_app_distr.
  destruct (rev whole) as [|c l] eqn:E.
  - apply (f_equal (@rev _)) in E. rewrite rev_involutive in E. now subst.
  - assert (In c whole) as Hc by (apply in_rev; rewrite E; now left).
    rewrite Forall_forall in Hw. cbn [app]. rewrite (Hw c Hc).
    change (is_digit DOT) with false. change (code_eqb DOT DOT) with true. reflexivity.
Qed.

(** Where the text in front does not end inside a number, what follows it
    decides no match of the text in front. *)
Lemma percent_closed (s rest b : jsstring) :
  s <> [] -> open_number s = false -> percent b (s ++ rest) = percent b s.
Proof.
  intros Hne Hopen. unfold percent.
  destruct (span_spec is_digit s) as (H1 & H2 & H3).
  destruct (snd (span is_digit s)) as [|c1 r2] eqn:E1.
  { exfalso. rewrite app_nil_r in H1.
    rewrite <- (app_nil_l s), (open_number_digits [] s) in Hopen;
      [discriminate | exact Hne | now rewrite H1]. }
  assert (Hs : span is_digit (s ++ rest) = (fst (span is_digit s), c1 :: r2 ++ rest)).
  { rewrite H1 at 1. rewrite <- app_assoc. cbn [app]. now apply span_app. }
  rewrite Hs, (span_eq is_digit s), E1.
  destruct (fst (span is_digit s)) as [|w whole] eqn:Ew; [reflexivity|].
  destruct (code_eqb c1 PERCENT); [reflexivity|].
  destruct (code_eqb c1 DOT) eqn:Ed; [|reflexivity].
  apply code_eqb_eq in Ed. subst c1.
  destruct (span_spec is_digit r2) as (K1 & K2 & K3).
  destruct (snd (span is_digit r2)) as [|c3 r4] eqn:E3.
  { exfalso. rewrite app_nil_r in K1.
    destruct (fst (span is_digit r2)) as [|f frac] eqn:Ef.
    - subst r2. rewrite H1 in Hopen.
      rewrite <- (app_nil_l ((w :: whole) ++ [DOT])), open_number_dot in Hopen;
        [discriminate | discriminate | exact H2].
    - rewrite H1, K1 in Hopen.
      replace ((w :: whole) ++ DOT :: f :: frac)
        with (((w :: whole) ++ [DOT]) ++ f :: frac) in Hopen
        by (rewrite <- app_assoc; reflexivity).
      rewrite open_number_digits in Hopen; [discriminate | discriminate | exact K2]. }
  assert (Hr : span is_digit (r2 ++ rest) = (fst (span is_digit r2), c3 :: r4 ++ rest)).
  { rewrite K1 at 1. rewrite <- app_assoc. cbn [app]. now apply span_app. }
  rewrite Hr, (span_eq is_digit r2), E3. reflexivity.
Qed.

Lemma rewrite_percent_app (pre : jsstring) (rest : jsstring) : forall skip b,
  skip <= length pre -> open_number pre = false ->
  replace_from percent b skip (pre ++ rest)
  = replace_from percent b skip pre ++ replace_all percent rest.
Proof.
  induction pre as [|c pre IH]; intros skip b Hskip Hopen.
  - cbn [length] in Hskip. assert (skip = 0) as -> by lia.
    apply (replace_from_before _ percent_before).
  - cbn [app replace_from]. apply open_number_tail in Hopen as Htail.
    destruct skip as [|k].
    + pose proof (percent_closed (c :: pre) rest b ltac:(discriminate) Hopen) as Hc.
      cbn [app] in Hc. rewrite Hc.
      destruct (percent b (c :: pre)) as [[len r]|] eqn:E.
      * apply percent_sign in E as [_ E]. cbn [length] in E.
        rewrite IH by (try assumption; lia). now rewrite app_assoc.
      * rewrite IH by (try assumption; lia). reflexivity.
    + cbn [length] in Hskip. apply IH; [lia | assumption].
Qed.

Lemma percent_whole (whole post b : jsstring) :
  whole <> [] -> Forall (fun c => is_digit c = true) whole ->
  percent b (whole ++ PERCENT :: post)
  = Some (S (length whole), js "(" ++ whole ++ js "/100)").
Proof.
  intros Hne Hw. unfold percent.
  rewrite (span_app is_digit whole PERCENT post Hw eq_refl).
  destruct whole; [congruence|]. reflexivity.
Qed.

Lemma percent_fraction (whole frac post b : jsstring) :
  whole <> [] -> Forall (fun c => is_digit c = true) whole ->
  Forall (fun c => is_digit c = true) frac ->
  percent b (whole ++ DOT :: frac ++ PERCENT :: post)
  = Some (length whole + 1 + length frac + 1,
          js "(" ++ whole ++ [DOT] ++ frac ++ js "/100)").
Proof.
  intros Hne Hw Hf. unfold percent.
  rewrite (span_app is_digit whole DOT _ Hw eq_refl).
  destruct whole; [congruence|].
  change (code_eqb DOT PERCENT) with false. change (code_eqb DOT DOT) with true.
  cbn iota. rewrite (span_app is_digit frac PERCENT post Hf eq_refl).
  reflexivity.
Qed.

(** X4: a number directly in front of a percent sign, with or without
    decimals, is put in parentheses and divided by 100, provided it starts
    where no other number is still open; the rest of the text is
    rewritten on its own. *)
Theorem percent_of_a_number (pre whole frac post : jsstring) :
  open_number pre = false ->
  whole <> [] ->
  Forall (fun c => is_digit c = true) whole ->
  Forall (fun c => is_digit c = true) frac ->
  rewrite_percent (pre ++ whole ++ js "%" ++ post)
  = rewrite_percent pre ++ js "(" ++ whole ++ js "/100)" ++ rewrite_percent post
  /\ rewrite_percent (pre ++ whole ++ js "." ++ frac ++ js "%" ++ post)
     = rewrite_percent pre ++ js "(" ++ whole ++ js "." ++ frac ++ js "/100)"
       ++ rewrite_percent post.
Proof.
  intros Hopen Hne Hw Hf. unfold rewrite_percent, replace_all.
  change (js "%") with [PERCENT]. change (js ".") with [DOT]. cbn [app].
  rewrite !rewrite_percent_app by (try assumption; lia).
  unfold replace_all. split; f_equal.
  - destruct whole as [|w whole]; [congruence|].
    cbn [app replace_from].
    change (w :: whole ++ PERCENT :: post) with ((w :: whole) ++ PERCENT :: post).
    rewrite percent_whole by (try discriminate; assumption).
    cbn [pred length].
    rewrite <- !app_assoc. do 2 f_equal.
    replace (whole ++ PERCENT :: post) with ((whole ++ [PERCENT]) ++ post)
      by (rewrite <- app_assoc; reflexivity).
    replace (S (length whole)) with (length (whole ++ [PERCENT]))
      by (rewrite length_app; cbn [length]; lia).
    rewrite replace_from_skip.
    rewrite (replace_from_before _ percent_before post
               (rev (whole ++ [PERCENT]) ++ [w]) [] 0).
    reflexivity.
  - destruct whole as [|w whole]; [congruence|].
    cbn [app replace_from].
    change (w :: whole ++ DOT :: frac ++ PERCENT :: post)
      with ((w :: whole) ++ DOT :: frac ++ PERCENT :: post).
    rewrite percent_fraction by (try discriminate; assumption).
    replace (whole ++ DOT :: frac ++ PERCENT :: post)
      with ((whole ++ DOT :: frac ++ [PERCENT]) ++ post)
      by (rewrite <- !app_assoc; cbn [app]; rewrite <- app_assoc; reflexivity).
    replace (pred (length (w :: whole) + 1 + length frac + 1))
      with (length (whole ++ DOT :: frac ++ [PERCENT]))
      by (rewrite length_app; cbn [length]; rewrite length_app; cbn [length]; lia).
    rewrite replace_from_skip.
    rewrite (replace_from_before _ percent_before post
               (rev (whole ++ DOT :: frac ++ [PERCENT]) ++ [w]) [] 0).
    rewrite <- ?app_assoc. cbn [app]. rewrite <- ?app_assoc. reflexivity.
Qed.

Lemma percent_of_a_number_witness :
  rewrite_percent (js "2*50%+1") = js "2*(50/100)+1"
  /\ rewrite_percent (js "12.5%") = js "(12.5/100)".
Proof.
  split.
  - exact (proj1 (percent_of_a_number (js "2*") (js "50") [] (js "+1")
                    eq_refl ltac:(discriminate)
                    ltac:(repeat constructor) ltac:(constructor))).
  - exact (proj2 (percent_of_a_number [] (js "12") (js "5") []
                    eq_refl ltac:(discriminate)
                    ltac:(repeat constructor) ltac:(repeat constructor))).
Defined.

(** *** Expressions the normalizer has no rule for *)

Lemma digit_before_parenb_spec (s : jsstring) :
  digit_before_paren s -> digit_before_parenb s = true.
Proof.
  intros (pre & d & ws & post & -> & Hd & Hws).
  induction pre as [|c pre IH]; cbn [app digit_before_parenb].
  - rewrite Hd, (span_app is_space ws LPAREN post Hws eq_refl). reflexivity.
  - rewrite IH. apply orb_true_r.
Qed.

Lemma plain_units (s : jsstring) (c : code_unit) :
  Forall (fun c => plain c = true) s -> In c s ->
  is_letter c = false /\ is_glyph c = false /\ c <> PERCENT.
Proof.
  intros Hs Hc. rewrite Forall_forall in Hs. specialize (Hs c Hc).
  unfold plain in Hs. apply negb_true_iff in Hs.
  apply orb_false_iff in Hs as [Hs H3]. apply orb_false_iff in Hs as [H1 H2].
  repeat split; try assumption. now apply code_eqb_neq.
Qed.

Lemma plain_no_letter (s : jsstring) (c : code_unit) :
  Forall (fun c => plain c = true) s -> is_letter c = true -> ~ In c s.
Proof.
  intros Hs Hc Hin. destruct (plain_units s c Hs Hin) as (H & _). congruence.
Qed.

Lemma rewrite_logarithms_plain (s : jsstring) :
  Forall (fun c => plain c = true) s -> rewrite_logarithms s = s.
Proof.
  intros Hs. unfold rewrite_logarithms.
  assert (Hl : ~ In 108%N s) by now apply plain_no_letter.
  assert (HN : ~ In 78%N s) by now apply plain_no_letter.
  assert (HL : ~ In 76%N s) by now apply plain_no_letter.
  rewrite (word_literal_unmatched (js "ln(") _ s 108%N) by (try assumption; now left).
  rewrite (word_literal_unmatched (js "log10(") _ s 108%N) by (try assumption; now left).
  rewrite (word_literal_unmatched (js "log2(") _ s 108%N) by (try assumption; now left).
  rewrite (word_literal_unmatched (js "log(") _ s 108%N) by (try assumption; now left).
  rewrite (literal_unmatched (js "__NATLOG__(") _ s 78%N)
    by (try assumption; right; right; now left).
  rewrite (literal_unmatched (js "__LOG10__(") _ s 76%N)
    by (try assumption; right; right; now left).
  apply (literal_unmatched (js "__LOG2__(") _ s 76%N);
    [right; right; now left | assumption].
Qed.

Lemma insert_multiplication_plain (s : jsstring) :
  Forall (fun c => plain c = true) s -> ~ digit_before_paren s ->
  insert_multiplication s = s.
Proof.
  intros Hs Hp. apply replace_from_unmatched. intros before pre rest ->.
  unfold implicit_multiplication. destruct rest as [|d after]; [reflexivity|].
  destruct (is_digit d) eqn:Ed; [|reflexivity].
  destruct (followed_by_letter_or_paren after) eqn:Ef; [|reflexivity].
  exfalso. apply followed_by_letter_or_paren_spec in Ef
    as (ws & c & rest' & -> & Hws & [Hc | ->]).
  - apply (plain_no_letter _ c Hs Hc).
    apply in_or_app. right. right. apply in_or_app. right. now left.
  - apply Hp. exists pre, d, ws, rest'. auto.
Qed.

(** X5: an expression without letters, glyphs and percent signs in which no
    digit is followed (optionally through white space) by an opening
    parenthesis reaches the evaluator as it was typed. *)
Theorem preprocessExpression_plain (s : jsstring) :
  Forall (fun c => plain c = true) s -> ~ digit_before_paren s ->
  preprocessExpression s = s.
Proof.
  intros Hs Hp. unfold preprocessExpression.
  assert (Hg : replace_glyphs s = s).
  { rewrite replace_glyphs_expand. apply expand_glyphs_plain.
    rewrite Forall_forall. intros c Hc. now destruct (plain_units s c Hs Hc) as (_ & H & _). }
  rewrite Hg, rewrite_logarithms_plain, insert_multiplication_plain by assumption.
  apply rewrite_percent_unmatched. intros H.
  now destruct (plain_units s _ Hs H) as (_ & _ & H3).
Qed.

Lemma preprocessExpression_plain_witness :
  preprocessExpression (js "(1.5 + 2) * 3 - 4 / (5 ^ 2)") = js "(1.5 + 2) * 3 - 4 / (5 ^ 2)".
Proof.
  apply preprocessExpression_plain.
  - repeat constructor.
  - intros H. apply digit_before_parenb_spec in H. discriminate.
Defined.

End NormalizerFacts.

(** ** More of the evaluation adapter *)

Module AdapterFacts.
Import JsString JsNumber Completion Normalizer Engine EngineSpec AdapterSpec JsStringFacts.
Import JsNumberFacts EngineFacts.
Local Open Scope completion_scope.

Section WithLibraries.
Variable B : builtins.
Variable M : mathjs.

(** X6: [isValidExpression] never raises: it is [false] for a blank
    expression and otherwise tells whether [math.parse] accepts the
    normalized expression. *)
Theorem isValidExpression_parses (expression : jsstring) :
  exists valid,
    isValidExpression M expression = Normal valid
    /\ (valid = true
        <-> ~ blank expression
            /\ math_parse M (preprocessExpression expression) = Normal tt).
Proof.
  unfold isValidExpression.
  destruct (trim expression) as [|c t] eqn:E.
  - exists false. split; [reflexivity|]. split; [discriminate|].
    intros [H _]. exfalso. apply H. now apply trim_blank.
  - assert (Hnb : ~ blank expression) by (intros H; apply trim_blank in H; congruence).
    destruct (math_parse M (preprocessExpression expression)) as [[]|e] eqn:Ep.
    + exists true. cbn. tauto.
    + exists false. cbn. split; [reflexivity|]. split; [discriminate|].
      intros [_ H]. discriminate.
Qed.

(** X7: [evaluate] succeeds exactly when the expression is not blank and the
    evaluator returns a value other than [null] and [undefined] (which its
    formatter accepts, if it is neither a number nor a boolean).  A number is
    passed on as it is and displayed by [formatNumber]; a boolean becomes the
    text [true] or [false]; anything else the text of the formatter. *)
Theorem evaluate_success (expression : jsstring) (angleUnit : AngleUnit)
  (v : value) (display : jsstring) :
  evaluate B M expression angleUnit = Normal (Success v display)
  <-> ~ blank expression
      /\ exists result,
           math_evaluate M (preprocessExpression expression) (trig_scope angleUnit)
           = Normal result
           /\ match result with
              | MNumber n => v = VNumber n /\ display = formatNumber B n
              | MBoolean b =>
                  v = VString (if b then js "true" else js "false")
                  /\ display = (if b then js "true" else js "false")
              | MNull | MUndefined => False
              | MOther _ =>
                  math_format M result DISPLAY_PRECISION = Normal display
                  /\ v = VString display
              end.
Proof.
  unfold evaluate. destruct (trim expression) as [|c t] eqn:E.
  - split; [discriminate|]. intros [H _]. exfalso. apply H. now apply trim_blank.
  - assert (Hnb : ~ blank expression) by (intros H; apply trim_blank in H; congruence).
    unfold evaluate_body, transformForAngleUnit.
    replace (match angleUnit with rad => preprocessExpression expression
                               | deg => preprocessExpression expression end)
      with (preprocessExpression expression) by now destruct angleUnit.
    destruct (math_evaluate M (preprocessExpression expression) (trig_scope angleUnit))
      as [[n|b| | |tag]|e]; cbn [bind try_catch].
    + split.
      * intros [= <- <-]. split; [exact Hnb|]. eexists. split; [reflexivity|]. cbn. auto.
      * intros [_ (r & [= <-] & -> & ->)]. reflexivity.
    + split.
      * intros [= <- <-]. split; [exact Hnb|]. eexists. split; [reflexivity|]. cbn. auto.
      * intros [_ (r & [= <-] & -> & ->)]. reflexivity.
    + split; [discriminate|]. intros [_ (r & [= <-] & [])].
    + split; [discriminate|]. intros [_ (r & [= <-] & [])].
    + destruct (math_format M (MOther tag) DISPLAY_PRECISION) as [str|e] eqn:Ef;
        cbn [bind try_catch].
      * split.
        -- intros [= <- <-]. split; [exact Hnb|]. eexists. split; [reflexivity|]. cbn. auto.
        -- intros [_ (r & [= <-] & H1 & ->)]. rewrite Ef in H1. now injection H1 as ->.
      * split; [discriminate|]. intros [_ (r & [= <-] & H1 & _)]. congruence.
    + split; [discriminate|]. intros [_ (r & H & _)]. discriminate.
Qed.

(** X8: the display of a number is [Error] for NaN and the name of an
    infinity; every other display is either the exponential notation with
    eight decimals or at most fourteen code units long, and numbers above
    [1e12] or, unless zero, below [1e-10] in absolute value are always shown
    in exponential notation. *)
Theorem formatNumber_display (value : number) :
  (value = NaN -> formatNumber B value = js "Error")
  /\ (value = PosInfinity -> formatNumber B value = js "Infinity")
  /\ (value = NegInfinity -> formatNumber B value = js "-Infinity")
  /\ (formatNumber B value = toExponential B value 8
      \/ length (formatNumber B value) <= 14)
  /\ (forall x, value = Fin x ->
      (10 ^ 12 < Rabs x \/ (Rabs x < / 10 ^ 10 /\ x <> 0))%R ->
      formatNumber B value = toExponential B value 8).
Proof.
  split; [now intros ->|]. split; [now intros ->|]. split; [now intros ->|].
  split.
  - destruct value as [x| | |]; try (right; cbn; lia).
    unfold formatNumber. cbn [isFinite negb].
    destruct (_ || _); [now left|].
    destruct (Nat.ltb (DISPLAY_PRECISION + 2) _) eqn:E; [now left|].
    right. apply Nat.ltb_ge in E. exact E.
  - intros x -> H. unfold formatNumber. cbn [isFinite negb Math_abs].
    replace (_ || _) with true; [reflexivity|]. symmetry.
    unfold gtb, dec, zero. cbn [ltb strict_eqb].
    assert (E12 : (1 * powerRZ 10 12 = 10 ^ 12)%R)
      by (change (powerRZ 10 12) with (10 ^ 12)%R; lra).
    assert (E10 : (1 * powerRZ 10 (-10) = / 10 ^ 10)%R)
      by (change (powerRZ 10 (-10)) with (/ 10 ^ 10)%R; lra).
    rewrite E12, E10.
    destruct H as [H | [H1 H2]].
    + now rewrite (Rltb_true _ _ H).
    + rewrite (Rltb_true _ _ H1), (Reqb_false _ _ H2). apply orb_true_r.
Qed.

(** X9: the combinatorial functions of the adapter consult the library for
    integers in range only: [factorial] for [0 <= n <= 170], [permutations]
    and [combinations] for [0 <= r <= n]; everything else is answered (by an
    error, by [Infinity] or by [0]) before the library is called. *)
Theorem adapter_guards (M' : mathjs) :
  (forall n : Z, (0 <= n <= 170)%Z ->
     math_factorial M (of_Z n) = math_factorial M' (of_Z n)) ->
  (forall n r : Z, (0 <= r <= n)%Z ->
     math_permutations M (of_Z n) (of_Z r) = math_permutations M' (of_Z n) (of_Z r)
     /\ math_combinations M (of_Z n) (of_Z r) = math_combinations M' (of_Z n) (of_Z r)) ->
  forall n r,
    factorial M n = factorial M' n
    /\ permutations M n r = permutations M' n r
    /\ combinations M n r = combinations M' n r.
Proof.
  intros Hf Hpc n r.
  assert (Hint : forall a, ltb a zero = false -> isInteger a = true ->
                           exists k, a = of_Z k /\ (0 <= k)%Z).
  { intros [x| | |] H1 H2; try discriminate.
    cbn [isInteger] in H2. apply Reqb_eq in H2.
    exists (Zfloor x). split; [unfold of_Z; now rewrite <- H2|].
    cbn [ltb zero] in H1. unfold Rltb in H1. destruct (Rlt_dec x 0); [discriminate|].
    apply le_IZR. rewrite <- H2. lra. }
  repeat split.
  - unfold factorial.
    destruct (ltb n zero) eqn:E1; [reflexivity|].
    destruct (isInteger n) eqn:E2; [|reflexivity]. cbn [orb negb].
    destruct (Hint n E1 E2) as (k & -> & Hk).
    rewrite gtb_of_Z. destruct (Z.ltb_spec 170 k); [reflexivity|].
    apply Hf. lia.
  - unfold permutations.
    destruct (ltb n zero) eqn:E1; [reflexivity|].
    destruct (ltb r zero) eqn:E2; [reflexivity|].
    destruct (isInteger n) eqn:E3; [|reflexivity].
    destruct (isInteger r) eqn:E4; [|reflexivity]. cbn [orb negb].
    destruct (Hint n E1 E3) as (k & -> & Hk). destruct (Hint r E2 E4) as (j & -> & Hj).
    rewrite gtb_of_Z. destruct (Z.ltb_spec k j); [reflexivity|].
    apply Hpc. lia.
  - unfold combinations.
    destruct (ltb n zero) eqn:E1; [reflexivity|].
    destruct (ltb r zero) eqn:E2; [reflexivity|].
    destruct (isInteger n) eqn:E3; [|reflexivity].
    destruct (isInteger r) eqn:E4; [|reflexivity]. cbn [orb negb].
    destruct (Hint n E1 E3) as (k & -> & Hk). destruct (Hint r E2 E4) as (j & -> & Hj).
    rewrite gtb_of_Z. destruct (Z.ltb_spec k j); [reflexivity|].
    apply Hpc. lia.
Qed.

End WithLibraries.

Lemma formatNumber_display_witness :
  formatNumber EngineSpec.example_builtins NaN = js "Error".
Proof. exact (proj1 (formatNumber_display EngineSpec.example_builtins NaN) eq_refl). Defined.

Lemma adapter_guards_witness :
  factorial example_mathjs (of_Z 171) = factorial strict_mathjs (of_Z 171)
  /\ permutations example_mathjs (of_Z 2) (of_Z 3) = permutations strict_mathjs (of_Z 2) (of_Z 3)
  /\ combinations example_mathjs (of_Z 2) (of_Z 3) = combinations strict_mathjs (of_Z 2) (of_Z 3).
Proof.
  assert (Hf : forall n : Z, (0 <= n <= 170)%Z ->
            math_factorial example_mathjs (of_Z n) = math_factorial strict_mathjs (of_Z n)).
  { intros n Hn. cbn [math_factorial example_mathjs strict_mathjs]. rewrite gtb_of_Z.
    now replace (170 <? n)%Z with false by (symmetry; apply Z.ltb_ge; lia). }
  assert (Hpc : forall n r : Z, (0 <= r <= n)%Z ->
            math_permutations example_mathjs (of_Z n) (of_Z r)
            = math_permutations strict_mathjs (of_Z n) (of_Z r)
            /\ math_combinations example_mathjs (of_Z n) (of_Z r)
               = math_combinations strict_mathjs (of_Z n) (of_Z r)).
  { intros n r Hr.
    cbn [math_permutations math_combinations example_mathjs strict_mathjs].
    rewrite gtb_of_Z.
    now replace (n <? r)%Z with false by (symmetry; apply Z.ltb_ge; lia). }
  destruct (adapter_guards example_mathjs strict_mathjs Hf Hpc (of_Z 171) (of_Z 0))
    as (H1 & _ & _).
  destruct (adapter_guards example_mathjs strict_mathjs Hf Hpc (of_Z 2) (of_Z 3))
    as (_ & H2 & H3).
  split; [exact H1 | split; [exact H2 | exact H3]].
Defined.

End AdapterFacts.

(** ** Graph coordinates and tables *)

Module GraphingFacts.
Import JsString JsNumber Completion Engine Graphing GraphingSpec.
Import JsNumberFacts EngineFacts.
Local Open Scope R_scope.

Lemma div_finite (a b : R) : b <> 0 -> div (Fin a) (Fin b) = Fin (a / b).
Proof. intros H. unfold div. now rewrite (Reqb_false _ _ H). Qed.

Lemma sub_finite (a b : R) : sub (Fin a) (Fin b) = Fin (a - b).
Proof. reflexivity. Qed.

(** X11: for a viewport of positive width and height (neither of them
    overflowing) and a canvas of positive extent, the top left corner of the
    viewport is the origin of the canvas and the bottom right corner its far
    corner; points of the viewport land on the canvas; the canvas abscissa
    never falls as [x] grows and the canvas ordinate never grows as [y]
    grows. *)
Theorem canvas_orientation (x0 x1 y0 y1 w h : R) :
  x0 < x1 -> y0 < y1 -> 0 < w -> 0 < h ->
  x1 - x0 <= 2 ^ 1023 -> y1 - y0 <= 2 ^ 1023 ->
  let bounds := {| xMin := Fin x0; xMax := Fin x1; yMin := Fin y0; yMax := Fin y1 |} in
  let canvas a b := graphToCanvas (Fin a) (Fin b) bounds (Fin w) (Fin h) in
  canvas x0 y1 = {| x := Fin 0; y := Fin 0 |}
  /\ canvas x1 y0 = {| x := Fin w; y := Fin h |}
  /\ (forall a b, x0 <= a <= x1 -> y0 <= b <= y1 ->
        number_le (Fin 0) (x (canvas a b)) /\ number_le (x (canvas a b)) (Fin w)
        /\ number_le (Fin 0) (y (canvas a b)) /\ number_le (y (canvas a b)) (Fin h))
  /\ (forall a a' b b', a <= a' -> number_le (x (canvas a b)) (x (canvas a' b')))
  /\ (forall a a' b b', b <= b' -> number_le (y (canvas a' b')) (y (canvas a b))).
Proof.
  intros Hx Hy Hw Hh _ _. cbv zeta.
  assert (Hc : forall a b,
            graphToCanvas (Fin a) (Fin b)
              {| xMin := Fin x0; xMax := Fin x1; yMin := Fin y0; yMax := Fin y1 |}
              (Fin w) (Fin h)
            = {| x := Fin ((a - x0) / (x1 - x0) * w);
                 y := Fin ((y1 - b) / (y1 - y0) * h) |}).
  { intros a b. unfold graphToCanvas. cbn [xMin xMax yMin yMax]. rewrite !sub_finite.
    rewrite !div_finite by lra. reflexivity. }
  assert (Hle : forall d e u v, 0 < d -> 0 < e -> u <= v -> u / d * e <= v / d * e).
  { intros d e u v Hd He Huv. unfold Rdiv. apply Rmult_le_compat_r; [lra|].
    apply Rmult_le_compat_r; [|exact Huv].
    apply Rlt_le. now apply Rinv_0_lt_compat. }
  assert (H0 : forall d e, 0 < d -> 0 / d * e = 0) by (intros; field; lra).
  assert (H1 : forall d e, 0 < d -> d / d * e = e) by (intros; field; lra).
  split; [|split; [|split; [|split]]].
  - rewrite Hc. f_equal; f_equal; field; lra.
  - rewrite Hc. f_equal; f_equal; field; lra.
  - intros a b Ha Hb. rewrite Hc. cbn [x y]. unfold number_le. cbn [leb].
    rewrite !Rleb_le. repeat split.
    + rewrite <- (H0 (x1 - x0) w) by lra. apply Hle; lra.
    + rewrite <- (H1 (x1 - x0) w) at 2 by lra. apply Hle; lra.
    + rewrite <- (H0 (y1 - y0) h) by lra. apply Hle; lra.
    + rewrite <- (H1 (y1 - y0) h) at 2 by lra. apply Hle; lra.
  - intros a a' b b' Ha. rewrite !Hc. cbn [x]. unfold number_le. cbn [leb].
    rewrite Rleb_le. apply Hle; lra.
  - intros a a' b b' Hb. rewrite !Hc. cbn [y]. unfold number_le. cbn [leb].
    rewrite Rleb_le. apply Hle; lra.
Qed.

Lemma canvas_orientation_witness :
  graphToCanvas (of_Z (-10)) (of_Z 10) DEFAULT_BOUNDS (of_Z 400) (of_Z 300)
  = {| x := Fin 0; y := Fin 0 |}
  /\ graphToCanvas (of_Z 10) (of_Z (-10)) DEFAULT_BOUNDS (of_Z 400) (of_Z 300)
     = {| x := of_Z 400; y := of_Z 300 |}.
Proof.
  destruct (canvas_orientation (-10) 10 (-10) 10 400 300
              ltac:(lra) ltac:(lra) ltac:(lra) ltac:(lra))
    as (H1 & H2 & _).
  - apply Rle_trans with (2 ^ 5); [lra | apply Rle_pow; [lra | lia]].
  - apply Rle_trans with (2 ^ 5); [lra | apply Rle_pow; [lra | lia]].
  - split; [exact H1 | exact H2].
Defined.

(** *** Tables of values *)

Section WithLibraries.
Variable B : builtins.
Variable M : mathjs.

Lemma evaluateFunction_sampled (expression : jsstring) (x : number) :
  evaluateFunction B M expression x = Normal (sampled B M expression x).
Proof.
  unfold sampled, evaluateFunction.
  destruct (evaluate_total B M
              (JsString.replace_all
                 (variable_x (js "(" ++ Number_toString B x ++ js ")")) expression) rad)
    as [result ->].
  cbn [bind]. destruct result as [[v|s] d|e]; try reflexivity.
  now destruct (isFinite v).
Qed.

(** The row of the table at the abscissa [x]. *)
Lemma generateTable_rows (expression : jsstring) (a b s : R) (n : nat) :
  0 < s ->
  (forall i : nat, a + INR i * s <= b <-> (i <= n)%nat) ->
  forall (t i : nat) (fuel : nat) table,
    (i + t = S n)%nat -> (t < fuel)%nat ->
    generateTable_loop B M fuel expression (Fin (a + INR i * s)) (Fin b) (Fin s) table
    = Some (Normal
              (table
               ++ map (fun j => {| x := Fin (a + INR j * s);
                                   y := sampled B M expression (Fin (a + INR j * s)) |})
                    (seq i t))).
Proof.
  intros Hs Hn t. induction t as [|t IH]; intros i fuel table Hi Hf.
  - destruct fuel as [|fuel]; [lia|]. cbn [generateTable_loop leb seq map].
    rewrite Rleb_false, app_nil_r; [reflexivity|].
    apply Rnot_le_lt. rewrite Hn. lia.
  - destruct fuel as [|fuel]; [lia|]. cbn [generateTable_loop leb seq map].
    rewrite Rleb_true by (apply Hn; lia).
    rewrite evaluateFunction_sampled. cbn [add].
    replace (a + INR i * s + s) with (a + INR (S i) * s) by (rewrite S_INR; ring).
    rewrite IH by lia. now rewrite <- app_assoc.
Qed.

(** The rows of the table for a positive step, were every addition of the
    loop exact. *)
Lemma generateTable_rows_exact (expression : jsstring) (a b s : R) (fuel : nat) :
  0 < s ->
  let rows := Z.to_nat (Zfloor ((b - a) / s) + 1) in
  (rows < fuel)%nat ->
  generateTable B M fuel expression (Fin a) (Fin b) (Fin s)
  = Some (Normal
            (map (fun j => {| x := Fin (a + INR j * s);
                              y := sampled B M expression (Fin (a + INR j * s)) |})
               (seq 0 rows)))
  /\ (b < a -> rows = 0%nat).
Proof.
  intros Hs rows Hf. unfold generateTable.
  destruct (Zfloor_bound ((b - a) / s)) as [Hlo Hhi].
  assert (Hq : forall q, q / s * s = q) by (intros q; field; lra).
  destruct (Rlt_le_dec b a) as [Hba|Hab].
  - assert (Hneg : (Zfloor ((b - a) / s) + 1 <= 0)%Z).
    { assert (IZR (Zfloor ((b - a) / s)) < 0); [|apply lt_IZR in H; lia].
      apply Rle_lt_trans with (1 := Hlo).
      apply (Rmult_lt_reg_r s); [exact Hs|]. rewrite Hq. lra. }
    assert (Hr : rows = 0%nat) by (unfold rows; lia).
    split; [|intros _; exact Hr]. rewrite Hr in *.
    destruct fuel as [|fuel]; [lia|]. cbn [generateTable_loop leb seq map].
    now rewrite Rleb_false.
  - assert (Hpos : (0 <= Zfloor ((b - a) / s))%Z).
    { apply Zfloor_lub. apply (Rmult_le_reg_r s); [exact Hs|]. rewrite Hq. lra. }
    split; [|intros Hba; lra].
    set (n := Z.to_nat (Zfloor ((b - a) / s))).
    assert (Hrows : rows = S n) by (unfold rows, n; lia).
    assert (Hn : forall i : nat, a + INR i * s <= b <-> (i <= n)%nat).
    { intros i. rewrite INR_IZR_INZ. split.
      - intros H. assert (Hi : IZR (Z.of_nat i) <= (b - a) / s).
        { apply (Rmult_le_reg_r s); [exact Hs|]. rewrite Hq. lra. }
        apply Zfloor_lub in Hi. unfold n. lia.
      - intros H. assert (Hi : IZR (Z.of_nat i) <= IZR (Zfloor ((b - a) / s)))
          by (apply IZR_le; unfold n in H; lia).
        assert (IZR (Z.of_nat i) * s <= (b - a) / s * s)
          by (apply Rmult_le_compat_r; lra).
        rewrite Hq in H0. lra. }
    pose proof (generateTable_rows expression a b s n Hs Hn (S n) 0 fuel []
                  ltac:(lia) ltac:(lia)) as H.
    cbn [INR] in H. rewrite Rmult_0_l, Rplus_0_r in H. rewrite Hrows. exact H.
Qed.

(** X13: for a start and a positive step that are integers, and as long as
    the abscissas stay within [2 ^ 53] (where the additions of the loop are
    exact), the table has the rows at [xStart], [xStart + step], ... up to
    the last of them that does not exceed [xEnd], each with the value of the
    function there ([null] where it has none); it is empty when [xStart]
    lies beyond [xEnd].  The loop ends within [fuel] turns for every [fuel]
    above the number of rows. *)
Theorem generateTable_rows_of_the_range (expression : jsstring) (a s : Z) (b : R)
  (fuel : nat) :
  (0 < s)%Z -> - 2 ^ 53 <= IZR a -> b + IZR s <= 2 ^ 53 ->
  let rows := Z.to_nat (Zfloor ((b - IZR a) / IZR s) + 1) in
  (rows < fuel)%nat ->
  generateTable B M fuel expression (of_Z a) (Fin b) (of_Z s)
  = Some (Normal
            (map (fun j => {| x := of_Z (a + Z.of_nat j * s);
                              y := sampled B M expression (of_Z (a + Z.of_nat j * s)) |})
               (seq 0 rows)))
  /\ (b < IZR a -> rows = 0%nat).
Proof.
  intros Hs _ _ rows Hf.
  assert (Hs' : 0 < IZR s) by now apply IZR_lt.
  destruct (generateTable_rows_exact expression (IZR a) b (IZR s) fuel Hs' Hf)
    as [H1 H2].
  split; [|exact H2]. unfold of_Z. rewrite H1. do 2 f_equal.
  apply map_ext. intros j.
  assert (E : IZR a + INR j * IZR s = IZR (a + Z.of_nat j * s))
    by (rewrite plus_IZR, mult_IZR, <- INR_IZR_INZ; reflexivity).
  now rewrite E.
Qed.

(** X14: with a step that is zero or negative (and [xStart] not beyond
    [xEnd]) the loop of [generateTable] does not end: no amount of fuel gives
    a table. *)
Theorem generateTable_never_returns (expression : jsstring) (a b s : R) :
  s <= 0 -> a <= b ->
  forall fuel, generateTable B M fuel expression (Fin a) (Fin b) (Fin s) = None.
Proof.
  intros Hs Hab fuel. unfold generateTable. generalize (@nil (point (option number))).
  revert a Hab. induction fuel as [|fuel IH]; intros a Hab table; [reflexivity|].
  cbn [generateTable_loop leb]. rewrite Rleb_true by exact Hab.
  rewrite evaluateFunction_sampled. cbn [add]. apply IH. lra.
Qed.

End WithLibraries.

Lemma generateTable_rows_of_the_range_witness :
  generateTable EngineSpec.example_builtins EngineSpec.example_mathjs 4 (js "1/x")
    (of_Z 0) (of_Z 1) (of_Z 1)
  = Some (Normal [ {| x := of_Z (0 + Z.of_nat 0 * 1); y := None |};
                   {| x := of_Z (0 + Z.of_nat 1 * 1); y := None |} ]).
Proof.
  assert (E : Z.to_nat (Zfloor ((1 - IZR 0) / IZR 1) + 1) = 2%nat).
  { replace ((1 - IZR 0) / IZR 1) with (IZR 1) by field. now rewrite ZfloorZ. }
  pose proof (proj1 (generateTable_rows_of_the_range
                       EngineSpec.example_builtins EngineSpec.example_mathjs
                       (js "1/x") 0 1 1 4 ltac:(lia) ltac:(lra) ltac:(lra)
                       ltac:(rewrite E; lia))) as H.
  rewrite E in H. exact H.
Defined.

Lemma generateTable_never_returns_witness :
  generateTable EngineSpec.example_builtins EngineSpec.example_mathjs 1000 (js "x")
    (of_Z 0) (of_Z 1) (of_Z 0) = None.
Proof.
  exact (generateTable_never_returns EngineSpec.example_builtins EngineSpec.example_mathjs
           (js "x") 0 1 0 ltac:(lra) ltac:(lra) 1000).
Defined.

End GraphingFacts.

(** ** Drawing a curve *)

Module DrawingFacts.
Import JsString JsNumber Completion Engine Graphing GraphingSpec Drawing DrawingSpec.
Import JsNumberFacts EngineFacts GraphingFacts StatisticsFacts.

Lemma point_eta (p : point number) : {| x := x p; y := y p |} = p.
Proof. now destruct p. Qed.

(** The second loop inks the joins of the samples, while drawing from the
    point reached and otherwise from an empty path. *)
Lemma draw_points_inks (points : list (option (point number))) :
  (forall c p,
     reached c = Some p ->
     inked (fold_left call (draw_points points true) c)
     = inked c ++ path c ++ joins (Some p :: points))
  /\ (forall c,
        path c = [] -> reached c = None ->
        inked (fold_left call (draw_points points false) c) = inked c ++ joins points).
Proof.
  induction points as [|[q|] points [IHt IHf]].
  - split.
    + intros c p Hp. cbn. now rewrite app_nil_r.
    + intros c Hc _. cbn. now rewrite app_nil_r.
  - split.
    + intros c p Hp. cbn [draw_points negb fold_left call]. rewrite Hp, point_eta.
      rewrite IHt with (p := q) by reflexivity. cbn [inked path joins].
      now rewrite <- !app_assoc.
    + intros c Hc Hr. cbn [draw_points negb fold_left call]. rewrite point_eta.
      rewrite IHt with (p := q) by reflexivity. cbn [inked path]. rewrite Hc.
      destruct points as [|[r|] points]; reflexivity.
  - split.
    + intros c p Hp. cbn [draw_points fold_left call].
      rewrite IHf by reflexivity. cbn [inked joins]. now rewrite app_assoc.
    + intros c Hc Hr. cbn [draw_points fold_left call joins]. now apply IHf.
Qed.

Section WithLibraries.
Variable B : builtins.
Variable M : mathjs.

Lemma sample_loop_samples (expression : jsstring) (bounds : GraphBounds)
  (W : Z) (height : number) (t : nat) :
  forall (i : nat) (fuel : nat) points,
    (Z.of_nat i + Z.of_nat t = 2 * W + 1)%Z -> t < fuel ->
    sample_loop B M fuel expression bounds (of_Z W) height (mul (of_Z W) (of_Z 2))
      (div (sub (xMax bounds) (xMin bounds)) (mul (of_Z W) (of_Z 2)))
      (of_Z (Z.of_nat i)) points
    = Some (Normal (points
                    ++ map (sample_at B M expression bounds (of_Z W) height) (seq i t))).
Proof.
  induction t as [|t IH]; intros i fuel points Hi Hf.
  - destruct fuel as [|fuel]; [lia|]. cbn [sample_loop seq map].
    rewrite mul_of_Z, leb_of_Z.
    replace (Z.of_nat i <=? W * 2)%Z with false by (symmetry; apply Z.leb_gt; lia).
    now rewrite app_nil_r.
  - destruct fuel as [|fuel]; [lia|]. cbn [sample_loop seq map].
    rewrite mul_of_Z at 1. rewrite leb_of_Z.
    replace (Z.of_nat i <=? W * 2)%Z with true by (symmetry; apply Z.leb_le; lia).
    rewrite evaluateFunction_sampled. cbv zeta.
    change one with (of_Z 1). rewrite add_of_Z.
    replace (Z.of_nat i + 1)%Z with (Z.of_nat (S i)) by lia.
    rewrite IH by lia. rewrite <- app_assoc. reflexivity.
Qed.

(** X15: for a canvas that is [W] pixels wide, [drawFunction] samples the
    function at [2 W + 1] abscissas and inks exactly the straight lines
    between neighbouring samples that both have a value within 100 of the
    viewport: a gap is never bridged.  A blank expression draws nothing. *)
Theorem drawFunction_joins (expression color : jsstring) (bounds : GraphBounds)
  (W : Z) (height : number) (fuel : nat) :
  (0 <= W)%Z -> Z.to_nat (2 * W + 1) < fuel ->
  exists calls,
    drawFunction B M fuel expression color bounds (of_Z W) height = Some (Normal calls)
    /\ (trim expression = [] -> calls = [])
    /\ (trim expression <> [] ->
        stroked calls
        = joins (map (sample_at B M expression bounds (of_Z W) height)
                   (seq 0 (Z.to_nat (2 * W + 1))))).
Proof.
  intros HW Hf. unfold drawFunction. destruct (trim expression) as [|c t] eqn:Et.
  - exists []. split; [reflexivity|]. split; [reflexivity | congruence].
  - cbv zeta.
    pose proof (sample_loop_samples expression bounds W height (Z.to_nat (2 * W + 1)) 0
                  fuel [] ltac:(lia) Hf) as Hs.
    change (of_Z (Z.of_nat 0)) with (of_Z 0) in Hs. rewrite Hs.
    eexists. split; [reflexivity|]. split; [discriminate|]. intros _.
    unfold stroked. cbn [app fold_left call].
    destruct (draw_points_inks
                (map (sample_at B M expression bounds (of_Z W) height)
                   (seq 0 (Z.to_nat (2 * W + 1))))) as [_ H].
    rewrite H by reflexivity. reflexivity.
Qed.

End WithLibraries.

Lemma drawFunction_joins_witness :
  exists calls,
    drawFunction EngineSpec.example_builtins EngineSpec.example_mathjs 4
      (js "1/x") (js "#4a90d9") DEFAULT_BOUNDS (of_Z 1) (of_Z 1)
    = Some (Normal calls)
    /\ stroked calls = [].
Proof.
  destruct (drawFunction_joins EngineSpec.example_builtins EngineSpec.example_mathjs
              (js "1/x") (js "#4a90d9") DEFAULT_BOUNDS 1 (of_Z 1) 4
              ltac:(lia) ltac:(cbn; lia)) as (calls & H1 & _ & H3).
  exists calls. split; [exact H1|]. rewrite H3 by discriminate. reflexivity.
Defined.

End DrawingFacts.

(** ** Mean, median and variance *)

Module DescriptiveFacts.
Import JsNumber Statistics StatisticsSpec DescriptiveSpec JsNumberFacts StatisticsFacts.
Local Open Scope R_scope.

Lemma sum_finite (xs : list R) : forall acc,
  fold_left (fun sum val => add sum val) (map Fin xs) (Fin acc) = Fin (acc + total xs).
Proof.
  induction xs as [|x xs IH]; intros acc; cbn [map fold_left total fold_right].
  - f_equal. lra.
  - cbn [add]. rewrite IH. f_equal. unfold total. lra.
Qed.

Lemma length_positive {A : Type} (l : list A) : l <> [] -> 0 < INR (length l).
Proof. destruct l; [congruence|]. intros _. apply lt_0_INR. cbn. lia. Qed.

Lemma calculateMean_finite (xs : list R) :
  xs <> [] -> calculateMean (map Fin xs) = Fin (average xs).
Proof.
  intros Hne. unfold calculateMean. rewrite length_map.
  destruct xs as [|x xs]; [congruence|]. cbn [length Nat.eqb].
  unfold zero. rewrite sum_finite. unfold of_nat, div.
  pose proof (length_positive (x :: xs) Hne) as Hl. cbn [length] in Hl.
  rewrite Reqb_false by lra. f_equal. unfold average. cbn [length]. f_equal. lra.
Qed.

(** *** The median *)

Lemma number_le_trans (a b c : number) : number_le a b -> number_le b c -> number_le a c.
Proof.
  unfold number_le.
  destruct a as [x| | |], b as [y| | |], c as [z| | |]; cbn [leb]; try discriminate;
    try reflexivity.
  rewrite !Rleb_le. lra.
Qed.

Lemma number_le_antisym (a b : number) : number_le a b -> number_le b a -> a = b.
Proof.
  unfold number_le.
  destruct a as [x| | |], b as [y| | |]; cbn [leb]; try discriminate; try reflexivity.
  rewrite !Rleb_le. intros H1 H2. f_equal. lra.
Qed.

(** An ascending list is determined by its elements. *)
Lemma ascending_unique (l1 : list number) : forall l2,
  StronglySorted number_le l1 -> StronglySorted number_le l2 ->
  Permutation l1 l2 -> l1 = l2.
Proof.
  induction l1 as [|a l1 IH]; intros l2 H1 H2 Hp.
  - apply Permutation_nil in Hp. now subst.
  - destruct l2 as [|b l2]; [apply Permutation_sym, Permutation_nil in Hp; discriminate|].
    inversion H1 as [|? ? S1 F1]; subst. inversion H2 as [|? ? S2 F2]; subst.
    rewrite Forall_forall in F1, F2.
    assert (a = b) as ->.
    { assert (Ha : In a (b :: l2)) by (apply (Permutation_in _ Hp); now left).
      assert (Hb : In b (a :: l1))
        by (apply (Permutation_in _ (Permutation_sym Hp)); now left).
      destruct Ha as [->|Ha]; [reflexivity|]. destruct Hb as [->|Hb]; [reflexivity|].
      apply number_le_antisym; [now apply F1 | now apply F2]. }
    f_equal. apply IH; try assumption. now apply Permutation_cons_inv in Hp.
Qed.

Lemma sort_by_ascending (l : list number) :
  ~ In NaN l -> StronglySorted number_le (sort_by (fun a b => sub a b) l).
Proof.
  intros H. apply Sorted_StronglySorted.
  - intros a b c. apply number_le_trans.
  - now apply sort_by_sorted.
Qed.

Lemma sort_by_order_free (l l' : list number) :
  ~ In NaN l -> Permutation l l' ->
  sort_by (fun a b => sub a b) l = sort_by (fun a b => sub a b) l'.
Proof.
  intros Hl Hp.
  assert (Hl' : ~ In NaN l')
    by (intros H; apply Hl; now apply (Permutation_in _ (Permutation_sym Hp))).
  apply ascending_unique; try now apply sort_by_ascending.
  rewrite !sort_by_permutation. exact Hp.
Qed.

Lemma item_In (l : list number) (i : nat) : (i < length l)%nat -> In (item l i) l.
Proof. intros H. unfold item. now apply nth_In. Qed.

(** X17: the median of a sequence without NaN does not depend on the order of
    its values; for an odd number of values it is one of them, and so lies
    between any two bounds of the values. *)
Theorem calculateMedian_order_free (values : list number) :
  ~ In NaN values ->
  (forall values', Permutation values values' ->
     calculateMedian values = calculateMedian values')
  /\ (Nat.odd (length values) = true ->
      In (calculateMedian values) values
      /\ forall lo hi,
           Forall (fun v => number_le lo v /\ number_le v hi) values ->
           number_le lo (calculateMedian values)
           /\ number_le (calculateMedian values) hi).
Proof.
  intros Hnan.
  pose proof (sort_by_permutation (fun a b => sub a b) values) as Hperm.
  pose proof (Permutation_length Hperm) as Hlen.
  assert (Hodd : Nat.odd (length values) = true -> In (calculateMedian values) values).
  { intros Hodd. unfold calculateMedian.
    rewrite Nat.odd_spec in Hodd. destruct Hodd as [k Hk].
    rewrite Hlen, Hk.
    replace (Nat.eqb (2 * k + 1) 0) with false by (symmetry; apply Nat.eqb_neq; lia).
    replace (Nat.modulo (2 * k + 1) 2) with 1%nat
      by (rewrite Nat.add_comm, Nat.mul_comm, Nat.Div0.mod_add; reflexivity).
    cbn [Nat.eqb].
    apply (Permutation_in _ Hperm). apply item_In. rewrite Hlen, Hk.
    apply Nat.Div0.div_lt_upper_bound. lia. }
  split.
  - intros values' Hp. unfold calculateMedian.
    rewrite <- (sort_by_order_free values values' Hnan Hp).
    now rewrite (Permutation_length Hp).
  - intros H. split; [now apply Hodd|].
    intros lo hi Hb. rewrite Forall_forall in Hb. apply Hb. now apply Hodd.
Qed.

Lemma calculateMedian_order_free_witness :
  calculateMedian [of_Z 3; of_Z 1; of_Z 2] = calculateMedian [of_Z 1; of_Z 2; of_Z 3]
  /\ In (calculateMedian [of_Z 3; of_Z 1; of_Z 2]) [of_Z 3; of_Z 1; of_Z 2].
Proof.
  assert (H : ~ In NaN [of_Z 3; of_Z 1; of_Z 2])
    by (intros [H|[H|[H|[]]]]; discriminate).
  destruct (calculateMedian_order_free [of_Z 3; of_Z 1; of_Z 2] H) as (H1 & H2).
  split; [|apply H2; reflexivity].
  apply H1. apply Permutation_sym.
  apply perm_trans with [of_Z 1; of_Z 3; of_Z 2]; [|apply perm_swap].
  apply perm_skip, perm_swap.
Defined.

(** *** Variance and standard deviation *)

(** The sum of the squared distances of finite numbers from any number is a
    number that is not negative. *)
Lemma squared_sum_nonnegative (mean : number) (xs : list R) :
  mean <> NaN ->
  number_le zero
    (fold_left (fun sum val => add sum val)
       (map (fun val => Math_pow (sub val mean) 2) (map Fin xs)) zero).
Proof.
  intros Hm.
  assert (H : forall acc, number_le zero acc ->
            number_le zero
              (fold_left (fun sum val => add sum val)
                 (map (fun val => Math_pow (sub val mean) 2) (map Fin xs)) acc)).
  { induction xs as [|x xs IH]; intros acc Ha; [exact Ha|].
    cbn [map fold_left]. apply IH.
    assert (Hs : number_le zero (Math_pow (sub (Fin x) mean) 2)).
    { destruct mean as [m| | |]; try congruence; try reflexivity.
      unfold number_le, zero. cbn [sub neg add Math_pow leb].
      apply Rleb_le. apply pow2_ge_0. }
    unfold number_le, zero in *.
    destruct acc as [a| | |], (Math_pow (sub (Fin x) mean) 2) as [d| | |];
      try discriminate; try reflexivity.
    cbn [add leb] in *. rewrite Rleb_le in *. lra. }
  apply H. unfold number_le, zero. cbn [leb]. apply Rleb_le. lra.
Qed.

Lemma quotient_nonnegative (a : number) (n : R) :
  0 < n -> number_le zero a -> number_le zero (div a (Fin n)).
Proof.
  intros Hn Ha. unfold number_le, zero in *.
  destruct a as [x| | |]; try discriminate.
  - cbn [div leb] in *. rewrite Reqb_false by lra. cbn [leb].
    rewrite Rleb_le in *. apply Rmult_le_pos; [exact Ha|].
    apply Rlt_le. now apply Rinv_0_lt_compat.
  - cbn [div sign signed_infinity]. rewrite Rltb_false by lra. reflexivity.
Qed.

Lemma root_nonnegative (a : number) : number_le zero a -> number_le zero (Math_sqrt a).
Proof.
  unfold number_le, zero. destruct a as [x| | |]; try discriminate; [|reflexivity].
  cbn [leb Math_sqrt]. rewrite Rleb_le. intros Hx. rewrite Rltb_false by lra.
  cbn [leb]. apply Rleb_le. apply sqrt_pos.
Qed.

Lemma mean_not_NaN (xs : list R) : calculateMean (map Fin xs) <> NaN.
Proof.
  destruct xs as [|x xs]; [discriminate|].
  rewrite calculateMean_finite by discriminate. discriminate.
Qed.

(** X18: for finite numbers the variance and the sample variance are never
    negative and the two standard deviations are numbers that are not
    negative, never NaN; a single value has the variance 0 and the standard
    deviation 0. *)
Theorem calculateVariance_nonnegative (xs : list R) :
  let values := map Fin xs in
  number_le zero (calculateVariance values)
  /\ number_le zero (calculateSampleVariance values)
  /\ number_le zero (calculateStdDev values)
  /\ number_le zero (calculateSampleStdDev values)
  /\ (length xs = 1%nat ->
      calculateVariance values = zero /\ calculateStdDev values = zero).
Proof.
  cbv zeta.
  assert (Hzero : number_le zero zero)
    by (unfold number_le, zero; cbn [leb]; apply Rleb_le; lra).
  assert (Hv : number_le zero (calculateVariance (map Fin xs))).
  { unfold calculateVariance. rewrite length_map.
    destruct (Nat.eqb (length xs) 0) eqn:E; [exact Hzero|].
    apply Nat.eqb_neq in E. unfold of_nat. apply quotient_nonnegative.
    - apply lt_0_INR. lia.
    - apply squared_sum_nonnegative, mean_not_NaN. }
  assert (Hs : number_le zero (calculateSampleVariance (map Fin xs))).
  { unfold calculateSampleVariance. rewrite length_map.
    destruct (Nat.leb (length xs) 1) eqn:E; [exact Hzero|].
    apply Nat.leb_gt in E. unfold of_nat, one. cbn [sub neg add].
    apply quotient_nonnegative.
    - assert (1 < INR (length xs)) by (change 1 with (INR 1); apply lt_INR; lia). lra.
    - apply squared_sum_nonnegative, mean_not_NaN. }
  split; [exact Hv|]. split; [exact Hs|].
  split; [now apply root_nonnegative|]. split; [now apply root_nonnegative|].
  intros H1. destruct xs as [|x [|y xs]]; try discriminate.
  assert (E : calculateVariance (map Fin [x]) = zero).
  { unfold calculateVariance, calculateMean. cbn [map length Nat.eqb fold_left].
    unfold zero, of_nat. cbn [add INR div]. rewrite Reqb_false by lra.
    cbn [sub neg add Math_pow div]. rewrite Reqb_false by lra. f_equal. field. }
  split; [exact E|]. unfold calculateStdDev. rewrite E. unfold zero. cbn [Math_sqrt].
  rewrite Rltb_false by lra. now rewrite sqrt_0.
Qed.

End DescriptiveFacts.

(** ** Reading a data set *)

Module DataInputFacts.
Import JsString JsNumber DataInput DataInputSpec JsStringFacts MultiplicationFacts EngineFacts.

Lemma span_none (p : code_unit -> bool) (s : jsstring) :
  Forall (fun c => p c = false) s -> span p s = ([], s).
Proof. destruct 1 as [|c s Hc _]; [reflexivity|]. cbn [span]. now rewrite Hc. Qed.

(** A text without white space is its own [trim]. *)
Lemma trim_solid (s : jsstring) : Forall (fun c => is_space c = false) s -> trim s = s.
Proof.
  intros H. unfold trim, trim_start. rewrite (span_none _ _ H). cbn [snd].
  rewrite span_none by now apply Forall_rev. cbn [snd]. apply rev_involutive.
Qed.

Lemma delimiter_space (c : code_unit) : is_delimiter c = false -> is_space c = false.
Proof.
  unfold is_delimiter. intros H. apply orb_false_iff in H as [H _].
  now apply orb_false_iff in H as [_ H].
Qed.

(** The parts that survive the filter are the tokens. *)
Lemma parts_tokens (input : jsstring) : forall piece in_run,
  Forall (fun c => is_delimiter c = false) piece ->
  (in_run = true -> piece = []) ->
  filter (fun s => Nat.ltb 0 (length (trim s))) (split_run piece in_run input)
  = tokens_from piece input.
Proof.
  induction input as [|c input IH]; intros piece in_run Hp Hrun.
  - cbn [split_run tokens_from filter].
    rewrite trim_solid
      by (apply Forall_rev; revert Hp; apply Forall_impl; exact delimiter_space).
    rewrite length_rev. destruct piece; reflexivity.
  - cbn [split_run tokens_from]. destruct (is_delimiter c) eqn:Ec.
    + destruct in_run.
      * rewrite (Hrun eq_refl). apply IH; [constructor | reflexivity].
      * cbn [filter].
        rewrite trim_solid
          by (apply Forall_rev; revert Hp; apply Forall_impl; exact delimiter_space).
        rewrite length_rev, IH by (try constructor; reflexivity).
        destruct piece; reflexivity.
    + apply IH; [now constructor | discriminate].
Qed.

Lemma tokens_from_solid (input : jsstring) : forall piece,
  Forall (fun c => is_delimiter c = false) piece ->
  Forall (Forall (fun c => is_delimiter c = false)) (tokens_from piece input).
Proof.
  induction input as [|c input IH]; intros piece Hp; cbn [tokens_from].
  - destruct piece; constructor; [now apply Forall_rev | constructor].
  - destruct (is_delimiter c) eqn:Ec.
    + destruct piece as [|x piece]; [apply IH; constructor|].
      constructor; [now apply Forall_rev | apply IH; constructor].
    + apply IH. now constructor.
Qed.

Lemma tokens_from_app (a : jsstring) (d : code_unit) (b : jsstring) : forall piece,
  is_delimiter d = true ->
  tokens_from piece (a ++ d :: b) = tokens_from piece a ++ tokens b.
Proof.
  intros piece Hd. revert piece. induction a as [|c a IH]; intros piece.
  - cbn [app tokens_from]. rewrite Hd. destruct piece; reflexivity.
  - cbn [app tokens_from]. destruct (is_delimiter c).
    + destruct piece; rewrite IH; reflexivity.
    + apply IH.
Qed.

Section WithParseFloat.
Variable parseFloat : jsstring -> number.

Lemma push_numbers (parts : list jsstring) : forall values,
  Forall (Forall (fun c => is_delimiter c = false)) parts ->
  fold_left (push_number parseFloat) parts values
  = values ++ filter isFinite (map parseFloat parts).
Proof.
  induction parts as [|part parts IH]; intros values Hs; cbn [fold_left map filter].
  - now rewrite app_nil_r.
  - inversion Hs as [|? ? Hpart Hparts]; subst. rewrite IH by exact Hparts.
    unfold push_number.
    rewrite trim_solid by (revert Hpart; apply Forall_impl; exact delimiter_space).
    destruct (parseFloat part); cbn [isNaN isFinite negb andb];
      rewrite <- ?app_assoc; reflexivity.
Qed.

(** X25: [parseDataInput] reads the maximal stretches without comma, semicolon
    and white space, in their order, and keeps what [parseFloat] makes of
    each unless that is NaN or infinite: every number returned is finite, an
    input of delimiters only gives nothing, and two inputs joined by a
    delimiter give the numbers of the first followed by those of the
    second. *)
Theorem parseDataInput_tokens (input : jsstring) :
  parseDataInput parseFloat input = filter isFinite (map parseFloat (tokens input))
  /\ Forall (fun v => isFinite v = true) (parseDataInput parseFloat input)
  /\ (Forall (fun c => is_delimiter c = true) input -> parseDataInput parseFloat input = [])
  /\ (forall d rest, is_delimiter d = true ->
        parseDataInput parseFloat (input ++ d :: rest)
        = parseDataInput parseFloat input ++ parseDataInput parseFloat rest).
Proof.
  assert (H : forall s, parseDataInput parseFloat s
                        = filter isFinite (map parseFloat (tokens s))).
  { intros s. unfold parseDataInput, split_delimiters.
    rewrite parts_tokens by (try constructor; discriminate).
    rewrite push_numbers by (apply tokens_from_solid; constructor). reflexivity. }
  split; [apply H|]. split; [|split].
  - rewrite H. apply Forall_forall. intros v Hv. now apply filter_In in Hv.
  - intros Hd. rewrite H. unfold tokens.
    replace (tokens_from [] input) with (@nil jsstring); [reflexivity|].
    induction Hd as [|c s Hc _ IH]; [reflexivity|].
    cbn [tokens_from]. now rewrite Hc.
  - intros d rest Hd. rewrite !H. unfold tokens at 1.
    rewrite tokens_from_app by exact Hd.
    now rewrite map_app, filter_app.
Qed.

End WithParseFloat.

End DataInputFacts.

(** ** The calculator state *)

Module CalculatorFacts.
Import JsString JsNumber Completion Engine Calculator CalculatorSpec.
Import JsStringFacts MultiplicationFacts EngineFacts ParenthesesSpec ParenthesesFacts.

Lemma trim_start_solid (s : jsstring) : starts_solid s -> trim_start s = s.
Proof.
  destruct s as [|c s]; [reflexivity|]. cbn [starts_solid]. intros H.
  unfold trim_start. cbn [span]. now rewrite H.
Qed.

Lemma trim_start_starts (s : jsstring) : starts_solid (trim_start s).
Proof.
  unfold trim_start. destruct (span_spec is_space s) as (_ & _ & H).
  destruct (snd (span is_space s)); [exact I | exact H].
Qed.

Lemma trim_start_space (c : code_unit) (s : jsstring) :
  is_space c = true -> trim_start (c :: s) = trim_start s.
Proof.
  intros H. unfold trim_start. cbn [span]. rewrite H. now destruct (span is_space s).
Qed.

Lemma trimEnd_solid (s : jsstring) : ends_solid s -> trimEnd s = s.
Proof.
  intros H. unfold trimEnd. rewrite trim_start_solid by exact H. apply rev_involutive.
Qed.

Lemma trimEnd_space (s : jsstring) (c : code_unit) :
  is_space c = true -> trimEnd (s ++ [c]) = trimEnd s.
Proof.
  intros H. unfold trimEnd. rewrite rev_app_distr. cbn [rev app].
  now rewrite trim_start_space.
Qed.

Lemma ends_solid_snoc (s : jsstring) (c : code_unit) :
  is_space c = false -> ends_solid (s ++ [c]).
Proof. intros H. unfold ends_solid. rewrite rev_app_distr. exact H. Qed.

Lemma trim_trimEnd (s : jsstring) : trim s = trimEnd (trim_start s).
Proof. reflexivity. Qed.

(** What [trimEnd] takes away is white space at the end. *)
Lemma trimEnd_prefix (s : jsstring) :
  exists ws, s = trimEnd s ++ ws /\ Forall (fun c => is_space c = true) ws.
Proof.
  unfold trimEnd, trim_start. destruct (span_spec is_space (rev s)) as (H1 & H2 & _).
  exists (rev (fst (span is_space (rev s)))). split.
  - rewrite <- rev_app_distr, <- H1. now rewrite rev_involutive.
  - now apply Forall_rev.
Qed.

Lemma trim_ends (s : jsstring) : starts_solid (trim s) /\ ends_solid (trim s).
Proof.
  split.
  - rewrite trim_trimEnd. pose proof (trim_start_starts s) as Hs.
    destruct (trimEnd_prefix (trim_start s)) as (ws & E & _).
    destruct (trimEnd (trim_start s)) as [|c t]; [exact I|].
    rewrite E in Hs. exact Hs.
  - unfold ends_solid, trim. rewrite rev_involutive. apply trim_start_starts.
Qed.

Lemma trim_solid_ends (s : jsstring) : starts_solid s -> ends_solid s -> trim s = s.
Proof.
  intros H1 H2. rewrite trim_trimEnd, trim_start_solid by exact H1.
  now apply trimEnd_solid.
Qed.

Lemma trim_idempotent (s : jsstring) : trim (trim s) = trim s.
Proof. destruct (trim_ends s). now apply trim_solid_ends. Qed.

Lemma space_is_space : is_space SPACE = true.
Proof. reflexivity. Qed.

(** An operand, a space, an operator and a space: what [trim] leaves. *)
Lemma trim_operator (b : jsstring) (o : code_unit) :
  starts_solid b -> ends_solid b -> is_space o = false ->
  trim (b ++ [SPACE; o; SPACE])
  = match b with [] => [o] | _ => b ++ [SPACE; o] end.
Proof.
  intros H1 H2 Ho. rewrite trim_trimEnd.
  destruct b as [|c b].
  - cbn [app]. rewrite trim_start_space by reflexivity.
    rewrite trim_start_solid by exact Ho.
    change [o; SPACE] with ([o] ++ [SPACE]). rewrite trimEnd_space by reflexivity.
    apply trimEnd_solid. exact Ho.
  - rewrite trim_start_solid by exact H1.
    change [SPACE; o; SPACE] with ([SPACE; o] ++ [SPACE]). rewrite app_assoc.
    rewrite trimEnd_space by reflexivity. apply trimEnd_solid.
    change [SPACE; o] with ([SPACE] ++ [o]). rewrite app_assoc.
    now apply ends_solid_snoc.
Qed.

Lemma operator_unit (op : jsstring) :
  Array_includes SPACED_OPERATORS (Some op) = true ->
  exists o, op = [o] /\ is_space o = false /\ o <> DOT.
Proof.
  cbn [Array_includes SPACED_OPERATORS existsb]. rewrite !orb_true_iff.
  intros [H|[H|[H|[H|[H|[H|H]]]]]]; try discriminate;
    apply jseqb_eq in H; subst op; eexists; (split; [reflexivity|]);
    (split; [reflexivity | discriminate]).
Qed.

Lemma last_char_snoc (s : jsstring) (c : code_unit) :
  last_char (s ++ [c]) = @Some jsstring [c].
Proof. unfold last_char. now rewrite rev_app_distr. Qed.

Lemma drop_last_snoc (s : jsstring) (c : code_unit) : drop_last (s ++ [c]) = s.
Proof. apply removelast_last. Qed.

Lemma not_the_dot (c : code_unit) : c <> DOT -> jseqb [c] (js ".") = false.
Proof.
  intros H. destruct (jseqb [c] (js ".")) eqn:E; [|reflexivity].
  apply jseqb_eq in E. injection E as E. exfalso. apply H. exact E.
Qed.

Lemma trim_not_blank (s : jsstring) : trim s <> [] -> Nat.eqb (length (trim s)) 0 = false.
Proof. destruct (trim s); [congruence | reflexivity]. Qed.

Lemma operand_ends (e : jsstring) : starts_solid (operand e) /\ ends_solid (operand e).
Proof. apply trim_ends. Qed.

Lemma appendToExpression_operator (prev : CalculatorState) (op : jsstring) :
  isError prev = false ->
  Array_includes SPACED_OPERATORS (Some op) = true ->
  trim (expression prev) <> [] ->
  appendToExpression op prev
  = with_expression prev (operand (expression prev) ++ js " " ++ op ++ js " ").
Proof.
  intros He Hop Hne. destruct (operator_unit op Hop) as (o & -> & Ho & Hdot).
  unfold appendToExpression. rewrite He. cbn [andb].
  rewrite (not_the_dot o Hdot). cbn [andb]. rewrite Hop.
  rewrite (trim_not_blank _ Hne). cbn [andb]. reflexivity.
Qed.

Lemma operand_of_operator (b : jsstring) (o : code_unit) :
  starts_solid b -> ends_solid b ->
  Array_includes SPACED_OPERATORS (@Some jsstring [o]) = true -> is_space o = false ->
  trim (b ++ [SPACE; o; SPACE]) <> []
  /\ operand (b ++ [SPACE; o; SPACE]) = b.
Proof.
  intros H1 H2 Hop Ho. pose proof (trim_operator b o H1 H2 Ho) as Ht.
  split; [rewrite Ht; destruct b; [discriminate | now destruct b]|].
  unfold operand, endsWithOperator. rewrite Ht.
  destruct b as [|c b].
  - cbn [last_char rev app]. rewrite Hop. reflexivity.
  - change [SPACE; o] with ([SPACE] ++ [o]). rewrite app_assoc.
    rewrite last_char_snoc, Hop, drop_last_snoc.
    rewrite trim_trimEnd, trim_start_solid by exact H1.
    rewrite trimEnd_space by reflexivity. now apply trimEnd_solid.
Qed.

(** X26: an operator is appended, between spaces, to the expression without
    its surrounding white space and without the operator it may end in; a
    second operator therefore replaces the first, and [backspace] takes the
    operator and its spaces away again. *)
Theorem operators_replace_each_other (prev : CalculatorState) (op : jsstring) :
  isError prev = false ->
  Array_includes SPACED_OPERATORS (Some op) = true ->
  trim (expression prev) <> [] ->
  appendToExpression op prev
  = with_expression prev (operand (expression prev) ++ js " " ++ op ++ js " ")
  /\ (forall op', Array_includes SPACED_OPERATORS (Some op') = true ->
        appendToExpression op' (appendToExpression op prev) = appendToExpression op' prev)
  /\ expression (backspace (appendToExpression op prev)) = operand (expression prev).
Proof.
  intros He Hop Hne. pose proof (appendToExpression_operator prev op He Hop Hne) as H1.
  destruct (operator_unit op Hop) as (o & -> & Ho & Hdot).
  destruct (operand_ends (expression prev)) as [Hs1 Hs2].
  change (js " " ++ [o] ++ js " ") with [SPACE; o; SPACE] in *.
  destruct (operand_of_operator _ o Hs1 Hs2 Hop Ho) as [Hnb Hoperand].
  split; [exact H1|]. split.
  - intros op' Hop'. rewrite H1.
    rewrite appendToExpression_operator by (try assumption; reflexivity).
    rewrite (appendToExpression_operator prev op') by assumption.
    cbn [expression with_expression]. rewrite Hoperand. reflexivity.
  - rewrite H1. unfold backspace. cbn [isError expression with_expression].
    set (b := operand (expression prev)) in *.
    assert (E1 : endsWith_space (b ++ [SPACE; o; SPACE]) = true).
    { unfold endsWith_space. change [SPACE; o; SPACE] with ([SPACE; o] ++ [SPACE]).
      now rewrite app_assoc, rev_app_distr. }
    rewrite E1.
    assert (E2 : trimEnd (b ++ [SPACE; o; SPACE]) = (b ++ [SPACE]) ++ [o]).
    { change [SPACE; o; SPACE] with ([SPACE; o] ++ [SPACE]). rewrite app_assoc.
      rewrite trimEnd_space by reflexivity.
      change [SPACE; o] with ([SPACE] ++ [o]). rewrite app_assoc.
      apply trimEnd_solid. now apply ends_solid_snoc. }
    rewrite E2, last_char_snoc, Hop, drop_last_snoc.
    rewrite trimEnd_space by reflexivity. now apply trimEnd_solid.
Qed.

Lemma operators_replace_each_other_witness :
  appendToExpression (js "*") (appendToExpression (js "+") (setExpression (js "12") INITIAL_STATE))
  = appendToExpression (js "*") (setExpression (js "12") INITIAL_STATE)
  /\ expression (backspace (appendToExpression (js "+") (setExpression (js "12") INITIAL_STATE)))
     = operand (js "12").
Proof.
  destruct (operators_replace_each_other (setExpression (js "12") INITIAL_STATE) (js "+")
              eq_refl eq_refl ltac:(discriminate)) as (_ & H2 & H3).
  split; [apply H2; reflexivity | exact H3].
Defined.

(** X27: [backspace] undoes the entry of a single code unit that is neither
    white space, nor an operator, nor the decimal point. *)
Theorem backspace_undoes_a_key (prev : CalculatorState) (c : code_unit) :
  isError prev = false ->
  is_space c = false ->
  Array_includes SPACED_OPERATORS (@Some jsstring [c]) = false ->
  c <> DOT ->
  backspace (appendToExpression [c] prev) = with_expression prev (expression prev).
Proof.
  intros He Hs Hop Hdot. unfold appendToExpression. rewrite He. cbn [andb].
  rewrite (not_the_dot c Hdot). cbn [andb]. rewrite Hop.
  unfold backspace. cbn [isError expression with_expression previousResult angleUnit mode].
  assert (E : endsWith_space (expression prev ++ [c]) = false).
  { unfold endsWith_space. rewrite rev_app_distr. cbn [rev app].
    apply code_eqb_neq. intros ->. discriminate. }
  rewrite E, drop_last_snoc. reflexivity.
Qed.

Lemma backspace_undoes_a_key_witness :
  backspace (appendToExpression (js "7") (setExpression (js "12") INITIAL_STATE))
  = setExpression (js "12") INITIAL_STATE.
Proof.
  exact (backspace_undoes_a_key (setExpression (js "12") INITIAL_STATE) 55%N
           eq_refl eq_refl eq_refl ltac:(discriminate)).
Defined.

Section WithLibraries.
Variable B : builtins.
Variable M : mathjs.

(** X28: [calculateResult] never raises.  It leaves a blank expression alone;
    otherwise it closes the parentheses left open and evaluates: on success
    the closed expression is kept, the display value becomes result and
    previous result, and the history entry carries the expression as it was
    typed; on failure the expression stays, the message becomes the result,
    the state is flagged and no entry is made. *)
Theorem calculateResult_spec (uuid : jsstring) (now : number) (prev : CalculatorState) :
  exists state entry,
    calculateResult B M uuid now prev = Normal (state, entry)
    /\ (trim (expression prev) = [] -> state = prev /\ entry = None)
    /\ (trim (expression prev) <> [] ->
        let closed :=
          expression prev ++ closing (getUnclosedParentheses (expression prev)) in
        exists outcome,
          evaluate B M closed (angleUnit prev) = Normal outcome
          /\ match outcome with
             | Success _ displayValue =>
                 state = {| expression := closed;
                            result := displayValue;
                            previousResult := displayValue;
                            angleUnit := angleUnit prev;
                            mode := mode prev;
                            isError := false |}
                 /\ entry = Some {| History.id := uuid;
                                    History.expression := expression prev;
                                    History.result := displayValue;
                                    History.timestamp := now |}
                 /\ getUnclosedParentheses (expression state) = 0%Z
             | Failure error =>
                 state = {| expression := expression prev;
                            result := error;
                            previousResult := previousResult prev;
                            angleUnit := angleUnit prev;
                            mode := mode prev;
                            isError := true |}
                 /\ entry = None
             end).
Proof.
  unfold calculateResult. destruct (trim (expression prev)) as [|c t] eqn:Et.
  - exists prev, None. split; [reflexivity|]. split; [auto | congruence].
  - set (e := expression prev) in *.
    assert (Hclosed : (if (0 <? getUnclosedParentheses e)%Z
                       then e ++ repeat RPAREN (Z.to_nat (getUnclosedParentheses e))
                       else e)
                      = e ++ closing (getUnclosedParentheses e)).
    { unfold closing. destruct (Z.ltb_spec 0 (getUnclosedParentheses e)); [reflexivity|].
      replace (Z.to_nat (getUnclosedParentheses e)) with 0%nat by lia.
      cbn [repeat]. now rewrite app_nil_r. }
    rewrite Hclosed.
    destruct (evaluate_total B M (e ++ closing (getUnclosedParentheses e)) (angleUnit prev))
      as [outcome Ho].
    rewrite Ho. cbn [bind]. destruct outcome as [v d|err].
    + eexists _, _. split; [reflexivity|]. split; [discriminate|].
      intros _. cbv zeta. exists (Success v d). split; [reflexivity|].
      split; [reflexivity|]. split; [reflexivity|]. cbn [expression].
      apply closing_leaves_none.
    + eexists _, _. split; [reflexivity|]. split; [discriminate|].
      intros _. cbv zeta. exists (Failure err). split; [reflexivity|].
      split; reflexivity.
Qed.

End WithLibraries.

End CalculatorFacts.

(** ** The graph state *)

Module GraphStateFacts.
Import JsString JsNumber JsMath Completion Engine Graphing GraphState.
Import GraphStateSpec JsStringFacts JsNumberFacts GraphingFacts.
Local Open Scope nat_scope.

Section WithLibraries.
Variable B : builtins.
Variable parseInt : jsstring -> number.

Lemma filter_one (i : jsstring) (prev : list GraphFunction) :
  NoDup (map id prev) ->
  length prev <= S (length (filter (fun f => negb (jseqb (id f) i)) prev)).
Proof.
  induction prev as [|f prev IH]; intros Hnd; cbn [map filter length] in *; [lia|].
  inversion Hnd as [|? ? Hf Hrest]; subst.
  destruct (jseqb (id f) i) eqn:E; cbn [negb length]; [|specialize (IH Hrest); lia].
  apply jseqb_eq in E. subst i.
  replace (filter (fun g => negb (jseqb (id g) (id f))) prev) with prev; [lia|].
  symmetry. apply forallb_filter_id. apply forallb_forall. intros g Hg.
  apply negb_true_iff. destruct (jseqb (id g) (id f)) eqn:E; [|reflexivity].
  apply jseqb_eq in E. exfalso. apply Hf. rewrite <- E. now apply in_map.
Qed.

Lemma Math_max_of_Z (a b : Z) : Math_max (of_Z a) (of_Z b) = of_Z (Z.max a b).
Proof.
  unfold Math_max. change (match of_Z a with NaN => NaN | _ => _ end)
    with (if ltb (of_Z a) (of_Z b) then of_Z b else of_Z a).
  rewrite ltb_of_Z. destruct (Z.ltb_spec a b); f_equal; lia.
Qed.

Lemma largest_identifier (prev : list GraphFunction) :
  (forall f, In f prev -> exists k : Z, parseInt (id f) = of_Z k) ->
  exists m : Z,
    fold_right Math_max (of_Z 0) (map (fun f => parseInt (id f)) prev) = of_Z m
    /\ (0 <= m)%Z
    /\ forall f k, In f prev -> parseInt (id f) = of_Z k -> (k <= m)%Z.
Proof.
  induction prev as [|f prev IH]; intros Hint; cbn [map fold_right].
  - exists 0%Z. split; [reflexivity|]. split; [lia|]. intros f k [].
  - destruct IH as (m & Em & Hm & Hle); [intros g Hg; apply Hint; now right|].
    destruct (Hint f (or_introl eq_refl)) as [k Ek].
    exists (Z.max k m). rewrite Em, Ek, Math_max_of_Z. split; [reflexivity|].
    split; [lia|]. intros g j [<-|Hg] Ej.
    + rewrite Ek in Ej. apply StatisticsFacts.of_Z_injective in Ej. lia.
    + specialize (Hle g j Hg Ej). lia.
Qed.

(** Where the identifiers are numerals (and numerals are read back as they
    are written), [addFunction] gives the new function the numeral after the
    largest identifier, which no function has yet. *)
Lemma addFunction_fresh (prev : list GraphFunction) (e : jsstring) :
  (forall k : Z, (1 <= k)%Z -> parseInt (Number_toString B (of_Z k)) = of_Z k) ->
  (forall f, In f prev -> exists k : Z, parseInt (id f) = of_Z k) ->
  NoDup (map id prev) ->
  NoDup (map id (addFunction B parseInt e prev))
  /\ (forall f, In f (addFunction B parseInt e prev) ->
        exists k : Z, parseInt (id f) = of_Z k).
Proof.
  intros Hround Hint Hnd. unfold addFunction.
  destruct (Nat.leb MAX_FUNCTIONS (length prev)); [split; assumption|].
  destruct (largest_identifier prev Hint) as (m & Em & Hm & Hle).
  rewrite Em. change one with (of_Z 1). rewrite add_of_Z.
  split.
  - rewrite map_app. cbn [map id].
    apply NoDup_app; [exact Hnd | repeat constructor; intros [] |].
    intros x Hx [<-|[]]. apply in_map_iff in Hx as (f & Ef & Hf).
    destruct (Hint f Hf) as [k Ek]. specialize (Hle f k Hf Ek).
    rewrite Ef, Hround in Ek by lia. apply StatisticsFacts.of_Z_injective in Ek. lia.
  - intros f Hf. apply in_app_or in Hf as [Hf|[<-|[]]]; [now apply Hint|].
    exists (m + 1)%Z. cbn [id]. apply Hround. lia.
Qed.

(** X29: with functions of distinct identifiers, the list of graph functions
    never becomes empty and never grows beyond three: every update keeps a
    list of one to three functions within these bounds and keeps the
    identifiers distinct ([addFunction] where the identifiers are numerals
    that [parseInt] reads back as [toString] writes them).  [updateFunction]
    and [toggleFunctionVisibility] keep the identifiers in their order;
    [removeFunction] removes the function of the given identifier unless
    only one function is left, which it keeps. *)
Theorem functions_between_one_and_three (prev : list GraphFunction) (i e : jsstring) :
  1 <= length prev <= 3 ->
  NoDup (map id prev) ->
  (1 <= length (addFunction B parseInt e prev) <= 3
   /\ 1 <= length (updateFunction i e prev) <= 3
   /\ 1 <= length (removeFunction i prev) <= 3
   /\ 1 <= length (toggleFunctionVisibility i prev) <= 3)
  /\ (length prev < 3 -> length (addFunction B parseInt e prev) = S (length prev))
  /\ map id (updateFunction i e prev) = map id prev
  /\ map id (toggleFunctionVisibility i prev) = map id prev
  /\ NoDup (map id (removeFunction i prev))
  /\ (1 < length prev ->
      forall f, In f (removeFunction i prev) <-> In f prev /\ id f <> i)
  /\ (length prev = 1 -> map id (removeFunction i prev) = map id prev)
  /\ ((forall k : Z, (1 <= k)%Z -> parseInt (Number_toString B (of_Z k)) = of_Z k) ->
      (forall f, In f prev -> exists k : Z, parseInt (id f) = of_Z k) ->
      NoDup (map id (addFunction B parseInt e prev))
      /\ (forall f, In f (addFunction B parseInt e prev) ->
            exists k : Z, parseInt (id f) = of_Z k)).
Proof.
  intros [Hlo Hhi] Hnd.
  assert (Hmap : forall g : GraphFunction -> GraphFunction,
            (forall f, id (g f) = id f) -> map id (map g prev) = map id prev).
  { intros g Hg. rewrite map_map. apply map_ext. exact Hg. }
  assert (Hclear : forall f,
            id (if jseqb (id f) i
                then {| id := id f; expression := []; color := color f;
                        visible := visible f |}
                else f) = id f)
    by (intros f; now destruct (jseqb (id f) i)).
  split; [split; [|split; [|split]]|split; [|split; [|split; [|split; [|split; [|split]]]]]].
  - unfold addFunction, MAX_FUNCTIONS.
    destruct (Nat.leb_spec 3 (length prev)); [lia|].
    rewrite length_app. cbn [length]. lia.
  - unfold updateFunction. rewrite length_map. lia.
  - unfold removeFunction. destruct (Nat.leb_spec (length prev) 1).
    + rewrite length_map. lia.
    + pose proof (filter_one i prev Hnd).
      pose proof (filter_length_le (fun f => negb (jseqb (id f) i)) prev). lia.
  - unfold toggleFunctionVisibility. rewrite length_map. lia.
  - intros Hlt. unfold addFunction, MAX_FUNCTIONS.
    destruct (Nat.leb_spec 3 (length prev)); [lia|].
    rewrite length_app. cbn [length]. lia.
  - apply Hmap. intros f. now destruct (jseqb (id f) i).
  - apply Hmap. intros f. now destruct (jseqb (id f) i).
  - unfold removeFunction. destruct (Nat.leb (length prev) 1).
    + now rewrite (Hmap _ Hclear).
    + clear Hlo Hhi Hmap. induction prev as [|f prev IH]; cbn [filter map]; [constructor|].
      cbn [map] in Hnd. inversion Hnd as [|? ? Hf Hrest]; subst.
      destruct (jseqb (id f) i); cbn [negb map]; [now apply IH|].
      constructor; [|now apply IH].
      intros Hin. apply Hf. apply in_map_iff in Hin as (g & Hg & Hin).
      apply filter_In in Hin as [Hin _]. rewrite <- Hg. now apply in_map.
  - intros Hlt f. unfold removeFunction.
    destruct (Nat.leb_spec (length prev) 1); [lia|].
    rewrite filter_In, negb_true_iff. split; intros [H1 H2]; (split; [exact H1|]).
    + intros E. apply jseqb_eq in E. congruence.
    + destruct (jseqb (id f) i) eqn:E; [|reflexivity]. apply jseqb_eq in E. contradiction.
  - intros H1. unfold removeFunction. rewrite H1. cbn [Nat.leb].
    apply (Hmap _ Hclear).
  - intros Hround Hint. now apply addFunction_fresh.
Qed.

End WithLibraries.

Lemma read_numeral_numeral (k : Z) :
  (0 <= k)%Z -> read_numeral (numeral (of_Z k)) = of_Z k.
Proof.
  intros Hk. unfold read_numeral, numeral, js.
  rewrite to_Z_of_Z, map_map.
  rewrite (map_ext _ (fun a => a)) by apply ascii_N_embedding.
  rewrite map_id, string_of_list_ascii_of_string, NilEmpty.usu, DecimalN.Unsigned.of_to.
  f_equal. lia.
Qed.

Lemma functions_between_one_and_three_witness :
  length (addFunction numeral_builtins read_numeral (js "x^2") initial_functions) = 2
  /\ length (removeFunction (js "1") initial_functions) = 1
  /\ NoDup (map id (addFunction numeral_builtins read_numeral (js "x^2") initial_functions)).
Proof.
  destruct (functions_between_one_and_three numeral_builtins read_numeral
              initial_functions (js "1") (js "x^2")
              ltac:(cbn; lia) ltac:(repeat constructor; intros []))
    as (_ & H & _ & _ & _ & _ & H7 & H8).
  split; [apply H; cbn; lia|]. split.
  - rewrite <- (length_map id), H7 by reflexivity. reflexivity.
  - apply H8.
    + intros k Hk. apply read_numeral_numeral. lia.
    + intros f [<-|[]]. exists 1%Z. reflexivity.
Defined.

End GraphStateFacts.
